(** * A shallow embedding of the dense feed-forward training engine

    The development follows the layout of the sources:
    [core/tensor.h], [core/activations.h], [core/optimizers.h],
    [core/dense_layer.h], [core/loss_functions.h] and [core/model.h].

    Conventions.
    - C++ [int] and [size_t] values are integers of [Z]; index arithmetic is
      assumed not to overflow, except for the step counter of the adaptive
      optimizer, whose increment is checked against [INT_MAX].
    - [std::vector<float>] is a [list] of scalars; reading or writing outside
      the vector is the fault [OutOfBounds].
    - [assert] aborts with the fault [AssertionFailed] (the sources are built
      without [NDEBUG]); dereferencing a null pointer is [NullDereference].
    - The scalar type [float] is a parameter of the development.  The code
      is written once over an interface of arithmetic operations and is
      instantiated twice: with IEEE-754 binary32 (round to nearest even),
      where it computes, and with the real numbers, where the algebraic
      statements of the specification are proved.  Where the C++ promotes an
      intermediate value to [double], the embedding stays in the one scalar
      type. *)

From Stdlib Require Import ZArith QArith Reals Lra Lia.
From Stdlib Require Import Floats.SpecFloat.
From stdpp Require Import base option list gmap.

Set Default Proof Using "Type".
Local Open Scope Z_scope.

(** ** Faults and results *)

Inductive fault : Set :=
  | AssertionFailed
  | OutOfBounds
  | NullDereference
  | DanglingPointer
  | DivisionByZero
  | IntOverflow.

Inductive result (A : Type) : Type :=
  | Ok (a : A)
  | Fault (f : fault).
Arguments Ok {A} a.
Arguments Fault {A} f.

#[global] Instance fault_eq_dec : EqDecision fault.
Proof. solve_decision. Defined.

#[global] Instance result_ret : MRet result := λ A a, Ok a.
#[global] Instance result_bind : MBind result :=
  λ A B f m, match m with Ok a => f a | Fault e => Fault e end.

Definition assert (b : bool) : result unit :=
  if b then Ok tt else Fault AssertionFailed.

(** ** Counted loops

    [for_int lo hi body s] is [for (int i = lo; i < hi; ++i) body], threaded
    through the loop state [s]. *)

Fixpoint for_loop {S : Type} (n : nat) (i : Z)
    (body : Z → S → result S) (s : S) : result S :=
  match n with
  | O => Ok s
  | S n' => s' ← body i s; for_loop n' (i + 1) body s'
  end.

Definition for_int {S : Type} (lo hi : Z)
    (body : Z → S → result S) (s : S) : result S :=
  for_loop (Z.to_nat (hi - lo)) lo body s.

(** [for (auto x : xs) body] *)
Fixpoint for_each {A S : Type} (xs : list A)
    (body : A → S → result S) (s : S) : result S :=
  match xs with
  | [] => Ok s
  | x :: xs' => s' ← body x s; for_each xs' body s'
  end.

(** ** The scalar interface *)

Class Arith (F : Type) : Type := {
  flit : Q → F;            (* a decimal literal such as [0.01f] *)
  of_int : Z → F;          (* conversion of an [int] or [size_t] *)
  fadd : F → F → F;
  fsub : F → F → F;
  fmul : F → F → F;
  fdiv : F → F → F;
  fneg : F → F;
  fltb : F → F → bool;     (* [x < y] *)
  fleb : F → F → bool;     (* [x <= y] *)
  fsqrt : F → F;
}.

Class Libm (F : Type) : Type := {
  fexp : F → F;
  flog : F → F;
  ftanh : F → F;
  fpow : F → Z → F;        (* [std::pow(x, n)] with an integer exponent *)
}.

Definition f0 {F} `{Arith F} : F := flit 0.
Definition f1 {F} `{Arith F} : F := flit 1.

(** [std::max(a, b)] is [(a < b) ? b : a];
    [std::clamp(v, lo, hi)] is [(v < lo) ? lo : (hi < v) ? hi : v]. *)
Definition fmax {F} `{Arith F} (a b : F) : F := if fltb a b then b else a.
Definition fclamp {F} `{Arith F} (v lo hi : F) : F :=
  if fltb v lo then lo else if fltb hi v then hi else v.

(** *** Exact arithmetic: the real numbers *)

Definition Rltb (x y : R) : bool := if Rlt_dec x y then true else false.
Definition Rleb (x y : R) : bool := if Rle_dec x y then true else false.

#[global] Instance R_arith : Arith R := {|
  flit := Q2R;
  of_int := IZR;
  fadd := Rplus;
  fsub := Rminus;
  fmul := Rmult;
  fdiv := Rdiv;
  fneg := Ropp;
  fltb := Rltb;
  fleb := Rleb;
  fsqrt := sqrt;
|}.

#[global] Instance R_libm : Libm R := {|
  fexp := exp;
  flog := ln;
  ftanh := tanh;
  fpow := powerRZ;
|}.

(** *** IEEE-754 binary32, as the C++ [float] *)

Module B32.
Definition prec : Z := 24.
Definition emax : Z := 128.
Definition t : Type := spec_float.

Definition of_Z (z : Z) : t := binary_normalize prec emax z 0 false.

(** The correctly rounded quotient of two integers; the mantissas need not
    fit the format, so this also rounds decimal literals. *)
Definition of_Q (q : Q) : t :=
  match Qnum q with
  | Z0 => S754_zero false
  | Zpos n => SFdiv prec emax (S754_finite false n 0) (S754_finite false (Qden q) 0)
  | Zneg n => SFdiv prec emax (S754_finite true n 0) (S754_finite false (Qden q) 0)
  end.

(** **** The C library on [float]

    [std::exp], [std::log], [std::tanh] and [std::pow] come from the C
    library, which is not part of the repository.  The four functions
    below are binary32 implementations of the usual kind (argument
    reduction, a short polynomial, rescaling) with the special cases of
    the C standard: they are within a few units in the last place of the
    correctly rounded values, and agree with every C library on the
    facts the statements below rest on, [exp 0 = 1] and the underflow of
    [exp] to [+0] below [-103.9721]. *)

Definition one : t := of_Z 1.

(** The integer nearest to a finite [x], halves away from zero *)
Definition nearest (x : t) : Z :=
  match x with
  | S754_finite s m e =>
      let twice := if 0 <=? e then 2 * Z.pos m * 2 ^ e
                   else (2 * Z.pos m) / 2 ^ (- e) in
      let n := (twice + 1) / 2 in
      if s then - n else n
  | _ => 0
  end.

(** [c0 + r * (c1 + r * (c2 + ...))] *)
Definition horner (cs : list Q) (r : t) : t :=
  foldr (λ c acc, SFadd prec emax (of_Q c) (SFmul prec emax r acc))
        (S754_zero false) cs.

(** [x = k * ln 2 + r] with [|r| <= ln 2 / 2], then [2^k * exp r]; the
    product [k * ln 2] is subtracted in two parts. *)
Definition exp (x : t) : t :=
  match x with
  | S754_nan => S754_nan
  | S754_infinity s => if s then S754_zero false else S754_infinity false
  | _ =>
      if SFltb (of_Q 88.72284) x then S754_infinity false
      else if SFltb x (of_Q (-103.9721)) then S754_zero false
      else
        let k := nearest (SFmul prec emax x (of_Q 1.4426950408889634)) in
        let r := SFsub prec emax
                   (SFsub prec emax x
                      (SFmul prec emax (of_Z k) (of_Q 0.693145751953125)))
                   (SFmul prec emax (of_Z k) (of_Q 0.00000142860682030941723)) in
        SFldexp prec emax
          (horner [1; 1; 1#2; 1#6; 1#24; 1#120; 1#720; 1#5040]%Q r) k
  end.

(** [x = m * 2^e] with [m] in [[sqrt 1/2, sqrt 2)], then
    [e * ln 2 + 2 * atanh ((m - 1) / (m + 1))] *)
Definition log (x : t) : t :=
  match x with
  | S754_nan => S754_nan
  | S754_zero _ => S754_infinity true
  | S754_infinity s => if s then S754_nan else x
  | S754_finite true _ _ => S754_nan
  | S754_finite false _ _ =>
      let '(m, e) := SFfrexp prec emax x in
      let '(m, e) := if SFltb m (of_Q 0.70710678)
                     then (SFmul prec emax m (of_Z 2), e - 1)
                     else (m, e) in
      let s := SFdiv prec emax (SFsub prec emax m one) (SFadd prec emax m one) in
      let p := horner [1; 1#3; 1#5; 1#7; 1#9; 1#11]%Q (SFmul prec emax s s) in
      SFadd prec emax (SFmul prec emax (of_Z e) (of_Q 0.6931471805599453))
                      (SFmul prec emax (of_Z 2) (SFmul prec emax s p))
  end.

(** [1 - 2 / (exp (2 x) + 1)] *)
Definition tanh (x : t) : t :=
  SFsub prec emax one
    (SFdiv prec emax (of_Z 2)
       (SFadd prec emax (exp (SFmul prec emax (of_Z 2) x)) one)).

(** Repeated multiplication; the reciprocal for a negative exponent *)
Definition pow (x : t) (n : Z) : t :=
  if 0 <=? n then Z.iter n (SFmul prec emax x) one
  else SFdiv prec emax one (Z.iter (- n) (SFmul prec emax x) one).
End B32.

#[global] Instance B32_arith : Arith B32.t := {|
  flit := B32.of_Q;
  of_int := B32.of_Z;
  fadd := SFadd B32.prec B32.emax;
  fsub := SFsub B32.prec B32.emax;
  fmul := SFmul B32.prec B32.emax;
  fdiv := SFdiv B32.prec B32.emax;
  fneg := SFopp;
  fltb := SFltb;
  fleb := SFleb;
  fsqrt := SFsqrt B32.prec B32.emax;
|}.

#[global] Instance B32_libm : Libm B32.t := {|
  fexp := B32.exp;
  flog := B32.log;
  ftanh := B32.tanh;
  fpow := B32.pow;
|}.

(** ** [std::vector] access *)

Section Vector.
Context {A : Type}.

Definition vget (v : list A) (i : Z) : result A :=
  if i <? 0 then Fault OutOfBounds
  else match v !! Z.to_nat i with
       | Some x => Ok x
       | None => Fault OutOfBounds
       end.

Definition vset (v : list A) (i : Z) (x : A) : result (list A) :=
  if (0 <=? i) && (i <? Z.of_nat (length v))
  then Ok (<[Z.to_nat i := x]> v)
  else Fault OutOfBounds.

(** [v.resize(n, x)] *)
Definition vresize (n : nat) (x : A) (v : list A) : list A :=
  take n v ++ replicate (n - length v) x.

Definition vempty (v : list A) : bool :=
  match v with [] => true | _ => false end.
End Vector.

(** ** core/tensor.h *)

Section TensorDefs.
Context {F : Type} `{Arith F}.

Record Tensor : Type := mkTensor {
  rows : Z;
  cols : Z;
  data : list F;
}.

(** [Tensor()], [Tensor(r, c)] and [Tensor(size)] *)
Definition Tensor_default : Tensor := mkTensor 0 0 [].
Definition Tensor_new (r c : Z) : Tensor :=
  mkTensor r c (replicate (Z.to_nat (r * c)) f0).
Definition Tensor_vec (size : Z) : Tensor :=
  mkTensor 1 size (replicate (Z.to_nat size) f0).

(** [A(r, c)] as an rvalue and as the target of an assignment *)
Definition at_ (A : Tensor) (r c : Z) : result F :=
  vget (data A) (r * cols A + c).
Definition put (A : Tensor) (r c : Z) (x : F) : result Tensor :=
  d ← vset (data A) (r * cols A + c) x;
  Ok (mkTensor (rows A) (cols A) d).

(** [A[i]] *)
Definition Tensor_index (A : Tensor) (i : Z) : result F :=
  assert ((rows A =? 1) && (i <? cols A));;
  vget (data A) i.

Definition Tensor_size (A : Tensor) : Z :=
  if rows A =? 1 then cols A else rows A * cols A.

Definition matmul (A B : Tensor) : result Tensor :=
  assert (cols A =? rows B);;
  for_int 0 (rows A) (λ i C,
    for_int 0 (cols B) (λ j C,
      sum ← for_int 0 (cols A) (λ k sum,
               a ← at_ A i k;
               b ← at_ B k j;
               Ok (fadd sum (fmul a b))) f0;
      put C i j sum) C)
    (Tensor_new (rows A) (cols B)).

Definition add_bias (A : Tensor) (b : list F) : result Tensor :=
  assert (cols A =? Z.of_nat (length b));;
  for_int 0 (rows A) (λ i T,
    for_int 0 (cols A) (λ j T,
      a ← at_ T i j;
      bj ← vget b j;
      put T i j (fadd a bj)) T) A.

Definition transpose (A : Tensor) : result Tensor :=
  for_int 0 (rows A) (λ i T,
    for_int 0 (cols A) (λ j T,
      a ← at_ A i j;
      put T j i a) T)
    (Tensor_new (cols A) (rows A)).

(** The scan keeps the pair [(max_idx, max_val)]. *)
Definition argmax (A : Tensor) : result Z :=
  max_val ← at_ A 0 0;
  best ←
    for_int 0 (rows A) (λ i best,
      for_int 0 (cols A) (λ j best,
        a ← at_ A i j;
        Ok (if fltb best.2 a then (i * cols A + j, a) else best)) best)
      (0, max_val);
  let max_idx := best.1 in
  if rows A =? 1 then Ok max_idx
  else if cols A =? 0 then Fault DivisionByZero
  else Ok (Z.rem max_idx (cols A)).
End TensorDefs.
Arguments Tensor F : clear implicits.

(** ** core/activations.h *)

Inductive ActivationType : Set :=
  | STEP | LINEAR | RELU | LEAKY_RELU | PRELU | SIGMOID
  | TANH | ELU | SELU | GELU | SWISH | SOFTMAX.

#[global] Instance ActivationType_eq_dec : EqDecision ActivationType.
Proof. solve_decision. Defined.

(** [M_PI], as the header defines it when the platform does not *)
Definition M_PI : Q := 3.14159265358979323846.

Module Activation.
Section Defs.
Context {F : Type} `{Arith F} `{Libm F}.

Record t : Type := mk {
  type : ActivationType;
  alpha : F;
  beta : F;
  input_cache : Tensor F;
  output_cache : Tensor F;
}.

(** [Activation(t, alpha_ = 0.01f, beta_ = 1.0f)] *)
Definition make (ty : ActivationType) (alpha_ beta_ : F) : t :=
  mk ty alpha_ beta_ Tensor_default Tensor_default.
Definition make_default (ty : ActivationType) : t :=
  make ty (flit 0.01) (flit 1.0).

(** In the GELU case the C++ expression contains the [double] constant
    [M_PI] and [std::pow(x, 3)], so the program evaluates it in [double]
    and rounds once on return; here every operation is an operation of
    [F].  The two agree in exact arithmetic and differ by rounding in
    binary32.  The same holds for the GELU case of [derivative]. *)
Definition activate (a : t) (x : F) : F :=
  match type a with
  | STEP => if fltb f0 x then f1 else f0
  | LINEAR => x
  | RELU => fmax f0 x
  | LEAKY_RELU => if fltb f0 x then x else fmul (alpha a) x
  | PRELU => if fltb f0 x then x else fmul (alpha a) x
  | SIGMOID => fdiv f1 (fadd f1 (fexp (fneg x)))
  | TANH => ftanh x
  | ELU => if fleb f0 x then x else fmul (alpha a) (fsub (fexp x) f1)
  | SELU =>
      let lambda := flit 1.050700987 in
      let alpha_selu := flit 1.673263242 in
      fmul lambda (if fltb f0 x then x
                   else fmul alpha_selu (fsub (fexp x) f1))
  | GELU =>
      fmul (fmul (flit 0.5) x)
        (fadd f1 (ftanh
          (fmul (fsqrt (fdiv (flit 2.0) (flit M_PI)))
                (fadd x (fmul (flit 0.044715) (fpow x 3))))))
  | SWISH => fdiv x (fadd f1 (fexp (fmul (fneg (beta a)) x)))
  | SOFTMAX => x
  end.

Definition derivative (a : t) (x y : F) : F :=
  match type a with
  | STEP => f0
  | LINEAR => f1
  | RELU => if fltb f0 x then f1 else f0
  | LEAKY_RELU | PRELU => if fltb f0 x then f1 else alpha a
  | SIGMOID => fmul y (fsub f1 y)
  | TANH => fsub f1 (fmul y y)
  | ELU => if fleb f0 x then f1 else fmul (alpha a) (fexp x)
  | SELU =>
      if fltb f0 x then flit 1.050700987
      else fmul (fmul (flit 1.050700987) (flit 1.673263242)) (fexp x)
  | GELU =>
      fmul (flit 0.5)
        (fadd f1 (ftanh
          (fmul (fsqrt (fdiv (flit 2.0) (flit M_PI)))
                (fadd x (fmul (flit 0.044715) (fpow x 3))))))
  | SWISH =>
      let sig := fdiv f1 (fadd f1 (fexp (fmul (fneg (beta a)) x))) in
      fadd sig (fmul (fmul (fmul (beta a) x) sig) (fsub f1 sig))
  | SOFTMAX => f1
  end.

(** Row-wise softmax, in place *)
Definition softmax (X : Tensor F) : result (Tensor F) :=
  for_int 0 (rows X) (λ i T,
    max_val ← at_ T i 0;
    max_val ← for_int 1 (cols X) (λ j max_val,
                 x ← at_ T i j;
                 Ok (fmax max_val x)) max_val;
    '(T, sum) ← for_int 0 (cols X) (λ j '(T, sum),
                 x ← at_ T i j;
                 T ← put T i j (fexp (fsub x max_val));
                 e ← at_ T i j;
                 Ok (T, fadd sum e)) (T, f0);
    for_int 0 (cols X) (λ j T,
      x ← at_ T i j;
      put T i j (fdiv x sum)) T) X.

Definition forward (a : t) (X : Tensor F) : result (t * Tensor F) :=
  let a := mk (type a) (alpha a) (beta a) X (output_cache a) in
  Y ← for_int 0 (rows X) (λ i Y,
        for_int 0 (cols X) (λ j Y,
          x ← at_ X i j;
          put Y i j (activate a x)) Y)
        (Tensor_new (rows X) (cols X));
  Y ← (if decide (type a = SOFTMAX) then softmax Y else Ok Y);
  Ok (mk (type a) (alpha a) (beta a) (input_cache a) Y, Y).

Definition backward (a : t) (dOut : Tensor F) : result (Tensor F) :=
  assert (rows dOut =? rows (output_cache a));;
  assert (cols dOut =? cols (output_cache a));;
  let dX := Tensor_new (rows dOut) (cols dOut) in
  if decide (type a = SOFTMAX) then Ok dOut
  else
    for_int 0 (rows dOut) (λ i dX,
      for_int 0 (cols dOut) (λ j dX,
        x ← at_ (input_cache a) i j;
        y ← at_ (output_cache a) i j;
        let grad := derivative a x y in
        d ← at_ dOut i j;
        put dX i j (fmul d grad)) dX) dX.
End Defs.
Arguments t F : clear implicits.
End Activation.

(** ** core/optimizers.h *)

(** The address of a parameter object, the key of the optimizers' maps *)
Definition loc : Set := positive.

Definition INT_MAX : Z := 2147483647.

(** [struct Parameter] *)
Module Param.
Record t (F : Type) : Type := mk {
  data : list F;
  grad : list F;
}.
Arguments mk {F} data grad.
Arguments data {F} _.
Arguments grad {F} _.
Definition empty {F} : t F := mk [] [].
End Param.

Module SGDOptimizer.
Section Defs.
Context {F : Type} `{Arith F}.

Record t : Type := mk {
  lr : F;
  momentum : F;
  velocity : gmap loc (list F);
}.

(** [SGDOptimizer(learning_rate)] and
    [SGDOptimizer(learning_rate, momentum_factor)] *)
Definition make (learning_rate : F) : t := mk learning_rate f0 ∅.
Definition make_momentum (learning_rate momentum_factor : F) : t :=
  mk learning_rate momentum_factor ∅.

Definition step (o : t) (p : loc) (param : Param.t F)
    : result (t * Param.t F) :=
  let n := Z.of_nat (length (Param.data param)) in
  if fltb f0 (momentum o) then
    let v := default [] (velocity o !! p) in
    let v := if vempty v then vresize (length (Param.data param)) f0 v
             else v in
    '(v, d) ← for_int 0 n (λ i '(v, d),
                vi ← vget v i;
                gi ← vget (Param.grad param) i;
                v ← vset v i (fsub (fmul (momentum o) vi) (fmul (lr o) gi));
                di ← vget d i;
                vi ← vget v i;
                d ← vset d i (fadd di vi);
                Ok (v, d)) (v, Param.data param);
    Ok (mk (lr o) (momentum o) (<[p := v]> (velocity o)),
        Param.mk d (Param.grad param))
  else
    d ← for_int 0 n (λ i d,
          di ← vget d i;
          gi ← vget (Param.grad param) i;
          vset d i (fsub di (fmul (lr o) gi))) (Param.data param);
    Ok (o, Param.mk d (Param.grad param)).
End Defs.
Arguments t F : clear implicits.
End SGDOptimizer.

Module RMSPropOptimizer.
Section Defs.
Context {F : Type} `{Arith F}.

Record t : Type := mk {
  lr : F;
  beta : F;
  eps : F;
  cache : gmap loc (list F);
}.

(** [RMSPropOptimizer(learning_rate, beta = 0.9f, epsilon = 1e-8f)] *)
Definition make (learning_rate beta_ epsilon : F) : t :=
  mk learning_rate beta_ epsilon ∅.
Definition make_default (learning_rate : F) : t :=
  make learning_rate (flit 0.9) (flit 1e-8).

Definition step (o : t) (p : loc) (param : Param.t F)
    : result (t * Param.t F) :=
  let n := Z.of_nat (length (Param.data param)) in
  let v := default [] (cache o !! p) in
  let v := if vempty v then vresize (length (Param.data param)) f0 v
           else v in
  '(v, d) ← for_int 0 n (λ i '(v, d),
              vi ← vget v i;
              gi ← vget (Param.grad param) i;
              v ← vset v i (fadd (fmul (beta o) vi)
                                 (fmul (fmul (fsub f1 (beta o)) gi) gi));
              di ← vget d i;
              vi ← vget v i;
              d ← vset d i (fsub di (fdiv (fmul (lr o) gi)
                                          (fadd (fsqrt vi) (eps o))));
              Ok (v, d)) (v, Param.data param);
  Ok (mk (lr o) (beta o) (eps o) (<[p := v]> (cache o)),
      Param.mk d (Param.grad param)).
End Defs.
Arguments t F : clear implicits.
End RMSPropOptimizer.

Module AdamOptimizer.
Section Defs.
Context {F : Type} `{Arith F} `{Libm F}.

Record t : Type := mk {
  lr : F;
  beta1 : F;
  beta2 : F;
  eps : F;
  timestep : Z;
  m : gmap loc (list F);
  v : gmap loc (list F);
}.

(** [AdamOptimizer(learning_rate, beta1 = 0.9f, beta2 = 0.999f,
    epsilon = 1e-8f)] *)
Definition make (learning_rate beta1_ beta2_ epsilon : F) : t :=
  mk learning_rate beta1_ beta2_ epsilon 0 ∅ ∅.
Definition make_default (learning_rate : F) : t :=
  make learning_rate (flit 0.9) (flit 0.999) (flit 1e-8).

(** The bias-corrected moments and the update of one entry at step [ts].
    [std::pow(beta, timestep)] returns a [double], so the program computes
    the difference and the quotient in [double] and rounds once on the
    assignment to [float]; here every operation is an operation of [F].
    The two agree in exact arithmetic and differ by rounding in
    binary32. *)
Definition m_hat (o : t) (ts : Z) (mi : F) : F :=
  fdiv mi (fsub f1 (fpow (beta1 o) ts)).
Definition v_hat (o : t) (ts : Z) (vi : F) : F :=
  fdiv vi (fsub f1 (fpow (beta2 o) ts)).

Definition step (o : t) (p : loc) (param : Param.t F)
    : result (t * Param.t F) :=
  let n := Z.of_nat (length (Param.data param)) in
  ts ← (if timestep o <? INT_MAX then Ok (timestep o + 1)
        else Fault IntOverflow);
  let m_vec := default [] (m o !! p) in
  let v_vec := default [] (v o !! p) in
  let '(m_vec, v_vec) :=
    if vempty m_vec
    then (vresize (length (Param.data param)) f0 m_vec,
          vresize (length (Param.data param)) f0 v_vec)
    else (m_vec, v_vec) in
  '(m_vec, v_vec, d) ← for_int 0 n (λ i '(m_vec, v_vec, d),
      mi ← vget m_vec i;
      gi ← vget (Param.grad param) i;
      m_vec ← vset m_vec i (fadd (fmul (beta1 o) mi)
                                 (fmul (fsub f1 (beta1 o)) gi));
      vi ← vget v_vec i;
      v_vec ← vset v_vec i (fadd (fmul (beta2 o) vi)
                                 (fmul (fmul (fsub f1 (beta2 o)) gi) gi));
      mi ← vget m_vec i;
      vi ← vget v_vec i;
      di ← vget d i;
      d ← vset d i (fsub di (fdiv (fmul (lr o) (m_hat o ts mi))
                                  (fadd (fsqrt (v_hat o ts vi)) (eps o))));
      Ok (m_vec, v_vec, d)) (m_vec, v_vec, Param.data param);
  Ok (mk (lr o) (beta1 o) (beta2 o) (eps o) ts
         (<[p := m_vec]> (m o)) (<[p := v_vec]> (v o)),
      Param.mk d (Param.grad param)).
End Defs.
Arguments t F : clear implicits.
End AdamOptimizer.

(** The abstract base class [Optimizer] and its virtual [step] *)
Inductive Optimizer (F : Type) : Type :=
  | OptSGD (o : SGDOptimizer.t F)
  | OptRMSProp (o : RMSPropOptimizer.t F)
  | OptAdam (o : AdamOptimizer.t F).
Arguments OptSGD {F} o.
Arguments OptRMSProp {F} o.
Arguments OptAdam {F} o.

Definition Optimizer_step {F} `{Arith F} `{Libm F}
    (o : Optimizer F) (p : loc) (param : Param.t F)
    : result (Optimizer F * Param.t F) :=
  match o with
  | OptSGD o => '(o, q) ← SGDOptimizer.step o p param; Ok (OptSGD o, q)
  | OptRMSProp o => '(o, q) ← RMSPropOptimizer.step o p param; Ok (OptRMSProp o, q)
  | OptAdam o => '(o, q) ← AdamOptimizer.step o p param; Ok (OptAdam o, q)
  end.

(** ** core/dense_layer.h *)

Module DenseLayer.
Section Defs.
Context {F : Type} `{Arith F} `{Libm F}.

Record t : Type := mk {
  W : Tensor F;
  b : list F;
  grad_W : Tensor F;
  grad_b : list F;
  W_param : Param.t F;
  b_param : Param.t F;
  input_cache : Tensor F;
  activation : Activation.t F;
}.

(** [DenseLayer(input_dim, output_dim, act_type)] *)
Definition make (input_dim output_dim : Z) (act_type : ActivationType) : t :=
  let W0 := Tensor_new input_dim output_dim in
  let b0 := replicate (Z.to_nat output_dim) f0 in
  let gW0 := Tensor_new input_dim output_dim in
  let gb0 := replicate (Z.to_nat output_dim) f0 in
  mk W0 b0 gW0 gb0 (Param.mk (data W0) (data gW0)) (Param.mk b0 gb0)
     Tensor_default (Activation.make_default act_type).

Definition sync_gradients (L : t) : t :=
  mk (W L) (b L) (grad_W L) (grad_b L)
     (Param.mk (Param.data (W_param L)) (data (grad_W L)))
     (Param.mk (Param.data (b_param L)) (grad_b L))
     (input_cache L) (activation L).

Definition sync_weights (L : t) : t :=
  mk (mkTensor (rows (W L)) (cols (W L)) (Param.data (W_param L)))
     (Param.data (b_param L))
     (grad_W L) (grad_b L) (W_param L) (b_param L)
     (input_cache L) (activation L).

Definition forward (L : t) (X : Tensor F) : result (t * Tensor F) :=
  assert (cols X =? rows (W L));;
  out ← matmul X (W L);
  out ← add_bias out (b L);
  '(act, Y) ← Activation.forward (activation L) out;
  Ok (mk (W L) (b L) (grad_W L) (grad_b L) (W_param L) (b_param L) X act, Y).

(** The bias gradient: [std::fill] with zero, then the column sums *)
Definition bias_sums (gb : list F) (dA : Tensor F) : result (list F) :=
  for_int 0 (rows dA) (λ i gb,
    for_int 0 (cols dA) (λ j gb,
      g ← vget gb j;
      d ← at_ dA i j;
      vset gb j (fadd g d)) gb)
    (replicate (length gb) f0).

Definition backward (L : t) (dOut : Tensor F) : result (t * Tensor F) :=
  assert (cols dOut =? cols (W L));;
  assert (rows dOut =? rows (input_cache L));;
  dOut_activated ← Activation.backward (activation L) dOut;
  X_T ← transpose (input_cache L);
  gW ← matmul X_T dOut_activated;
  gb ← bias_sums (grad_b L) dOut_activated;
  let L := sync_gradients
             (mk (W L) (b L) gW gb (W_param L) (b_param L)
                 (input_cache L) (activation L)) in
  W_T ← transpose (W L);
  dX ← matmul dOut_activated W_T;
  Ok (L, dX).
End Defs.
Arguments t F : clear implicits.
End DenseLayer.

(** ** core/loss_functions.h *)

Inductive LossType : Set :=
  | MEAN_SQUARED_ERROR
  | BINARY_CROSS_ENTROPY
  | CATEGORICAL_CROSS_ENTROPY
  | SPARSE_CATEGORICAL_CROSS_ENTROPY.

#[global] Instance LossType_eq_dec : EqDecision LossType.
Proof. solve_decision. Defined.

(** [*p] for a pointer that may be null *)
Definition deref {A} (p : option A) : result A :=
  match p with Some x => Ok x | None => Fault NullDereference end.

Module Loss.
Section Defs.
Context {F : Type} `{Arith F} `{Libm F}.

Record t : Type := mk {
  type : LossType;
  num_classes : Z;
  eps : F;
}.

(** [Loss(t, classes = 0, epsilon = 1e-7f)] *)
Definition make (ty : LossType) (classes : Z) (epsilon : F) : t :=
  mk ty classes epsilon.
Definition make_default (ty : LossType) : t := make ty 0 (flit 1e-7).

Definition mse (l : t) (y_pred y_true : Tensor F) : result F :=
  loss ← for_int 0 (rows y_pred) (λ i loss,
            for_int 0 (cols y_pred) (λ j loss,
              p ← at_ y_pred i j;
              y ← at_ y_true i j;
              Ok (fadd loss (fpow (fsub p y) 2))) loss) f0;
  Ok (fdiv loss (of_int (rows y_pred * cols y_pred))).

Definition mse_backward (l : t) (y_pred y_true : Tensor F)
    : result (Tensor F) :=
  let grad := Tensor_new (rows y_pred) (cols y_pred) in
  let scale := fdiv (flit 2.0) (of_int (rows y_pred * cols y_pred)) in
  for_int 0 (rows grad) (λ i g,
    for_int 0 (cols grad) (λ j g,
      p ← at_ y_pred i j;
      y ← at_ y_true i j;
      put g i j (fmul scale (fsub p y))) g) grad.

Definition binary_cross_entropy (l : t) (y_pred y_true : Tensor F)
    : result F :=
  loss ← for_int 0 (rows y_pred) (λ i loss,
            q ← at_ y_pred i 0;
            let p := fclamp q (eps l) (fsub f1 (eps l)) in
            y ← at_ y_true i 0;
            Ok (fadd loss
                 (fneg (fadd (fmul y (flog p))
                             (fmul (fsub f1 y) (flog (fsub f1 p))))))) f0;
  Ok (fdiv loss (of_int (rows y_pred))).

Definition binary_cross_entropy_backward (l : t) (y_pred y_true : Tensor F)
    : result (Tensor F) :=
  let grad := Tensor_new (rows y_pred) 1 in
  for_int 0 (rows y_pred) (λ i g,
    q ← at_ y_pred i 0;
    let p := fclamp q (eps l) (fsub f1 (eps l)) in
    y ← at_ y_true i 0;
    put g i 0 (fdiv (fsub p y) (fmul p (fsub f1 p)))) grad.

Definition categorical_cross_entropy (l : t) (y_pred y_true : Tensor F)
    : result F :=
  loss ← for_int 0 (rows y_pred) (λ i loss,
            for_int 0 (cols y_pred) (λ j loss,
              y ← at_ y_true i j;
              if fltb f0 y then
                p ← at_ y_pred i j;
                Ok (fadd loss (fneg (flog (fmax p (eps l)))))
              else Ok loss) loss) f0;
  Ok (fdiv loss (of_int (rows y_pred))).

Definition categorical_cross_entropy_backward (l : t)
    (y_pred y_true : Tensor F) : result (Tensor F) :=
  let grad := Tensor_new (rows y_pred) (cols y_pred) in
  for_int 0 (rows grad) (λ i g,
    for_int 0 (cols grad) (λ j g,
      p ← at_ y_pred i j;
      y ← at_ y_true i j;
      put g i j (fdiv (fsub p y) (of_int (rows y_pred)))) g) grad.

Definition sparse_categorical_cross_entropy (l : t)
    (y_pred : Tensor F) (y_true : list Z) : result F :=
  loss ← for_int 0 (rows y_pred) (λ i loss,
            c ← vget y_true i;
            q ← at_ y_pred i c;
            let p := fmax q (eps l) in
            Ok (fadd loss (fneg (flog p)))) f0;
  Ok (fdiv loss (of_int (rows y_pred))).

Definition sparse_categorical_cross_entropy_backward (l : t)
    (y_pred : Tensor F) (y_true : list Z) : result (Tensor F) :=
  let grad := Tensor_new (rows y_pred) (cols y_pred) in
  grad ← for_int 0 (rows y_pred) (λ i g,
            g ← for_int 0 (cols y_pred) (λ j g,
                   p ← at_ y_pred i j;
                   put g i j p) g;
            c ← vget y_true i;
            x ← at_ g i c;
            put g i c (fsub x f1)) grad;
  let inv_batch := fdiv f1 (of_int (rows y_pred)) in
  Ok (mkTensor (rows grad) (cols grad)
               (map (λ v, fmul v inv_batch) (data grad))).

Definition forward (l : t) (y_pred : Tensor F) (y_true_sparse : list Z)
    (y_true_dense : option (Tensor F)) : result F :=
  match type l with
  | MEAN_SQUARED_ERROR =>
      y ← deref y_true_dense; mse l y_pred y
  | BINARY_CROSS_ENTROPY =>
      y ← deref y_true_dense; binary_cross_entropy l y_pred y
  | CATEGORICAL_CROSS_ENTROPY =>
      y ← deref y_true_dense; categorical_cross_entropy l y_pred y
  | SPARSE_CATEGORICAL_CROSS_ENTROPY =>
      sparse_categorical_cross_entropy l y_pred y_true_sparse
  end.

Definition backward (l : t) (y_pred : Tensor F) (y_true_sparse : list Z)
    (y_true_dense : option (Tensor F)) : result (Tensor F) :=
  match type l with
  | MEAN_SQUARED_ERROR =>
      y ← deref y_true_dense; mse_backward l y_pred y
  | BINARY_CROSS_ENTROPY =>
      y ← deref y_true_dense; binary_cross_entropy_backward l y_pred y
  | CATEGORICAL_CROSS_ENTROPY =>
      y ← deref y_true_dense; categorical_cross_entropy_backward l y_pred y
  | SPARSE_CATEGORICAL_CROSS_ENTROPY =>
      sparse_categorical_cross_entropy_backward l y_pred y_true_sparse
  end.
End Defs.
Arguments t F : clear implicits.
End Loss.

(** ** core/model.h *)

Module Model.
(** The layers live outside the model, which holds their addresses. *)
Abbreviation heap F := (gmap loc (DenseLayer.t F)).

Section Defs.
Context {F : Type} `{Arith F} `{Libm F}.

Record t : Type := mk {
  layers : list loc;
  loss_fn : option (Loss.t F);
  optimizer : option (Optimizer F);
}.

(** What [fit] prints for an epoch, and what [evaluate] prints *)
Record epoch_report : Type := mkReport {
  epoch_number : Z;
  mean_loss : F;
  accuracy : F;
}.

Definition empty : t := mk [] None None.

Definition add (m : t) (layer : loc) : t :=
  mk (layers m ++ [layer]) (loss_fn m) (optimizer m).

Definition compile (m : t) (loss : Loss.t F) (opt : Optimizer F) : t :=
  mk (layers m) (Some loss) (Some opt).

(** [layer->...] for a layer pointer *)
Definition layer_at (h : heap F) (l : loc) : result (DenseLayer.t F) :=
  match h !! l with Some L => Ok L | None => Fault DanglingPointer end.

Definition forward_internal (m : t) (h : heap F) (input : Tensor F)
    : result (heap F * Tensor F) :=
  for_each (layers m) (λ l '(h, x),
    L ← layer_at h l;
    '(L, x) ← DenseLayer.forward L x;
    Ok (<[l := L]> h, x)) (h, input).

Definition backward_internal (m : t) (h : heap F) (grad_output : Tensor F)
    : result (heap F) :=
  '(h, _) ← for_each (reverse (layers m)) (λ l '(h, grad),
              L ← layer_at h l;
              '(L, grad) ← DenseLayer.backward L grad;
              Ok (<[l := L]> h, grad)) (h, grad_output);
  Ok h.

(** The placeholder update hook: its body is empty. *)
Definition optimizer_step (m : t) (h : heap F) : heap F := h.

Definition fit (m : t) (h : heap F) (X : list (Tensor F)) (y : list Z)
    (epochs batch_size : Z) : result (heap F * list epoch_report) :=
  assert (bool_decide (is_Some (loss_fn m))
          && bool_decide (is_Some (optimizer m)));;
  for_int 0 epochs (λ epoch '(h, out),
    '(h, epoch_loss, correct) ←
      for_int 0 (Z.of_nat (length X)) (λ i '(h, epoch_loss, correct),
        Xi ← vget X i;
        '(h, output) ← forward_internal m h Xi;
        yi ← vget y i;
        let y_vec := [yi] in
        lf ← deref (loss_fn m);
        loss ← Loss.forward lf output y_vec None;
        let epoch_loss := fadd epoch_loss loss in
        am ← argmax output;
        let correct := if am =? yi then correct + 1 else correct in
        grad ← Loss.backward lf output y_vec None;
        h ← backward_internal m h grad;
        let h := optimizer_step m h in
        Ok (h, epoch_loss, correct)) (h, f0, 0);
    let n := of_int (Z.of_nat (length X)) in
    Ok (h, out ++ [mkReport (epoch + 1) (fdiv epoch_loss n)
                            (fdiv (of_int correct) n)])) (h, []).

(** [evaluate] returns the accuracy and prints the mean loss and the
    accuracy; the report carries both, under the epoch number 0. *)
Definition evaluate (m : t) (h : heap F) (X : list (Tensor F)) (y : list Z)
    : result (heap F * epoch_report) :=
  assert (bool_decide (is_Some (loss_fn m)));;
  '(h, total_loss, correct) ←
    for_int 0 (Z.of_nat (length X)) (λ i '(h, total_loss, correct),
      Xi ← vget X i;
      '(h, output) ← forward_internal m h Xi;
      yi ← vget y i;
      let y_vec := [yi] in
      lf ← deref (loss_fn m);
      loss ← Loss.forward lf output y_vec None;
      let total_loss := fadd total_loss loss in
      am ← argmax output;
      let correct := if am =? yi then correct + 1 else correct in
      Ok (h, total_loss, correct)) (h, f0, 0);
  let n := of_int (Z.of_nat (length X)) in
  let accuracy := fdiv (of_int correct) n in
  Ok (h, mkReport 0 (fdiv total_loss n) accuracy).

Definition predict (m : t) (h : heap F) (input : Tensor F)
    : result (heap F * Tensor F) :=
  forward_internal m h input.
End Defs.
Arguments t F : clear implicits.
Arguments epoch_report F : clear implicits.
End Model.


(** * Specification vocabulary *)

Section TensorSpec.
Context {F : Type} `{Arith F}.

(** The buffer of a tensor has [rows * cols] entries. *)
Definition wf (A : Tensor F) : Prop :=
  0 ≤ rows A ∧ 0 ≤ cols A ∧ length (data A) = Z.to_nat (rows A * cols A).

Definition same_shape (A B : Tensor F) : Prop :=
  rows A = rows B ∧ cols A = cols B ∧ length (data A) = length (data B).

Definition in_range (A : Tensor F) (r c : Z) : Prop :=
  0 ≤ r < rows A ∧ 0 ≤ c < cols A.

(** The entry at row [r] and column [c] of a well-formed tensor *)
Definition ent (A : Tensor F) (r c : Z) : F :=
  default f0 (data A !! Z.to_nat (r * cols A + c)).

(** [((0 + f lo) + f (lo+1)) + ...], the order in which the loops of the
    program accumulate *)
Fixpoint fsum_from (n : nat) (lo : Z) (f : Z → F) (acc : F) : F :=
  match n with
  | O => acc
  | S n' => fsum_from n' (lo + 1) f (fadd acc (f lo))
  end.
Definition fsum (n : Z) (f : Z → F) : F := fsum_from (Z.to_nat n) 0 f f0.

(** [max] over [f lo .. f (lo+n-1)], starting from [acc] *)
Fixpoint fmax_from (n : nat) (lo : Z) (f : Z → F) (acc : F) : F :=
  match n with
  | O => acc
  | S n' => fmax_from n' (lo + 1) f (fmax acc (f lo))
  end.

(** The entry of a matrix product, accumulated left to right from zero *)
Definition dot (A B : Tensor F) (i j : Z) : F :=
  fsum (cols A) (λ k, fmul (ent A i k) (ent B k j)).

(** The sum of column [j] over all rows, accumulated from zero *)
Definition col_sum (A : Tensor F) (j : Z) : F :=
  fsum (rows A) (λ i, ent A i j).
End TensorSpec.

Section SoftmaxSpec.
Context {F : Type} `{Arith F} `{Libm F}.

(** The maximum of row [i], scanned left to right as [softmax] does *)
Definition row_max (X : Tensor F) (i : Z) : F :=
  fmax_from (Z.to_nat (cols X - 1)) 1 (λ j, ent X i j) (ent X i 0).

(** The exponential of an entry, shifted by the maximum of its row *)
Definition shifted_exp (X : Tensor F) (i j : Z) : F :=
  fexp (fsub (ent X i j) (row_max X i)).

Definition row_expsum (X : Tensor F) (i : Z) : F :=
  fsum (cols X) (shifted_exp X i).

Definition softmax_entry (X : Tensor F) (i j : Z) : F :=
  fdiv (shifted_exp X i j) (row_expsum X i).
End SoftmaxSpec.

(** The accumulator an optimizer keeps for the parameter at address [p]:
    zero-initialized, with the length [n] of the parameter, when the
    parameter has not been met (or its accumulator is empty) *)
Definition slot {F} `{Arith F} (m : gmap loc (list F)) (p : loc) (n : nat)
    : list F :=
  match m !! p with
  | Some (x :: xs) => x :: xs
  | _ => replicate n f0
  end.

(** The accumulator kept for [p] has the length of the parameter: always so
    on first use, and afterwards as long as the parameter is not resized. *)
Definition sized {F} `{Arith F} (m : gmap loc (list F)) (p : loc) (n : nat)
    : Prop :=
  length (slot m p n) = n.

(** The two moment tables of the adaptive optimizer agree on [p]: both
    have no entry for it, or both hold a vector of the parameter's length. *)
Definition moments_ok {F} (o : AdamOptimizer.t F) (p : loc) (n : nat) : Prop :=
  (AdamOptimizer.m o !! p = None ∧ AdamOptimizer.v o !! p = None) ∨
  (∃ mv vv, AdamOptimizer.m o !! p = Some mv ∧ AdamOptimizer.v o !! p = Some vv ∧
            length mv = n ∧ length vv = n).

(** A sequence of [step] calls on one optimizer instance, one call per
    listed parameter *)
Definition Adam_steps {F} `{Arith F} `{Libm F} (o : AdamOptimizer.t F)
    (ps : list (loc * Param.t F))
    : result (AdamOptimizer.t F * list (Param.t F)) :=
  for_each ps (λ '(p, param) '(o, done),
    '(o, q) ← AdamOptimizer.step o p param;
    Ok (o, done ++ [q])) (o, []).


(** One label per row, each a valid column index *)
Definition valid_labels {F} (pred : Tensor F) (ys : list Z) : Prop :=
  Z.of_nat (length ys) = rows pred ∧ Forall (λ c, 0 ≤ c < cols pred) ys.

(** The trainable values of a layer: the canonical buffers and the data
    buffers handed to the optimizer *)
Definition same_weights {F} (L L' : DenseLayer.t F) : Prop :=
  DenseLayer.W L' = DenseLayer.W L ∧
  DenseLayer.b L' = DenseLayer.b L ∧
  Param.data (DenseLayer.W_param L') = Param.data (DenseLayer.W_param L) ∧
  Param.data (DenseLayer.b_param L') = Param.data (DenseLayer.b_param L).

(** The same addresses hold layers, with the same trainable values. *)
Definition weights_kept {F} (h h' : Model.heap F) : Prop :=
  ∀ l, option_Forall2 same_weights (h !! l) (h' !! l).

Section DenseLayerSpec.
Context {F : Type} `{Arith F} `{Libm F}.

(** The layer is in the state a forward pass on a batch of the shape of
    [dOut] leaves behind. *)
Definition ready_for (L : DenseLayer.t F) (dOut : Tensor F) : Prop :=
  wf (DenseLayer.W L) ∧ wf (DenseLayer.input_cache L) ∧
  Z.of_nat (length (DenseLayer.grad_b L)) = cols (DenseLayer.W L) ∧
  cols dOut = cols (DenseLayer.W L) ∧
  rows dOut = rows (DenseLayer.input_cache L) ∧
  wf (Activation.input_cache (DenseLayer.activation L)) ∧
  wf (Activation.output_cache (DenseLayer.activation L)) ∧
  rows (Activation.input_cache (DenseLayer.activation L)) = rows dOut ∧
  cols (Activation.input_cache (DenseLayer.activation L)) = cols dOut ∧
  rows (Activation.output_cache (DenseLayer.activation L)) = rows dOut ∧
  cols (Activation.output_cache (DenseLayer.activation L)) = cols dOut.
End DenseLayerSpec.

(** A run that does not end in a null dereference *)
Definition null_free {A} (r : result A) : Prop := r ≠ Fault NullDereference.


(** * Example inputs *)

Module Examples.
(** A 2-to-2 layer with weights [[1 2] [3 4]] and bias [[0.5 0.25]] *)
Definition layer (act : ActivationType) : DenseLayer.t R :=
  DenseLayer.mk (mkTensor 2 2 [1; 2; 3; 4]%R) [0.5; 0.25]%R
    (Tensor_new 2 2) [0; 0]%R
    (Param.mk [1; 2; 3; 4]%R [0; 0; 0; 0]%R) (Param.mk [0.5; 0.25]%R [0; 0]%R)
    Tensor_default (Activation.make_default act).

Definition input : Tensor R := mkTensor 1 2 [1; 2]%R.
Definition upstream : Tensor R := mkTensor 1 2 [1; -1]%R.

(** A model of two layers at the addresses 1 and 2 *)
Definition layers : gmap loc (DenseLayer.t R) :=
  <[1%positive := layer RELU]> (<[2%positive := layer SOFTMAX]> ∅).

Definition model (kind : LossType) : Model.t R :=
  Model.compile
    (Model.add (Model.add Model.empty 1%positive) 2%positive)
    (Loss.make kind 2 (flit 1e-7))
    (OptSGD (SGDOptimizer.make (flit 0.01))).

(** binary32 tensors with small integer entries *)
Definition b32_tensor (r c : Z) (xs : list Z) : Tensor B32.t :=
  mkTensor r c (map of_int xs).
End Examples.


(** * Vocabulary of the further properties *)

(** Position [k] holds the first maximum of the buffer [d]: nothing in [d]
    is larger, and everything before [k] is strictly smaller. *)
Definition first_max (d : list R) (k : nat) : Prop :=
  ∃ x, d !! k = Some x ∧
       (∀ q y, d !! q = Some y → (y <= x)%R) ∧
       (∀ q y, (q < k)%nat → d !! q = Some y → (y < x)%R).
(** The scan of [argmax], cell [(i, j)] being the [i * cols + j]-th visited *)
Definition argmax_inv (A : Tensor R) (p : Z) (best : Z * R) : Prop :=
  0 ≤ best.1 < rows A * cols A ∧
  data A !! Z.to_nat best.1 = Some best.2 ∧
  (∀ q y, 0 ≤ q < p → data A !! Z.to_nat q = Some y → (y <= best.2)%R) ∧
  (∀ q y, 0 ≤ q < best.1 → data A !! Z.to_nat q = Some y → (y < best.2)%R).

(** Where the derivative table of [activations.h] is meant to be exact:
    every kind but GELU, away from the kink at zero for the piecewise
    kinds *)
Definition exact_derivative_at (ty : ActivationType) (x : R) : Prop :=
  match ty with
  | GELU => False
  | STEP | RELU | LEAKY_RELU | PRELU | ELU | SELU => x ≠ 0%R
  | LINEAR | SIGMOID | TANH | SWISH | SOFTMAX => True
  end.

(** Two states of a layer that differ in the caches only: the input cache
    of the layer and the two caches of its activation *)
Definition only_caches_differ {F} (L L' : DenseLayer.t F) : Prop :=
  DenseLayer.W L' = DenseLayer.W L ∧
  DenseLayer.b L' = DenseLayer.b L ∧
  DenseLayer.grad_W L' = DenseLayer.grad_W L ∧
  DenseLayer.grad_b L' = DenseLayer.grad_b L ∧
  DenseLayer.W_param L' = DenseLayer.W_param L ∧
  DenseLayer.b_param L' = DenseLayer.b_param L ∧
  Activation.type (DenseLayer.activation L') = Activation.type (DenseLayer.activation L) ∧
  Activation.alpha (DenseLayer.activation L') = Activation.alpha (DenseLayer.activation L) ∧
  Activation.beta (DenseLayer.activation L') = Activation.beta (DenseLayer.activation L).

(** The same addresses hold layers, which differ in their caches only,
    and the addresses outside [ls] hold what they held. *)
Definition caches_only {F} (ls : list loc) (h h' : Model.heap F) : Prop :=
  (∀ l, option_Forall2 only_caches_differ (h !! l) (h' !! l)) ∧
  (∀ l, l ∉ ls → h' !! l = h !! l).

(** The layers at [ls] can be run one after the other on a batch of width
    [d_in], and the last one has [d_out] units. *)
Fixpoint chain_ok {F} (h : Model.heap F) (ls : list loc) (d_in d_out : Z) : Prop :=
  match ls with
  | [] => d_out = d_in
  | l :: ls =>
      ∃ L, h !! l = Some L ∧
           wf (DenseLayer.W L) ∧
           rows (DenseLayer.W L) = d_in ∧
           Z.of_nat (length (DenseLayer.b L)) = cols (DenseLayer.W L) ∧
           (Activation.type (DenseLayer.activation L) = SOFTMAX →
            0 < cols (DenseLayer.W L)) ∧
           chain_ok h ls (cols (DenseLayer.W L)) d_out
  end.
(** The real-number C library with another function in the place of
    [exp] *)
Definition libm_with_exp (e : R → R) : Libm R := {|
  fexp := e;
  flog := ln;
  ftanh := tanh;
  fpow := powerRZ;
|}.


(** * Reasoning principles *)

(** ** The result monad *)

Lemma bind_Ok {A B} (m : result A) (f : A → result B) (b : B) :
  m ≫= f = Ok b ↔ ∃ a, m = Ok a ∧ f a = Ok b.
Proof.
  destruct m as [a|e]; simpl; split.
  - intros Hf. exists a. split; [reflexivity | exact Hf].
  - intros (a' & Ha & Hf). injection Ha as ->. exact Hf.
  - discriminate.
  - intros (a' & Ha & _). discriminate.
Qed.

Lemma bind_Ok_l {A B} (a : A) (f : A → result B) : Ok a ≫= f = f a.
Proof. reflexivity. Qed.

Lemma bind_Fault {A B} (m : result A) (f : A → result B) (e : fault) :
  m = Fault e → m ≫= f = Fault e.
Proof. intros ->. reflexivity. Qed.

Lemma assert_Ok (c : bool) (u : unit) : assert c = Ok u ↔ c = true.
Proof. destruct c, u; simpl; split; congruence. Qed.

Lemma assert_true (c : bool) : c = true → assert c = Ok tt.
Proof. intros ->. reflexivity. Qed.

(** ** Loops: total correctness with an invariant *)

Section LoopRules.
Context {S : Type}.
Implicit Types (body : Z → S → result S) (s : S).

Lemma for_loop_inv (I : Z → S → Prop) body n lo s :
  I lo s →
  (∀ i s, lo ≤ i < lo + Z.of_nat n → I i s →
          ∃ s', body i s = Ok s' ∧ I (i + 1) s') →
  ∃ s', for_loop n lo body s = Ok s' ∧ I (lo + Z.of_nat n) s'.
Proof.
  revert lo s. induction n as [|n IH]; intros lo s H0 Hstep.
  - exists s. split; [reflexivity|]. replace (lo + Z.of_nat 0) with lo by lia. exact H0.
  - destruct (Hstep lo s) as (s1 & Hb & H1); [lia | exact H0 |].
    destruct (IH (lo + 1) s1) as (s2 & Hl & H2); [exact H1 | |].
    + intros i s' Hi. apply Hstep. lia.
    + exists s2. split.
      * simpl. rewrite Hb. exact Hl.
      * replace (lo + Z.of_nat (Datatypes.S n)) with (lo + 1 + Z.of_nat n) by lia.
        exact H2.
Qed.

Lemma for_int_inv (I : Z → S → Prop) body lo hi s :
  lo ≤ hi →
  I lo s →
  (∀ i s, lo ≤ i < hi → I i s → ∃ s', body i s = Ok s' ∧ I (i + 1) s') →
  ∃ s', for_int lo hi body s = Ok s' ∧ I hi s'.
Proof.
  intros Hle H0 Hstep. unfold for_int.
  destruct (for_loop_inv I body (Z.to_nat (hi - lo)) lo s) as (s' & Hl & Hs').
  - exact H0.
  - intros i s1 Hi. apply Hstep. lia.
  - exists s'. split; [exact Hl|].
    replace hi with (lo + Z.of_nat (Z.to_nat (hi - lo))) at 1 by lia. exact Hs'.
Qed.

Lemma for_int_first body lo hi s :
  lo < hi → for_int lo hi body s = body lo s ≫= for_int (lo + 1) hi body.
Proof.
  intros Hlt. unfold for_int.
  replace (Z.to_nat (hi - lo)) with (Datatypes.S (Z.to_nat (hi - (lo + 1)))) by lia.
  reflexivity.
Qed.

(** ** Loops: a property every successful iteration keeps *)

Lemma for_loop_keeps (P : S → Prop) body n lo s s' :
  (∀ i s s', P s → body i s = Ok s' → P s') →
  P s → for_loop n lo body s = Ok s' → P s'.
Proof.
  intros Hstep. revert lo s. induction n as [|n IH]; intros lo s Hs; simpl.
  - intros [= <-]. exact Hs.
  - intros (s1 & Hb & Hl)%bind_Ok. eapply IH; [|exact Hl]. eapply Hstep; eauto.
Qed.

Lemma for_int_keeps (P : S → Prop) body lo hi s s' :
  (∀ i s s', P s → body i s = Ok s' → P s') →
  P s → for_int lo hi body s = Ok s' → P s'.
Proof. unfold for_int. apply for_loop_keeps. Qed.

Lemma for_each_keeps {A} (P : S → Prop) (body : A → S → result S) xs s s' :
  (∀ x s s', P s → body x s = Ok s' → P s') →
  P s → for_each xs body s = Ok s' → P s'.
Proof.
  intros Hstep. revert s. induction xs as [|x xs IH]; intros s Hs; simpl.
  - intros [= <-]. exact Hs.
  - intros (s1 & Hb & Hl)%bind_Ok. eapply IH; [|exact Hl]. eapply Hstep; eauto.
Qed.

(** ** Loops: the faults a loop can raise are those of its body *)

Lemma for_loop_fault (Q : fault → Prop) body n lo s e :
  (∀ i s e, body i s = Fault e → Q e) →
  for_loop n lo body s = Fault e → Q e.
Proof.
  intros Hb. revert lo s. induction n as [|n IH]; intros lo s; simpl; [discriminate|].
  destruct (body lo s) as [s1|e1] eqn:E; simpl.
  - apply IH.
  - intros [= <-]. eapply Hb, E.
Qed.

Lemma for_int_fault (Q : fault → Prop) body lo hi s e :
  (∀ i s e, body i s = Fault e → Q e) →
  for_int lo hi body s = Fault e → Q e.
Proof. unfold for_int. apply for_loop_fault. Qed.

Lemma for_each_fault {A} (Q : fault → Prop) (body : A → S → result S) xs s e :
  (∀ x s e, body x s = Fault e → Q e) →
  for_each xs body s = Fault e → Q e.
Proof.
  intros Hb. revert s. induction xs as [|x xs IH]; intros s; simpl; [discriminate|].
  destruct (body x s) as [s1|e1] eqn:E; simpl.
  - apply IH.
  - intros [= <-]. eapply Hb, E.
Qed.
End LoopRules.

(** ** Vectors *)

Section VectorFacts.
Context {A : Type}.
Implicit Types (v : list A) (i : Z) (x : A).

Lemma vget_Ok v i x :
  vget v i = Ok x ↔ 0 ≤ i ∧ v !! Z.to_nat i = Some x.
Proof.
  unfold vget. destruct (Z.ltb_spec i 0).
  - split; [discriminate | lia].
  - destruct (v !! Z.to_nat i) as [y|]; split.
    + intros [= ->]. split; [lia | reflexivity].
    + intros [_ [= ->]]. reflexivity.
    + discriminate.
    + intros [_ ?]. discriminate.
Qed.

Lemma vget_lookup v i x :
  0 ≤ i → v !! Z.to_nat i = Some x → vget v i = Ok x.
Proof. intros. apply vget_Ok. split; assumption. Qed.

Lemma vget_in_range v i :
  0 ≤ i < Z.of_nat (length v) → ∃ x, vget v i = Ok x ∧ v !! Z.to_nat i = Some x.
Proof.
  intros Hi. destruct (lookup_lt_is_Some_2 v (Z.to_nat i)) as [x Hx]; [lia|].
  exists x. split; [apply vget_lookup; [lia | exact Hx] | exact Hx].
Qed.

Lemma vset_Ok v i x v' :
  vset v i x = Ok v' ↔
  0 ≤ i < Z.of_nat (length v) ∧ v' = <[Z.to_nat i := x]> v.
Proof.
  unfold vset.
  destruct (Z.leb_spec 0 i), (Z.ltb_spec i (Z.of_nat (length v))); simpl; split;
    try discriminate; try (intros [? _]; lia).
  - intros [= <-]. split; [lia | reflexivity].
  - intros [_ ->]. reflexivity.
Qed.

Lemma vset_in_range v i x :
  0 ≤ i < Z.of_nat (length v) → vset v i x = Ok (<[Z.to_nat i := x]> v).
Proof. intros. apply vset_Ok. split; [assumption | reflexivity]. Qed.

Lemma vget_fault v i e : vget v i = Fault e → e = OutOfBounds.
Proof.
  unfold vget. destruct (i <? 0); [congruence|].
  destruct (v !! Z.to_nat i); congruence.
Qed.

Lemma vset_fault v i x e : vset v i x = Fault e → e = OutOfBounds.
Proof. unfold vset. destruct (_ && _); congruence. Qed.

Lemma vresize_length n x v : length (vresize n x v) = n.
Proof. unfold vresize. rewrite length_app, length_take, length_replicate. lia. Qed.

Lemma vresize_nil n x : vresize n x [] = replicate n x.
Proof. unfold vresize. rewrite take_nil. simpl. f_equal. lia. Qed.

Lemma vempty_true v : vempty v = true ↔ v = [].
Proof. destruct v; simpl; split; congruence. Qed.
End VectorFacts.


(** ** Tensors *)

Section TensorFacts.
Context {F : Type} `{Arith F}.
Implicit Types (A B C : Tensor F) (r c i j k : Z) (x : F).

Lemma index_in_range A r c :
  wf A → in_range A r c →
  0 ≤ r * cols A + c < Z.of_nat (length (data A)).
Proof. intros (Hr & Hc & Hl) [? ?]. rewrite Hl. nia. Qed.

Lemma index_inj (n r c r' c' : Z) :
  0 ≤ c < n → 0 ≤ c' < n → r * n + c = r' * n + c' → r = r' ∧ c = c'.
Proof. intros ? ? ?. assert (r = r') by nia. split; [assumption | nia]. Qed.

Lemma at_ent A r c : wf A → in_range A r c → at_ A r c = Ok (ent A r c).
Proof.
  intros Hwf Hin. pose proof (index_in_range A r c Hwf Hin) as Hi.
  unfold at_, ent.
  destruct (vget_in_range (data A) (r * cols A + c) Hi) as (x & -> & ->).
  reflexivity.
Qed.

Lemma at_fault A r c e : at_ A r c = Fault e → e = OutOfBounds.
Proof. apply vget_fault. Qed.

Lemma put_fault A r c x e : put A r c x = Fault e → e = OutOfBounds.
Proof.
  unfold put. destruct (vset _ _ _) as [d|e'] eqn:E; simpl; [discriminate|].
  intros [= <-]. eapply vset_fault, E.
Qed.

Lemma same_shape_refl A : same_shape A A.
Proof. repeat split. Qed.

Lemma same_shape_trans A B C : same_shape A B → same_shape B C → same_shape A C.
Proof. unfold same_shape. intuition congruence. Qed.

Lemma same_shape_wf A B : same_shape A B → wf B → wf A.
Proof. unfold same_shape, wf. intros (-> & -> & ->). trivial. Qed.

Lemma same_shape_in_range A B r c : same_shape A B → in_range B r c → in_range A r c.
Proof. unfold same_shape, in_range. intros (-> & -> & _). trivial. Qed.

Lemma put_same_shape A r c x A' : put A r c x = Ok A' → same_shape A' A.
Proof.
  unfold put. intros (d & (_ & ->)%vset_Ok & [= <-])%bind_Ok.
  repeat split. simpl. apply length_insert.
Qed.

Lemma put_ent A r c x :
  wf A → in_range A r c →
  ∃ A', put A r c x = Ok A' ∧ same_shape A' A ∧ ent A' r c = x ∧
        ∀ r' c', in_range A r' c' → (r', c') ≠ (r, c) → ent A' r' c' = ent A r' c'.
Proof.
  intros Hwf Hin. pose proof (index_in_range A r c Hwf Hin) as Hi.
  eexists. split; [|split; [|split]].
  - unfold put. rewrite (vset_in_range _ _ _ Hi). reflexivity.
  - repeat split. simpl. apply length_insert.
  - unfold ent. simpl. rewrite list_lookup_insert_eq by lia. reflexivity.
  - intros r' c' Hin' Hne. unfold ent. simpl.
    rewrite list_lookup_insert_ne; [reflexivity|].
    intros Heq. apply Hne.
    pose proof (index_in_range A r' c' Hwf Hin') as Hi'.
    destruct Hin as [_ Hc], Hin' as [_ Hc'].
    destruct (index_inj (cols A) r c r' c' Hc Hc') as [-> ->]; [lia | reflexivity].
Qed.

Lemma Tensor_new_wf r c : 0 ≤ r → 0 ≤ c → wf (Tensor_new r c).
Proof. intros. repeat split; simpl; try assumption. apply length_replicate. Qed.

Lemma Tensor_new_ent r c i j : ent (Tensor_new r c) i j = f0.
Proof.
  unfold ent. simpl.
  destruct (replicate _ _ !! _) as [x|] eqn:E; [|reflexivity].
  apply lookup_replicate in E as [-> _]. reflexivity.
Qed.

(** Two well-formed tensors with the same entries are the same tensor. *)
Lemma tensor_ext A B :
  wf A → wf B → rows A = rows B → cols A = cols B →
  (∀ r c, in_range A r c → ent A r c = ent B r c) → A = B.
Proof.
  destruct A as [ra ca da], B as [rb cb db]. simpl.
  intros (Hra & Hca & Hla) (Hrb & Hcb & Hlb) <- <- Hent. simpl in *.
  f_equal. apply list_eq_same_length with (Z.to_nat (ra * ca)); [lia | lia |].
  intros n x y Hn Hx Hy.
  assert (0 < ca) as Hpos by nia.
  specialize (Hent (Z.of_nat n / ca) (Z.of_nat n mod ca)).
  unfold ent in Hent. simpl in Hent.
  replace (Z.of_nat n / ca * ca + Z.of_nat n mod ca) with (Z.of_nat n) in Hent
    by (rewrite (Z.div_mod (Z.of_nat n) ca) at 1; lia).
  rewrite Nat2Z.id, Hx, Hy in Hent. simpl in Hent. apply Hent.
  unfold in_range. simpl. split.
  - assert (Z.of_nat n < ca * ra) by lia.
    split; [apply Z.div_pos; lia|]. apply Z.div_lt_upper_bound; lia.
  - apply Z.mod_pos_bound. lia.
Qed.

(** *** A loop that assigns one cell per iteration *)

Lemma for_cells (n : Z) C0 (cr cc : Z → Z) (f : Z → F)
    (body : Z → Tensor F → result (Tensor F)) :
  wf C0 → 0 ≤ n →
  (∀ k, 0 ≤ k < n → in_range C0 (cr k) (cc k)) →
  (∀ k k', 0 ≤ k < k' → k' < n → (cr k, cc k) ≠ (cr k', cc k')) →
  (∀ k C, 0 ≤ k < n → same_shape C C0 →
          ent C (cr k) (cc k) = ent C0 (cr k) (cc k) →
          body k C = put C (cr k) (cc k) (f k)) →
  ∃ C', for_int 0 n body C0 = Ok C' ∧ same_shape C' C0 ∧
        (∀ k, 0 ≤ k < n → ent C' (cr k) (cc k) = f k) ∧
        (∀ r c, in_range C0 r c → (∀ k, 0 ≤ k < n → (cr k, cc k) ≠ (r, c)) →
                ent C' r c = ent C0 r c).
Proof.
  intros Hwf Hn Hin Hinj Hbody.
  destruct (for_int_inv
    (λ i C, same_shape C C0 ∧
            (∀ k, 0 ≤ k < i → ent C (cr k) (cc k) = f k) ∧
            (∀ r c, in_range C0 r c → (∀ k, 0 ≤ k < i → (cr k, cc k) ≠ (r, c)) →
                    ent C r c = ent C0 r c))
    body 0 n C0) as (C' & Hrun & Hsh & Hdone & Hrest).
  - exact Hn.
  - split; [apply same_shape_refl|]. split; [intros; lia | reflexivity].
  - intros i C Hi (Hsh & Hdone & Hrest).
    assert (in_range C (cr i) (cc i)) as HinC
      by (eapply same_shape_in_range; [exact Hsh | apply Hin; lia]).
    assert (wf C) as HwfC by (eapply same_shape_wf; eauto).
    destruct (put_ent C (cr i) (cc i) (f i) HwfC HinC) as (C1 & Hput & Hsh1 & Hnew & Hold).
    exists C1. split; [|split; [|split]].
    + rewrite Hbody; [exact Hput | lia | exact Hsh |].
      apply Hrest; [apply Hin; lia|]. intros k Hk. apply Hinj; lia.
    + eapply same_shape_trans; eauto.
    + intros k Hk. destruct (decide (k = i)) as [->|Hne]; [exact Hnew|].
      rewrite Hold.
      * apply Hdone. lia.
      * eapply same_shape_in_range; [exact Hsh | apply Hin; lia].
      * apply Hinj; lia.
    + intros r c Hrc Hfresh. rewrite Hold.
      * apply Hrest; [exact Hrc|]. intros k Hk. apply Hfresh. lia.
      * eapply same_shape_in_range; eauto.
      * intros Heq. apply (Hfresh i); [lia | congruence].
  - exists C'. auto.
Qed.

(** *** Two nested loops that assign one cell per inner iteration *)

Lemma for_cells2 (m n : Z) C0 (cr cc : Z → Z → Z) (f : Z → Z → F)
    (body : Z → Z → Tensor F → result (Tensor F)) :
  wf C0 → 0 ≤ m → 0 ≤ n →
  (∀ i j, 0 ≤ i < m → 0 ≤ j < n → in_range C0 (cr i j) (cc i j)) →
  (∀ i j i' j', 0 ≤ i < m → 0 ≤ j < n → 0 ≤ i' < m → 0 ≤ j' < n →
                (cr i j, cc i j) = (cr i' j', cc i' j') → i = i' ∧ j = j') →
  (∀ i j C, 0 ≤ i < m → 0 ≤ j < n → same_shape C C0 →
            ent C (cr i j) (cc i j) = ent C0 (cr i j) (cc i j) →
            body i j C = put C (cr i j) (cc i j) (f i j)) →
  ∃ C', for_int 0 m (λ i C, for_int 0 n (λ j C, body i j C) C) C0 = Ok C' ∧
        same_shape C' C0 ∧
        (∀ i j, 0 ≤ i < m → 0 ≤ j < n → ent C' (cr i j) (cc i j) = f i j) ∧
        (∀ r c, in_range C0 r c →
                (∀ i j, 0 ≤ i < m → 0 ≤ j < n → (cr i j, cc i j) ≠ (r, c)) →
                ent C' r c = ent C0 r c).
Proof.
  intros Hwf Hm Hn Hin Hinj Hbody.
  destruct (for_int_inv
    (λ i C, same_shape C C0 ∧
            (∀ i' j, 0 ≤ i' < i → 0 ≤ j < n → ent C (cr i' j) (cc i' j) = f i' j) ∧
            (∀ r c, in_range C0 r c →
                    (∀ i' j, 0 ≤ i' < i → 0 ≤ j < n → (cr i' j, cc i' j) ≠ (r, c)) →
                    ent C r c = ent C0 r c))
    (λ i C, for_int 0 n (λ j C, body i j C) C) 0 m C0)
    as (C' & Hrun & Hsh & Hdone & Hrest).
  - exact Hm.
  - split; [apply same_shape_refl|]. split; [intros; lia | reflexivity].
  - intros i C Hi (Hsh & Hdone & Hrest).
    assert (wf C) as HwfC by (eapply same_shape_wf; eauto).
    destruct (for_cells n C (cr i) (cc i) (f i) (λ j C, body i j C))
      as (C1 & Hrun1 & Hsh1 & Hdone1 & Hrest1).
    + exact HwfC.
    + exact Hn.
    + intros k Hk. eapply same_shape_in_range; [exact Hsh | apply Hin; lia].
    + intros k k' Hk Hk' Heq.
      destruct (Hinj i k i k') as [_ ?]; [lia..| exact Heq | lia].
    + intros k C2 Hk Hsh2 Hcell. apply Hbody; [lia | lia | |].
      * eapply same_shape_trans; eauto.
      * rewrite Hcell. apply Hrest; [apply Hin; lia|].
        intros i' j Hi' Hj Heq.
        destruct (Hinj i' j i k) as [? _]; [lia..| exact Heq | lia].
    + exists C1. split; [exact Hrun1|]. split; [|split].
      * eapply same_shape_trans; eauto.
      * intros i' j Hi' Hj. destruct (decide (i' = i)) as [->|Hne].
        -- apply Hdone1. exact Hj.
        -- rewrite Hrest1.
           ++ apply Hdone; lia.
           ++ eapply same_shape_in_range; [exact Hsh | apply Hin; lia].
           ++ intros k Hk Heq.
              destruct (Hinj i k i' j) as [? _]; [lia..| exact Heq | lia].
      * intros r c Hrc Hfresh. rewrite Hrest1.
        -- apply Hrest; [exact Hrc|]. intros i' j Hi' Hj. apply Hfresh; lia.
        -- eapply same_shape_in_range; eauto.
        -- intros k Hk. apply Hfresh; lia.
  - exists C'. auto.
Qed.
End TensorFacts.


(** ** Accumulating loops *)

Section Accumulate.
Context {F : Type} `{Arith F}.

Lemma fsum_from_snoc n lo (f : Z → F) acc :
  fsum_from (S n) lo f acc = fadd (fsum_from n lo f acc) (f (lo + Z.of_nat n)).
Proof.
  revert lo acc. induction n as [|n IH]; intros lo acc.
  - simpl. replace (lo + Z.of_nat 0) with lo by lia. reflexivity.
  - change (fsum_from (S (S n)) lo f acc)
      with (fsum_from (S n) (lo + 1) f (fadd acc (f lo))).
    rewrite IH. simpl. do 2 f_equal. lia.
Qed.

Lemma fsum_succ n (f : Z → F) :
  0 ≤ n → fsum (n + 1) f = fadd (fsum n f) (f n).
Proof.
  intros Hn. unfold fsum. replace (Z.to_nat (n + 1)) with (S (Z.to_nat n)) by lia.
  rewrite fsum_from_snoc. do 2 f_equal. lia.
Qed.

Lemma fsum_0 (f : Z → F) : fsum 0 f = f0.
Proof. reflexivity. Qed.

Lemma fsum_from_ext n lo (f g : Z → F) acc :
  (∀ k, lo ≤ k < lo + Z.of_nat n → f k = g k) →
  fsum_from n lo f acc = fsum_from n lo g acc.
Proof.
  revert lo acc. induction n as [|n IH]; intros lo acc Hfg; simpl; [reflexivity|].
  rewrite Hfg by lia. apply IH. intros k Hk. apply Hfg. lia.
Qed.

Lemma fsum_ext n (f g : Z → F) :
  (∀ k, 0 ≤ k < n → f k = g k) → fsum n f = fsum n g.
Proof. intros Hfg. apply fsum_from_ext. intros k Hk. apply Hfg. lia. Qed.

Lemma fmax_from_ext n lo (f g : Z → F) acc :
  (∀ k, lo ≤ k < lo + Z.of_nat n → f k = g k) →
  fmax_from n lo f acc = fmax_from n lo g acc.
Proof.
  revert lo acc. induction n as [|n IH]; intros lo acc Hfg; simpl; [reflexivity|].
  rewrite Hfg by lia. apply IH. intros k Hk. apply Hfg. lia.
Qed.

Lemma for_loop_fsum (body : Z → F → result F) (f : Z → F) n lo acc :
  (∀ k s, lo ≤ k < lo + Z.of_nat n → body k s = Ok (fadd s (f k))) →
  for_loop n lo body acc = Ok (fsum_from n lo f acc).
Proof.
  revert lo acc. induction n as [|n IH]; intros lo acc Hb; simpl; [reflexivity|].
  rewrite Hb by lia. simpl. apply IH. intros k s Hk. apply Hb. lia.
Qed.

Lemma for_int_fsum (body : Z → F → result F) (f : Z → F) n :
  (∀ k s, 0 ≤ k < n → body k s = Ok (fadd s (f k))) →
  for_int 0 n body f0 = Ok (fsum n f).
Proof.
  intros Hb. unfold for_int, fsum. rewrite Z.sub_0_r.
  apply for_loop_fsum. intros k s Hk. apply Hb. lia.
Qed.

Lemma for_loop_fmax (body : Z → F → result F) (f : Z → F) n lo acc :
  (∀ k s, lo ≤ k < lo + Z.of_nat n → body k s = Ok (fmax s (f k))) →
  for_loop n lo body acc = Ok (fmax_from n lo f acc).
Proof.
  revert lo acc. induction n as [|n IH]; intros lo acc Hb; simpl; [reflexivity|].
  rewrite Hb by lia. simpl. apply IH. intros k s Hk. apply Hb. lia.
Qed.
End Accumulate.

(** ** The algebra of [tensor.h] *)

Section TensorOps.
Context {F : Type} `{Arith F}.
Implicit Types (A B C : Tensor F).

(** Loops made of reads and one [put] keep the shape of the tensor. *)
Lemma for_int2_same_shape (body : Z → Z → Tensor F → result (Tensor F)) m n C0 C' :
  (∀ i j C C1, body i j C = Ok C1 → same_shape C1 C) →
  for_int 0 m (λ i C, for_int 0 n (λ j C, body i j C) C) C0 = Ok C' →
  same_shape C' C0.
Proof.
  intros Hb. apply (for_int_keeps (λ C, same_shape C C0)); [|apply same_shape_refl].
  intros i C C1 HC. apply (for_int_keeps (λ C, same_shape C C0)); [|exact HC].
  intros j C2 C3 HC2 Hrun. eapply same_shape_trans; [eapply Hb, Hrun | exact HC2].
Qed.

Theorem matmul_spec A B :
  wf A → wf B → cols A = rows B →
  ∃ C, matmul A B = Ok C ∧ wf C ∧ rows C = rows A ∧ cols C = cols B ∧
       ∀ i j, 0 ≤ i < rows A → 0 ≤ j < cols B → ent C i j = dot A B i j.
Proof.
  intros HA HB Hdim. unfold matmul.
  rewrite assert_true by (apply Z.eqb_eq; exact Hdim). simpl.
  pose proof HA as (HrA & HcA & _). pose proof HB as (HrB & HcB & _).
  destruct (for_cells2 (rows A) (cols B) (Tensor_new (rows A) (cols B))
              (λ i _, i) (λ _ j, j) (dot A B)
              (λ i j C, sum ← for_int 0 (cols A) (λ k sum,
                           a ← at_ A i k; b ← at_ B k j;
                           Ok (fadd sum (fmul a b))) f0;
                        put C i j sum))
    as (C & Hrun & Hsh & Hent & _).
  - apply Tensor_new_wf; assumption.
  - exact HrA.
  - exact HcB.
  - intros i j Hi Hj. split; simpl; assumption.
  - intros i j i' j' _ _ _ _ [= -> ->]. split; reflexivity.
  - intros i j C Hi Hj _ _.
    rewrite (for_int_fsum _ (λ k, fmul (ent A i k) (ent B k j))); [reflexivity|].
    intros k s Hk.
    rewrite (at_ent A i k HA) by (split; assumption). simpl.
    rewrite (at_ent B k j HB) by (split; [rewrite <- Hdim|]; assumption).
    reflexivity.
  - exists C. split; [exact Hrun|].
    pose proof (same_shape_wf _ _ Hsh (Tensor_new_wf _ _ HrA HcB)) as HwfC.
    destruct Hsh as (Hr & Hc & Hl). auto.
Qed.

Theorem transpose_spec A :
  wf A →
  ∃ T, transpose A = Ok T ∧ wf T ∧ rows T = cols A ∧ cols T = rows A ∧
       ∀ i j, 0 ≤ i < rows A → 0 ≤ j < cols A → ent T j i = ent A i j.
Proof.
  intros HA. unfold transpose. pose proof HA as (HrA & HcA & _).
  destruct (for_cells2 (rows A) (cols A) (Tensor_new (cols A) (rows A))
              (λ _ j, j) (λ i _, i) (λ i j, ent A i j)
              (λ i j T, a ← at_ A i j; put T j i a))
    as (T & Hrun & Hsh & Hent & _).
  - apply Tensor_new_wf; assumption.
  - exact HrA.
  - exact HcA.
  - intros i j Hi Hj. split; simpl; assumption.
  - intros i j i' j' _ _ _ _ [= -> ->]. split; reflexivity.
  - intros i j C Hi Hj _ _. rewrite (at_ent A i j HA) by (split; assumption).
    reflexivity.
  - exists T. split; [exact Hrun|].
    pose proof (same_shape_wf _ _ Hsh (Tensor_new_wf _ _ HcA HrA)) as HwfT.
    destruct Hsh as (Hr & Hc & Hl). auto.
Qed.

Lemma add_bias_same_shape A b A' : add_bias A b = Ok A' → same_shape A' A.
Proof.
  unfold add_bias. intros (_ & _ & Hrun)%bind_Ok. revert Hrun.
  apply for_int2_same_shape.
  intros i j C C1 (a & _ & (bj & _ & Hput)%bind_Ok)%bind_Ok.
  eapply put_same_shape, Hput.
Qed.

Lemma add_bias_spec A (b : list F) :
  wf A → cols A = Z.of_nat (length b) →
  ∃ A', add_bias A b = Ok A' ∧ wf A' ∧ rows A' = rows A ∧ cols A' = cols A ∧
        ∀ i j bj, 0 ≤ i < rows A → 0 ≤ j < cols A →
          b !! Z.to_nat j = Some bj → ent A' i j = fadd (ent A i j) bj.
Proof.
  intros HA Hlen. pose proof HA as (Hr & Hc & _). unfold add_bias.
  rewrite assert_true by (apply Z.eqb_eq; exact Hlen). simpl.
  destruct (for_cells2 (rows A) (cols A) A (λ i _, i) (λ _ j, j)
              (λ i j, fadd (ent A i j) (default f0 (b !! Z.to_nat j)))
              (λ i j T, a ← at_ T i j; bj ← vget b j; put T i j (fadd a bj)))
    as (A' & Hrun & Hsh & Hent & _).
  - exact HA.
  - exact Hr.
  - exact Hc.
  - intros i j Hi Hj. split; assumption.
  - intros i j i' j' _ _ _ _ [= -> ->]. split; reflexivity.
  - intros i j C Hi Hj HC Hcell.
    rewrite (at_ent C i j) by
      (first [eapply same_shape_wf; eauto | eapply same_shape_in_range; eauto; split; lia]).
    simpl. rewrite Hcell.
    destruct (vget_in_range b j) as (bj & -> & ->); [lia|]. reflexivity.
  - exists A'. split; [exact Hrun|].
    pose proof (same_shape_wf _ _ Hsh HA) as HwA'.
    destruct Hsh as (Hr' & Hc' & _). do 3 (split; [assumption|]).
    intros i j bj Hi Hj Hbj. rewrite Hent by lia. rewrite Hbj. reflexivity.
Qed.
End TensorOps.


(** ** Activations *)

Section ActivationFacts.
Context {F : Type} `{Arith F} `{Libm F}.
Implicit Types (a : Activation.t F) (X Y dOut : Tensor F).

Lemma softmax_same_shape X Y : Activation.softmax X = Ok Y → same_shape Y X.
Proof.
  unfold Activation.softmax.
  apply (for_int_keeps (λ T, same_shape T X)); [|apply same_shape_refl].
  intros i T T' HT (mv0 & _ & (mv & _ & Hrest)%bind_Ok)%bind_Ok.
  apply bind_Ok in Hrest as ([T1 sum] & Hexp & Hdiv).
  assert (same_shape T1 X) as HT1.
  { revert Hexp.
    apply (for_int_keeps (λ st : Tensor F * F, same_shape st.1 X)); [|exact HT].
    intros j [T2 s2] [T3 s3] HT2 (x & _ & (T4 & Hput & (e & _ & [= <- _])%bind_Ok)%bind_Ok)%bind_Ok.
    simpl in *. eapply same_shape_trans; [eapply put_same_shape, Hput | exact HT2]. }
  revert Hdiv. apply (for_int_keeps (λ T, same_shape T X)); [|exact HT1].
  intros j T2 T3 HT2 (x & _ & Hput)%bind_Ok.
  eapply same_shape_trans; [eapply put_same_shape, Hput | exact HT2].
Qed.

Lemma Activation_forward_inv a X a' Y :
  Activation.forward a X = Ok (a', Y) →
  Activation.type a' = Activation.type a ∧
  Activation.alpha a' = Activation.alpha a ∧
  Activation.beta a' = Activation.beta a ∧
  Activation.input_cache a' = X ∧
  Activation.output_cache a' = Y ∧
  rows Y = rows X ∧ cols Y = cols X ∧
  length (data Y) = Z.to_nat (rows X * cols X).
Proof.
  unfold Activation.forward. simpl.
  intros (Y0 & Hloop & (Y1 & Hsm & [= <- <-])%bind_Ok)%bind_Ok. simpl.
  do 5 (split; [reflexivity|]).
  assert (same_shape Y0 (Tensor_new (rows X) (cols X))) as Hs0.
  { revert Hloop. apply for_int2_same_shape.
    intros i j C C1 (x & _ & Hput)%bind_Ok. eapply put_same_shape, Hput. }
  assert (same_shape Y1 Y0) as Hs1.
  { destruct (decide _); [apply softmax_same_shape; exact Hsm|].
    injection Hsm as ->. apply same_shape_refl. }
  destruct (same_shape_trans _ _ _ Hs1 Hs0) as (-> & -> & ->). simpl.
  rewrite length_replicate. auto.
Qed.

(** The backward pass on caches of the shape of [dOut] *)
Lemma Activation_backward_spec a dOut :
  wf dOut → wf (Activation.input_cache a) → wf (Activation.output_cache a) →
  rows (Activation.input_cache a) = rows dOut →
  cols (Activation.input_cache a) = cols dOut →
  rows (Activation.output_cache a) = rows dOut →
  cols (Activation.output_cache a) = cols dOut →
  ∃ dX, Activation.backward a dOut = Ok dX ∧ wf dX ∧
        rows dX = rows dOut ∧ cols dX = cols dOut ∧
        (Activation.type a = SOFTMAX → dX = dOut) ∧
        (Activation.type a ≠ SOFTMAX →
         ∀ i j, 0 ≤ i < rows dOut → 0 ≤ j < cols dOut →
           ent dX i j =
           fmul (ent dOut i j)
                (Activation.derivative a (ent (Activation.input_cache a) i j)
                                         (ent (Activation.output_cache a) i j))).
Proof.
  intros Hd Hi Ho Hir Hic Hor Hoc. unfold Activation.backward.
  rewrite assert_true by (apply Z.eqb_eq; congruence). simpl.
  rewrite assert_true by (apply Z.eqb_eq; congruence). simpl.
  destruct (decide (Activation.type a = SOFTMAX)) as [Hsm|Hsm].
  { exists dOut. split; [reflexivity|]. split; [exact Hd|].
    do 2 (split; [reflexivity|]). split; [reflexivity | contradiction]. }
  pose proof Hd as (Hr & Hc & _).
  destruct (for_cells2 (rows dOut) (cols dOut) (Tensor_new (rows dOut) (cols dOut))
              (λ i _, i) (λ _ j, j)
              (λ i j, fmul (ent dOut i j)
                 (Activation.derivative a (ent (Activation.input_cache a) i j)
                                          (ent (Activation.output_cache a) i j)))
              (λ i j dX,
                 x ← at_ (Activation.input_cache a) i j;
                 y ← at_ (Activation.output_cache a) i j;
                 let grad := Activation.derivative a x y in
                 d ← at_ dOut i j;
                 put dX i j (fmul d grad)))
    as (dX & Hrun & Hsh & Hent & _).
  - apply Tensor_new_wf; assumption.
  - exact Hr.
  - exact Hc.
  - intros i j ? ?. split; simpl; assumption.
  - intros i j i' j' _ _ _ _ [= -> ->]. split; reflexivity.
  - intros i j C ? ? _ _.
    rewrite (at_ent _ i j Hi) by (split; [rewrite Hir | rewrite Hic]; assumption).
    simpl.
    rewrite (at_ent _ i j Ho) by (split; [rewrite Hor | rewrite Hoc]; assumption).
    simpl.
    rewrite (at_ent _ i j Hd) by (split; assumption).
    reflexivity.
  - exists dX. split; [exact Hrun|].
    pose proof (same_shape_wf _ _ Hsh (Tensor_new_wf _ _ Hr Hc)) as HwfX.
    destruct Hsh as (Hr' & Hc' & _). simpl in Hr', Hc'.
    split; [exact HwfX|]. split; [exact Hr'|]. split; [exact Hc'|].
    split; [contradiction|]. intros _. exact Hent.
Qed.

(** The forward pass of the cell-wise kinds *)
Lemma Activation_forward_cellwise a X :
  Activation.type a ≠ SOFTMAX → wf X →
  ∃ Y, Activation.forward a X =
         Ok (Activation.mk (Activation.type a) (Activation.alpha a)
               (Activation.beta a) X Y, Y) ∧
       wf Y ∧ rows Y = rows X ∧ cols Y = cols X ∧
       ∀ i j, 0 ≤ i < rows X → 0 ≤ j < cols X →
         ent Y i j = Activation.activate a (ent X i j).
Proof.
  intros Hty HX. pose proof HX as (Hr & Hc & _). unfold Activation.forward.
  destruct (for_cells2 (rows X) (cols X) (Tensor_new (rows X) (cols X))
              (λ i _, i) (λ _ j, j) (λ i j, Activation.activate a (ent X i j))
              (λ i j Y, x ← at_ X i j;
                 put Y i j (Activation.activate
                   (Activation.mk (Activation.type a) (Activation.alpha a)
                      (Activation.beta a) X (Activation.output_cache a)) x)))
    as (Y & Hrun & HY & Hent & _).
  - apply Tensor_new_wf; assumption.
  - exact Hr.
  - exact Hc.
  - intros i j ? ?. split; simpl; assumption.
  - intros i j i' j' _ _ _ _ [= -> ->]. split; reflexivity.
  - intros i j C ? ? _ _. rewrite (at_ent X i j HX) by (split; assumption).
    reflexivity.
  - exists Y. rewrite Hrun. simpl.
    destruct (decide (Activation.type a = SOFTMAX)) as [?|_]; [contradiction|].
    split; [reflexivity|].
    pose proof (same_shape_wf _ _ HY (Tensor_new_wf _ _ Hr Hc)) as HwY.
    destruct HY as (Hr' & Hc' & _). auto.
Qed.
End ActivationFacts.

(** ** Dense layers *)

Section DenseLayerFacts.
Context {F : Type} `{Arith F} `{Libm F}.
Implicit Types (L : DenseLayer.t F) (X Y dOut : Tensor F).

(** What a successful forward pass leaves in the layer *)
Lemma DenseLayer_forward_inv L X L1 Y :
  wf X → wf (DenseLayer.W L) →
  DenseLayer.forward L X = Ok (L1, Y) →
  DenseLayer.W L1 = DenseLayer.W L ∧
  DenseLayer.b L1 = DenseLayer.b L ∧
  DenseLayer.grad_W L1 = DenseLayer.grad_W L ∧
  DenseLayer.grad_b L1 = DenseLayer.grad_b L ∧
  DenseLayer.W_param L1 = DenseLayer.W_param L ∧
  DenseLayer.b_param L1 = DenseLayer.b_param L ∧
  DenseLayer.input_cache L1 = X ∧
  Activation.type (DenseLayer.activation L1) = Activation.type (DenseLayer.activation L) ∧
  Activation.output_cache (DenseLayer.activation L1) = Y ∧
  wf (Activation.input_cache (DenseLayer.activation L1)) ∧
  rows (Activation.input_cache (DenseLayer.activation L1)) = rows X ∧
  cols (Activation.input_cache (DenseLayer.activation L1)) = cols (DenseLayer.W L) ∧
  wf Y ∧ rows Y = rows X ∧ cols Y = cols (DenseLayer.W L).
Proof.
  intros HX HW. unfold DenseLayer.forward.
  intros (_ & Hdim%assert_Ok%Z.eqb_eq & (out0 & Hmm & Hrest)%bind_Ok)%bind_Ok.
  apply bind_Ok in Hrest as (out & Hab & ([act Y'] & Hact & [= <- <-])%bind_Ok).
  simpl. do 7 (split; [reflexivity|]).
  destruct (matmul_spec X (DenseLayer.W L) HX HW Hdim) as (C & HC & HwfC & HrC & HcC & _).
  rewrite HC in Hmm. injection Hmm as <-.
  pose proof (add_bias_same_shape _ _ _ Hab) as Hsh.
  pose proof (same_shape_wf _ _ Hsh HwfC) as Hwfo.
  destruct Hsh as (Hro & Hco & _).
  destruct (Activation_forward_inv _ _ _ _ Hact) as (Hty & _ & _ & Hin & Hout & HrY & HcY & HlY).
  split; [exact Hty|]. split; [exact Hout|].
  rewrite Hin. split; [exact Hwfo|]. split; [congruence|]. split; [congruence|].
  destruct Hwfo as (? & ? & _).
  split; [|split; congruence].
  repeat split; [congruence | congruence |]. rewrite HlY, HrY, HcY. reflexivity.
Qed.

(** The bias gradient is the vector of column sums. *)
Lemma bias_sums_spec (gb : list F) (dA : Tensor F) :
  wf dA → Z.of_nat (length gb) = cols dA →
  ∃ gb', DenseLayer.bias_sums gb dA = Ok gb' ∧ length gb' = length gb ∧
         ∀ j, 0 ≤ j < cols dA → gb' !! Z.to_nat j = Some (col_sum dA j).
Proof.
  intros HdA Hlen. pose proof HdA as (Hr & Hc & _). unfold DenseLayer.bias_sums.
  destruct (for_int_inv
    (λ i (g : list F), length g = length gb ∧
       ∀ j, 0 ≤ j < cols dA → g !! Z.to_nat j = Some (fsum i (λ i, ent dA i j)))
    (λ i g, for_int 0 (cols dA) (λ j g,
              x ← vget g j; d ← at_ dA i j; vset g j (fadd x d)) g)
    0 (rows dA) (replicate (length gb) f0)) as (g & Hrun & Hl & Hg).
  - exact Hr.
  - split; [apply length_replicate|]. intros j Hj. rewrite fsum_0.
    apply lookup_replicate_2. lia.
  - intros i g Hi (Hl & Hg).
    destruct (for_int_inv
      (λ j (g' : list F), length g' = length gb ∧
         (∀ k, 0 ≤ k < j → g' !! Z.to_nat k = Some (fsum (i + 1) (λ i, ent dA i k))) ∧
         (∀ k, j ≤ k < cols dA → g' !! Z.to_nat k = g !! Z.to_nat k))
      (λ j g, x ← vget g j; d ← at_ dA i j; vset g j (fadd x d))
      0 (cols dA) g) as (g' & Hrun' & Hl' & Hdone & _).
    + exact Hc.
    + split; [exact Hl|]. split; [intros; lia | reflexivity].
    + intros j g1 Hj (Hl1 & Hdone & Hrest).
      exists (<[Z.to_nat j := fadd (fsum i (λ i, ent dA i j)) (ent dA i j)]> g1).
      split; [|split; [|split]].
      * rewrite (vget_lookup g1 j (fsum i (λ i, ent dA i j))); [|lia|].
        2:{ rewrite Hrest by lia. apply Hg. lia. }
        simpl. rewrite (at_ent dA i j HdA) by (split; lia). simpl.
        apply vset_in_range. lia.
      * rewrite length_insert. exact Hl1.
      * intros k Hk. destruct (decide (k = j)) as [->|Hne].
        -- rewrite list_lookup_insert_eq by lia. rewrite fsum_succ by lia. reflexivity.
        -- rewrite list_lookup_insert_ne by lia. apply Hdone. lia.
      * intros k Hk. rewrite list_lookup_insert_ne by lia. apply Hrest. lia.
    + exists g'. split; [exact Hrun'|]. split; [exact Hl'|].
      intros j Hj. apply Hdone. exact Hj.
  - exists g. split; [exact Hrun|]. split; [exact Hl|]. exact Hg.
Qed.
End DenseLayerFacts.


Section DenseLayerBackward.
Context {F : Type} `{Arith F} `{Libm F}.
Implicit Types (L : DenseLayer.t F) (X Y dOut : Tensor F).

Lemma DenseLayer_backward_run L dOut :
  wf dOut → ready_for L dOut →
  ∃ dAct X_T W_T gW gb dX,
    Activation.backward (DenseLayer.activation L) dOut = Ok dAct ∧
    wf dAct ∧ rows dAct = rows dOut ∧ cols dAct = cols dOut ∧
    transpose (DenseLayer.input_cache L) = Ok X_T ∧
    matmul X_T dAct = Ok gW ∧
    DenseLayer.bias_sums (DenseLayer.grad_b L) dAct = Ok gb ∧
    transpose (DenseLayer.W L) = Ok W_T ∧
    matmul dAct W_T = Ok dX ∧
    DenseLayer.backward L dOut =
      Ok (DenseLayer.sync_gradients
            (DenseLayer.mk (DenseLayer.W L) (DenseLayer.b L) gW gb
               (DenseLayer.W_param L) (DenseLayer.b_param L)
               (DenseLayer.input_cache L) (DenseLayer.activation L)), dX) ∧
    (wf gW ∧ rows gW = cols (DenseLayer.input_cache L) ∧
     cols gW = cols (DenseLayer.W L) ∧
     ∀ k j, 0 ≤ k < cols (DenseLayer.input_cache L) → 0 ≤ j < cols (DenseLayer.W L) →
       ent gW k j = fsum (rows dOut)
                      (λ i, fmul (ent (DenseLayer.input_cache L) i k) (ent dAct i j))) ∧
    (length gb = length (DenseLayer.grad_b L) ∧
     ∀ j, 0 ≤ j < cols (DenseLayer.W L) → gb !! Z.to_nat j = Some (col_sum dAct j)) ∧
    (wf dX ∧ rows dX = rows dOut ∧ cols dX = rows (DenseLayer.W L) ∧
     ∀ i k, 0 ≤ i < rows dOut → 0 ≤ k < rows (DenseLayer.W L) →
       ent dX i k = fsum (cols (DenseLayer.W L))
                      (λ j, fmul (ent dAct i j) (ent (DenseLayer.W L) k j))).
Proof.
  intros Hd (HW & HX & Hgb & Hdc & Hdr & Hai & Hao & Hair & Haic & Haor & Haoc).
  destruct (Activation_backward_spec (DenseLayer.activation L) dOut
              Hd Hai Hao Hair Haic Haor Haoc)
    as (dAct & Hback & HwA & HrA & HcA & _).
  destruct (transpose_spec _ HX) as (X_T & HXT & HwXT & HrXT & HcXT & HeXT).
  destruct (matmul_spec X_T dAct HwXT HwA) as (gW & HgW & HwgW & HrgW & HcgW & HegW);
    [congruence|].
  destruct (bias_sums_spec (DenseLayer.grad_b L) dAct HwA) as (gb & Hgbr & Hgbl & Hgbe);
    [congruence|].
  destruct (transpose_spec _ HW) as (W_T & HWT & HwWT & HrWT & HcWT & HeWT).
  destruct (matmul_spec dAct W_T HwA HwWT) as (dX & HdX & HwdX & HrdX & HcdX & HedX);
    [congruence|].
  exists dAct, X_T, W_T, gW, gb, dX.
  do 9 (split; [assumption|]).
  split; [|split; [|split]].
  - unfold DenseLayer.backward.
    rewrite !assert_true by (apply Z.eqb_eq; assumption). simpl.
    rewrite Hback. simpl. rewrite HXT. simpl. rewrite HgW. simpl.
    rewrite Hgbr. simpl. rewrite HWT. simpl. rewrite HdX. reflexivity.
  - split; [exact HwgW|]. split; [congruence|]. split; [congruence|].
    intros k j Hk Hj. rewrite HegW by (rewrite ?HrXT, ?HcA, ?Hdc; lia).
    unfold dot. rewrite HcXT, <- Hdr. apply fsum_ext. intros i Hi.
    rewrite HeXT by lia. reflexivity.
  - split; [exact Hgbl|]. intros j Hj. apply Hgbe. rewrite HcA, Hdc. exact Hj.
  - split; [exact HwdX|]. split; [congruence|]. split; [congruence|].
    intros i k Hi Hk. rewrite HedX by (rewrite ?HrA, ?HcWT; lia).
    unfold dot. rewrite HcA, Hdc. apply fsum_ext. intros j Hj.
    rewrite HeWT by lia. reflexivity.
Qed.

Lemma DenseLayer_forward_ready L X L1 Y dOut :
  wf X → wf (DenseLayer.W L) →
  Z.of_nat (length (DenseLayer.grad_b L)) = cols (DenseLayer.W L) →
  DenseLayer.forward L X = Ok (L1, Y) →
  cols dOut = cols (DenseLayer.W L) → rows dOut = rows X →
  ready_for L1 dOut.
Proof.
  intros HX HW Hgb Hfw Hc Hr.
  destruct (DenseLayer_forward_inv L X L1 Y HX HW Hfw)
    as (EW & Eb & EgW & Egb & _ & _ & EX & _ & EY & Hwi & Hri & Hci & HwY & HrY & HcY).
  unfold ready_for. rewrite EW, EX, Egb, EY.
  repeat split; try assumption; try congruence; try apply HW; try apply HX;
    try apply Hwi; try apply HwY.
Qed.

(** The constructor establishes what the backward pass asks of a layer. *)
Lemma DenseLayer_make_wf (input_dim output_dim : Z) (act : ActivationType) :
  0 ≤ input_dim → 0 ≤ output_dim →
  wf (DenseLayer.W (DenseLayer.make input_dim output_dim act)) ∧
  Z.of_nat (length (DenseLayer.grad_b (DenseLayer.make input_dim output_dim act)))
  = cols (DenseLayer.W (DenseLayer.make input_dim output_dim act)).
Proof.
  intros Hi Ho. split; [apply Tensor_new_wf; assumption|].
  simpl. rewrite length_replicate. lia.
Qed.
End DenseLayerBackward.


(** ** The row-wise softmax *)

Section SoftmaxFacts.
Context {F : Type} `{Arith F} `{Libm F}.
Implicit Types (a : Activation.t F) (X Y T : Tensor F).

(** One row of [softmax]: the three passes over row [i] of [T], whose
    row [i] still holds the input [X]. *)
Lemma softmax_row X T i :
  wf X → 0 < cols X → 0 ≤ i < rows X → same_shape T X →
  (∀ j, 0 ≤ j < cols X → ent T i j = ent X i j) →
  ∃ T',
    (max_val ← at_ T i 0;
     max_val ← for_int 1 (cols X) (λ j max_val,
                  x ← at_ T i j; Ok (fmax max_val x)) max_val;
     '(T1, sum) ← for_int 0 (cols X) (λ j '(T1, sum),
                  x ← at_ T1 i j;
                  T1 ← put T1 i j (fexp (fsub x max_val));
                  e ← at_ T1 i j;
                  Ok (T1, fadd sum e)) (T, f0);
     for_int 0 (cols X) (λ j T2,
       x ← at_ T2 i j; put T2 i j (fdiv x sum)) T1) = Ok T' ∧
    same_shape T' X ∧
    (∀ j, 0 ≤ j < cols X → ent T' i j = softmax_entry X i j) ∧
    (∀ r c, in_range X r c → r ≠ i → ent T' r c = ent T r c).
Proof.
  intros HX Hcols Hi HT Hrow.
  assert (wf T) as HwT by (eapply same_shape_wf; eauto).
  assert (∀ T0 r c, same_shape T0 X → in_range X r c → at_ T0 r c = Ok (ent T0 r c))
    as Hat.
  { intros T0 r c HT0 Hrc. apply at_ent; [eapply same_shape_wf; eauto|].
    eapply same_shape_in_range; eauto. }
  (* the maximum *)
  rewrite (Hat T i 0 HT) by (split; lia). simpl.
  assert (for_int 1 (cols X) (λ j max_val, x ← at_ T i j; Ok (fmax max_val x))
            (ent T i 0) = Ok (row_max X i)) as ->.
  { unfold for_int, row_max. rewrite Hrow by lia.
    apply for_loop_fmax. intros k s Hk.
    rewrite (Hat T i k HT) by (split; lia). simpl. rewrite Hrow by lia. reflexivity. }
  simpl.
  (* the exponentials and their sum *)
  destruct (for_int_inv
    (λ j (st : Tensor F * F),
       same_shape st.1 X ∧
       (∀ c, 0 ≤ c < j → ent st.1 i c = shifted_exp X i c) ∧
       (∀ c, j ≤ c < cols X → ent st.1 i c = ent X i c) ∧
       (∀ r c, in_range X r c → r ≠ i → ent st.1 r c = ent T r c) ∧
       st.2 = fsum j (shifted_exp X i))
    (λ j '(T1, sum),
       x ← at_ T1 i j;
       T1 ← put T1 i j (fexp (fsub x (row_max X i)));
       e ← at_ T1 i j;
       Ok (T1, fadd sum e))
    0 (cols X) (T, f0)) as ([T1 sum] & Hexp & HT1 & Hdone1 & _ & Hrest1 & Hsum).
  - lia.
  - simpl. split; [exact HT|]. split; [intros; lia|]. split; [intros; apply Hrow; lia|].
    split; [reflexivity|]. reflexivity.
  - intros j [T1 s] Hj (HT1 & Hdone & Htodo & Hrest & Hs). simpl in *.
    assert (wf T1) as HwT1 by (eapply same_shape_wf; eauto).
    assert (in_range T1 i j) as Hin1
      by (eapply same_shape_in_range; [exact HT1 | split; lia]).
    destruct (put_ent T1 i j (shifted_exp X i j) HwT1 Hin1)
      as (T2 & Hput & HT2 & Hnew & Hold).
    assert (same_shape T2 X) as HT2X by (eapply same_shape_trans; eauto).
    exists (T2, fadd s (shifted_exp X i j)). split; [|split; [|split; [|split; [|split]]]];
      simpl.
    + rewrite (Hat T1 i j HT1) by (split; lia). simpl.
      rewrite Htodo by lia. fold (shifted_exp X i j). rewrite Hput. simpl.
      rewrite (Hat T2 i j HT2X) by (split; lia). simpl. rewrite Hnew. reflexivity.
    + exact HT2X.
    + intros c Hc. destruct (decide (c = j)) as [->|Hne]; [exact Hnew|].
      rewrite Hold.
      * apply Hdone. lia.
      * eapply same_shape_in_range; [exact HT1 | split; lia].
      * intros [= ?]. lia.
    + intros c Hc. rewrite Hold.
      * apply Htodo. lia.
      * eapply same_shape_in_range; [exact HT1 | split; lia].
      * intros [= ?]. lia.
    + intros r c Hrc Hne. rewrite Hold.
      * apply Hrest; assumption.
      * eapply same_shape_in_range; eauto.
      * intros [= ? ?]. contradiction.
    + rewrite fsum_succ by lia. rewrite Hs. reflexivity.
  - simpl in *. rewrite Hexp. simpl. subst sum. fold (row_expsum X i).
    (* the division *)
    assert (wf T1) as HwT1 by (eapply same_shape_wf; eauto).
    destruct (for_cells (cols X) T1 (λ _, i) (λ j, j)
                (λ j, fdiv (ent T1 i j) (row_expsum X i))
                (λ j T2, x ← at_ T2 i j; put T2 i j (fdiv x (row_expsum X i))))
      as (T' & Hdiv & HT' & Hdone & Hrest).
    + exact HwT1.
    + lia.
    + intros k Hk. eapply same_shape_in_range; [exact HT1 | split; lia].
    + intros k k' ? ? [= ?]. lia.
    + intros k C Hk HC Hcell.
      rewrite (Hat C i k) by (first [eapply same_shape_trans; eauto | split; lia]).
      simpl. rewrite Hcell. reflexivity.
    + exists T'. split; [exact Hdiv|]. split; [eapply same_shape_trans; eauto|]. split.
      * intros j Hj. rewrite Hdone by lia. rewrite Hdone1 by lia. reflexivity.
      * intros r c Hrc Hne. rewrite Hrest.
        -- apply Hrest1; assumption.
        -- eapply same_shape_in_range; eauto.
        -- intros k Hk [= ? ?]. congruence.
Qed.

Theorem softmax_spec X :
  wf X → 0 < cols X →
  ∃ Y, Activation.softmax X = Ok Y ∧ same_shape Y X ∧
       ∀ i j, 0 ≤ i < rows X → 0 ≤ j < cols X → ent Y i j = softmax_entry X i j.
Proof.
  intros HX Hcols. pose proof HX as (Hr & _ & _). unfold Activation.softmax.
  destruct (for_int_inv
    (λ i T, same_shape T X ∧
            (∀ r c, 0 ≤ r < i → 0 ≤ c < cols X → ent T r c = softmax_entry X r c) ∧
            (∀ r c, i ≤ r < rows X → 0 ≤ c < cols X → ent T r c = ent X r c))
    (λ i T,
       max_val ← at_ T i 0;
       max_val ← for_int 1 (cols X) (λ j max_val,
                    x ← at_ T i j; Ok (fmax max_val x)) max_val;
       '(T1, sum) ← for_int 0 (cols X) (λ j '(T1, sum),
                    x ← at_ T1 i j;
                    T1 ← put T1 i j (fexp (fsub x max_val));
                    e ← at_ T1 i j;
                    Ok (T1, fadd sum e)) (T, f0);
       for_int 0 (cols X) (λ j T2,
         x ← at_ T2 i j; put T2 i j (fdiv x sum)) T1)
    0 (rows X) X) as (Y & Hrun & HY & Hdone & _).
  - exact Hr.
  - split; [apply same_shape_refl|]. split; [intros; lia | reflexivity].
  - intros i T Hi (HT & Hdone & Htodo).
    destruct (softmax_row X T i HX Hcols Hi HT) as (T' & Hrow & HT' & Hnew & Hold).
    { intros j Hj. apply Htodo; lia. }
    exists T'. split; [exact Hrow|]. split; [exact HT'|]. split.
    + intros r c Hr' Hc. destruct (decide (r = i)) as [->|Hne]; [apply Hnew; exact Hc|].
      rewrite Hold by (first [split; lia | exact Hne]). apply Hdone; lia.
    + intros r c Hr' Hc. rewrite Hold by (first [split; lia | lia]). apply Htodo; lia.
  - exists Y. split; [exact Hrun|]. split; [exact HY|]. intros i j Hi Hj.
    apply Hdone; assumption.
Qed.

(** The cell-wise pass that precedes [softmax] copies its input. *)
Lemma row_max_ext X Y i :
  cols X = cols Y → (∀ j, 0 ≤ j < cols X → ent X i j = ent Y i j) → 0 < cols X →
  row_max X i = row_max Y i.
Proof.
  intros Hc He Hpos. unfold row_max. rewrite <- Hc, (He 0) by lia.
  apply fmax_from_ext. intros k Hk. apply He. lia.
Qed.

Lemma softmax_entry_ext X Y i j :
  cols X = cols Y → (∀ j, 0 ≤ j < cols X → ent X i j = ent Y i j) →
  0 ≤ j < cols X → softmax_entry X i j = softmax_entry Y i j.
Proof.
  intros Hc He Hj. assert (0 < cols X) as Hpos by lia.
  unfold softmax_entry, row_expsum, shifted_exp.
  rewrite <- Hc, (row_max_ext X Y i Hc He Hpos), (He j Hj).
  f_equal. apply fsum_ext. intros k Hk. rewrite (He k Hk). reflexivity.
Qed.

Theorem Activation_forward_softmax a X :
  Activation.type a = SOFTMAX → wf X → 0 < cols X →
  ∃ a' Y, Activation.forward a X = Ok (a', Y) ∧
          wf Y ∧ rows Y = rows X ∧ cols Y = cols X ∧
          ∀ i j, 0 ≤ i < rows X → 0 ≤ j < cols X → ent Y i j = softmax_entry X i j.
Proof.
  intros Hty HX Hcols. pose proof HX as (Hr & Hc & _). unfold Activation.forward.
  destruct (for_cells2 (rows X) (cols X) (Tensor_new (rows X) (cols X))
              (λ i _, i) (λ _ j, j) (λ i j, ent X i j)
              (λ i j Y, x ← at_ X i j;
                 put Y i j (Activation.activate
                   (Activation.mk (Activation.type a) (Activation.alpha a)
                      (Activation.beta a) X (Activation.output_cache a)) x)))
    as (Y0 & Hrun & HY0 & Hent & _).
  - apply Tensor_new_wf; assumption.
  - exact Hr.
  - exact Hc.
  - intros i j ? ?. split; simpl; assumption.
  - intros i j i' j' _ _ _ _ [= -> ->]. split; reflexivity.
  - intros i j C ? ? _ _. rewrite (at_ent X i j HX) by (split; assumption). simpl.
    unfold Activation.activate. simpl. rewrite Hty. reflexivity.
  - rewrite Hrun. simpl.
    pose proof (same_shape_wf _ _ HY0 (Tensor_new_wf _ _ Hr Hc)) as HwY0.
    destruct HY0 as (Hr0 & Hc0 & _). simpl in Hr0, Hc0.
    destruct (softmax_spec Y0 HwY0) as (Y & Hsm & HY & HentY); [lia|].
    destruct (decide (Activation.type a = SOFTMAX)) as [_|Hne]; [|contradiction].
    rewrite Hsm. simpl. eexists _, Y. split; [reflexivity|].
    pose proof (same_shape_wf _ _ HY HwY0) as HwY. destruct HY as (HrY & HcY & _).
    split; [exact HwY|]. split; [congruence|]. split; [congruence|].
    intros i j Hi Hj. rewrite HentY by lia.
    apply softmax_entry_ext; [congruence | | lia].
    intros k Hk. apply Hent; lia.
Qed.
End SoftmaxFacts.


(** ** Exact arithmetic *)

Section RealFacts.
Local Open Scope R_scope.

Lemma R_f0 : (f0 : R) = 0.
Proof. unfold f0. simpl. unfold Q2R. simpl. lra. Qed.

Lemma R_f1 : (f1 : R) = 1.
Proof. unfold f1. simpl. unfold Q2R. simpl. lra. Qed.

Lemma Rltb_true (x y : R) : x < y → Rltb x y = true.
Proof. intros Hlt. unfold Rltb. destruct (Rlt_dec x y); [reflexivity | contradiction]. Qed.

Lemma Rltb_false (x y : R) : ¬ x < y → Rltb x y = false.
Proof. intros Hlt. unfold Rltb. destruct (Rlt_dec x y); [contradiction | reflexivity]. Qed.

Lemma Rleb_true (x y : R) : x <= y → Rleb x y = true.
Proof. intros Hle. unfold Rleb. destruct (Rle_dec x y); [reflexivity | contradiction]. Qed.

Lemma Rleb_false (x y : R) : ¬ x <= y → Rleb x y = false.
Proof. intros Hle. unfold Rleb. destruct (Rle_dec x y); [contradiction | reflexivity]. Qed.

Lemma R_fmax (x y : R) : fmax x y = Rmax x y.
Proof.
  unfold fmax. simpl. unfold Rltb, Rmax.
  destruct (Rlt_dec x y), (Rle_dec x y); lra.
Qed.

Lemma R_fsum_from_scale n lo (f : Z → R) (acc s : R) :
  fsum_from n lo (λ k, f k / s) (acc / s) = fsum_from n lo f acc / s.
Proof.
  revert lo acc. induction n as [|n IH]; intros lo acc; simpl; [reflexivity|].
  rewrite <- IH. f_equal. unfold Rdiv. ring.
Qed.

Lemma R_fsum_scale n (f : Z → R) (s : R) :
  fsum n (λ k, f k / s) = fsum n f / s.
Proof.
  unfold fsum. rewrite <- R_fsum_from_scale. f_equal. rewrite R_f0. unfold Rdiv. ring.
Qed.

Lemma R_fsum_from_pos n lo (f : Z → R) (acc : R) :
  (∀ k, (lo ≤ k < lo + Z.of_nat n)%Z → 0 < f k) → 0 <= acc →
  acc <= fsum_from n lo f acc ∧ (n ≠ O → 0 < fsum_from n lo f acc).
Proof.
  revert lo acc. induction n as [|n IH]; intros lo acc Hf Hacc; simpl.
  - split; [lra | congruence].
  - pose proof (Hf lo ltac:(lia)) as Hlo.
    destruct (IH (lo + 1)%Z (acc + f lo)) as [Hge _].
    + intros k Hk. apply Hf. lia.
    + lra.
    + split; [lra | intros _; lra].
Qed.

Lemma R_fsum_pos n (f : Z → R) :
  (0 < n)%Z → (∀ k, (0 ≤ k < n)%Z → 0 < f k) → 0 < fsum n f.
Proof.
  intros Hn Hf. unfold fsum.
  destruct (R_fsum_from_pos (Z.to_nat n) 0 f f0) as [_ Hpos].
  - intros k Hk. apply Hf. lia.
  - rewrite R_f0. lra.
  - apply Hpos. lia.
Qed.

(** [fmax_from] computes an upper bound that is attained. *)
Lemma R_fmax_from_bounds n lo (f : Z → R) (acc : R) :
  acc <= fmax_from n lo f acc ∧
  (∀ k, (lo ≤ k < lo + Z.of_nat n)%Z → f k <= fmax_from n lo f acc) ∧
  (fmax_from n lo f acc = acc ∨
   ∃ k, (lo ≤ k < lo + Z.of_nat n)%Z ∧ fmax_from n lo f acc = f k).
Proof.
  revert lo acc. induction n as [|n IH]; intros lo acc; simpl.
  - split; [lra|]. split; [intros; lia | left; reflexivity].
  - destruct (IH (lo + 1)%Z (fmax acc (f lo))) as (Hge & Hub & Hatt).
    rewrite R_fmax in *.
    pose proof (Rmax_l acc (f lo)). pose proof (Rmax_r acc (f lo)).
    split; [lra|]. split.
    + intros k Hk. destruct (decide (k = lo)) as [->|Hne]; [lra|]. apply Hub. lia.
    + destruct Hatt as [Heq|(k & Hk & Heq)].
      * rewrite Heq. unfold Rmax. destruct (Rle_dec acc (f lo)).
        -- right. exists lo. split; [lia | reflexivity].
        -- left. reflexivity.
      * right. exists k. split; [lia | exact Heq].
Qed.

Lemma R_row_max_spec (X : Tensor R) (i : Z) :
  (0 < cols X)%Z →
  (∀ j, (0 ≤ j < cols X)%Z → ent X i j <= row_max X i) ∧
  (∃ j, (0 ≤ j < cols X)%Z ∧ row_max X i = ent X i j).
Proof.
  intros Hc. unfold row_max.
  destruct (R_fmax_from_bounds (Z.to_nat (cols X - 1)) 1 (λ j, ent X i j) (ent X i 0))
    as (Hge & Hub & Hatt).
  split.
  - intros j Hj. destruct (decide (j = 0%Z)) as [->|Hne]; [exact Hge|]. apply Hub. lia.
  - destruct Hatt as [Heq|(k & Hk & Heq)].
    + exists 0%Z. split; [lia | exact Heq].
    + exists k. split; [lia | exact Heq].
Qed.
End RealFacts.


(** ** Losses *)

Section LossFacts.
Context {F : Type} `{Arith F} `{Libm F}.
Implicit Types (l : Loss.t F) (pred G : Tensor F) (ys : list Z).

Lemma ent_lookup (A : Tensor F) r c :
  wf A → in_range A r c → data A !! Z.to_nat (r * cols A + c) = Some (ent A r c).
Proof.
  intros HA Hin. pose proof (index_in_range A r c HA Hin) as Hi.
  destruct (lookup_lt_is_Some_2 (data A) (Z.to_nat (r * cols A + c))) as [x Hx]; [lia|].
  unfold ent. rewrite Hx. reflexivity.
Qed.

Lemma valid_labels_lookup pred ys i :
  valid_labels pred ys → 0 ≤ i < rows pred →
  ∃ c, ys !! Z.to_nat i = Some c ∧ 0 ≤ c < cols pred.
Proof.
  intros [Hlen Hall] Hi.
  destruct (lookup_lt_is_Some_2 ys (Z.to_nat i)) as [c Hc]; [lia|].
  exists c. split; [exact Hc|]. eapply Forall_lookup_1 in Hall; eauto.
Qed.

End LossFacts.


(** ** Optimizers *)

Section OptimizerFacts.
Context {F : Type} `{Arith F}.
Implicit Types (p : loc) (param : Param.t F) (v d : list F).

(** The lazily created accumulator, as [step] computes it *)
Lemma slot_code (m : gmap loc (list F)) p n :
  (let v := default [] (m !! p) in if vempty v then vresize n f0 v else v)
  = slot m p n.
Proof.
  unfold slot. destruct (m !! p) as [[|x xs]|]; simpl; try reflexivity;
    apply vresize_nil.
Qed.

Lemma sized_fresh (m : gmap loc (list F)) p n : m !! p = None → sized m p n.
Proof. intros E. unfold sized, slot. rewrite E. apply length_replicate. Qed.

Lemma sized_stored (m : gmap loc (list F)) p l :
  m !! p = Some l → sized m p (length l).
Proof.
  intros E. unfold sized, slot. rewrite E. destruct l; reflexivity.
Qed.

Lemma slot_fresh (m : gmap loc (list F)) p n :
  m !! p = None → slot m p n = replicate n f0.
Proof. intros E. unfold slot. rewrite E. reflexivity. Qed.

Lemma lookup_Z_lt {A} (l : list A) (k : Z) :
  0 ≤ k < Z.of_nat (length l) → ∃ x, l !! Z.to_nat k = Some x.
Proof. intros Hk. apply lookup_lt_is_Some_2. lia. Qed.

(** Plain gradient descent: [data[i] -= lr * grad[i]] *)
Lemma SGD_plain_run (o : SGDOptimizer.t F) p param :
  fltb f0 (SGDOptimizer.momentum o) = false →
  (length (Param.data param) ≤ length (Param.grad param))%nat →
  ∃ d, SGDOptimizer.step o p param = Ok (o, Param.mk d (Param.grad param)) ∧
       length d = length (Param.data param) ∧
       ∀ (i : nat) di gi,
         Param.data param !! i = Some di → Param.grad param !! i = Some gi →
         d !! i = Some (fsub di (fmul (SGDOptimizer.lr o) gi)).
Proof.
  intros Hm Hlen. unfold SGDOptimizer.step. rewrite Hm.
  set (data := Param.data param) in *. set (grad := Param.grad param) in *.
  destruct (for_int_inv
    (λ i d, length d = length data ∧
       (∀ k di gi, 0 ≤ k < i → data !! Z.to_nat k = Some di →
                   grad !! Z.to_nat k = Some gi →
                   d !! Z.to_nat k = Some (fsub di (fmul (SGDOptimizer.lr o) gi))) ∧
       (∀ k, i ≤ k → d !! Z.to_nat k = data !! Z.to_nat k))
    (λ i d, di ← vget d i; gi ← vget grad i;
            vset d i (fsub di (fmul (SGDOptimizer.lr o) gi)))
    0 (Z.of_nat (length data)) data) as (d & Hrun & Hl & Hdone & _).
  - lia.
  - split; [reflexivity|]. split; [intros; lia | reflexivity].
  - intros i d Hi (Hl & Hdone & Htodo).
    destruct (lookup_Z_lt data i) as [di Hdi]; [lia|].
    destruct (lookup_Z_lt grad i) as [gi Hgi]; [lia|].
    eexists. split; [|split; [|split]].
    + rewrite (vget_lookup d i di) by (first [lia | rewrite Htodo by lia; exact Hdi]).
      simpl. rewrite (vget_lookup grad i gi) by (first [lia | exact Hgi]). simpl.
      apply vset_in_range. lia.
    + rewrite length_insert. exact Hl.
    + intros k dk gk Hk Hdk Hgk. destruct (decide (k = i)) as [->|Hne].
      * rewrite list_lookup_insert_eq by lia. congruence.
      * rewrite list_lookup_insert_ne by lia. apply Hdone; [lia | assumption..].
    + intros k Hk. rewrite list_lookup_insert_ne by lia. apply Htodo. lia.
  - exists d. rewrite Hrun. simpl. split; [reflexivity|]. split; [exact Hl|].
    intros i di gi Hdi Hgi. specialize (Hdone (Z.of_nat i) di gi).
    rewrite Nat2Z.id in Hdone. apply Hdone; [|assumption..].
    apply lookup_lt_Some in Hdi. lia.
Qed.

(** Momentum: [v[i] = momentum * v[i] - lr * grad[i]; data[i] += v[i]] *)
Lemma SGD_momentum_run (o : SGDOptimizer.t F) p param :
  fltb f0 (SGDOptimizer.momentum o) = true →
  (length (Param.data param) ≤ length (Param.grad param))%nat →
  sized (SGDOptimizer.velocity o) p (length (Param.data param)) →
  ∃ v d,
    SGDOptimizer.step o p param =
      Ok (SGDOptimizer.mk (SGDOptimizer.lr o) (SGDOptimizer.momentum o)
            (<[p := v]> (SGDOptimizer.velocity o)),
          Param.mk d (Param.grad param)) ∧
    length v = length (Param.data param) ∧
    length d = length (Param.data param) ∧
    ∀ (i : nat) vi di gi,
      slot (SGDOptimizer.velocity o) p (length (Param.data param)) !! i = Some vi →
      Param.data param !! i = Some di → Param.grad param !! i = Some gi →
      let vi' := fsub (fmul (SGDOptimizer.momentum o) vi)
                      (fmul (SGDOptimizer.lr o) gi) in
      v !! i = Some vi' ∧ d !! i = Some (fadd di vi').
Proof.
  intros Hm Hlen Hsz. unfold SGDOptimizer.step. rewrite Hm.
  set (data := Param.data param) in *. set (grad := Param.grad param) in *.
  rewrite slot_code.
  set (v0 := slot (SGDOptimizer.velocity o) p (length data)).
  assert (length v0 = length data) as Hv0 by exact Hsz.
  set (upd := λ vi gi, fsub (fmul (SGDOptimizer.momentum o) vi)
                            (fmul (SGDOptimizer.lr o) gi)).
  destruct (for_int_inv
    (λ i (st : list F * list F),
       length st.1 = length data ∧ length st.2 = length data ∧
       (∀ k vi di gi, 0 ≤ k < i → v0 !! Z.to_nat k = Some vi →
          data !! Z.to_nat k = Some di → grad !! Z.to_nat k = Some gi →
          st.1 !! Z.to_nat k = Some (upd vi gi) ∧
          st.2 !! Z.to_nat k = Some (fadd di (upd vi gi))) ∧
       (∀ k, i ≤ k → st.1 !! Z.to_nat k = v0 !! Z.to_nat k ∧
                     st.2 !! Z.to_nat k = data !! Z.to_nat k))
    (λ i '(v, d),
       vi ← vget v i;
       gi ← vget grad i;
       v ← vset v i (fsub (fmul (SGDOptimizer.momentum o) vi)
                          (fmul (SGDOptimizer.lr o) gi));
       di ← vget d i;
       vi ← vget v i;
       d ← vset d i (fadd di vi);
       Ok (v, d))
    0 (Z.of_nat (length data)) (v0, data)) as ([v d] & Hrun & Hlv & Hld & Hdone & _).
  - lia.
  - simpl. split; [exact Hv0|]. split; [reflexivity|].
    split; [intros; lia | intros; split; reflexivity].
  - intros i [v d] Hi (Hlv & Hld & Hdone & Htodo). simpl in *.
    destruct (lookup_Z_lt v0 i) as [vi Hvi]; [lia|].
    destruct (lookup_Z_lt data i) as [di Hdi]; [lia|].
    destruct (lookup_Z_lt grad i) as [gi Hgi]; [lia|].
    destruct (Htodo i) as [Hv Hd]; [lia|].
    exists (<[Z.to_nat i := upd vi gi]> v, <[Z.to_nat i := fadd di (upd vi gi)]> d).
    split; [|split; [|split; [|split]]]; simpl.
    + rewrite (vget_lookup v i vi) by (first [lia | rewrite Hv; exact Hvi]). simpl.
      rewrite (vget_lookup grad i gi) by (first [lia | exact Hgi]). simpl.
      rewrite vset_in_range by lia. simpl.
      rewrite (vget_lookup d i di) by (first [lia | rewrite Hd; exact Hdi]). simpl.
      rewrite (vget_lookup _ i (upd vi gi))
        by (first [lia | apply list_lookup_insert_eq; lia]). simpl.
      rewrite vset_in_range by lia. reflexivity.
    + rewrite length_insert. exact Hlv.
    + rewrite length_insert. exact Hld.
    + intros k vk dk gk Hk Hvk Hdk Hgk. destruct (decide (k = i)) as [->|Hne].
      * rewrite !list_lookup_insert_eq by lia. split; congruence.
      * rewrite !list_lookup_insert_ne by lia. apply Hdone; [lia | assumption..].
    + intros k Hk. rewrite !list_lookup_insert_ne by lia. apply Htodo. lia.
  - simpl in *. exists v, d. rewrite Hrun. simpl.
    split; [reflexivity|]. split; [exact Hlv|]. split; [exact Hld|].
    intros i vi di gi Hvi Hdi Hgi. simpl.
    specialize (Hdone (Z.of_nat i) vi di gi). rewrite Nat2Z.id in Hdone.
    apply Hdone; [|assumption..]. apply lookup_lt_Some in Hdi. lia.
Qed.
End OptimizerFacts.


Section AdamFacts.
Context {F : Type} `{Arith F} `{Libm F}.
Implicit Types (o : AdamOptimizer.t F) (p : loc) (param : Param.t F).

Lemma moments_code o p n :
  moments_ok o p n →
  (if vempty (default [] (AdamOptimizer.m o !! p))
   then (vresize n f0 (default [] (AdamOptimizer.m o !! p)),
         vresize n f0 (default [] (AdamOptimizer.v o !! p)))
   else (default [] (AdamOptimizer.m o !! p), default [] (AdamOptimizer.v o !! p)))
  = (slot (AdamOptimizer.m o) p n, slot (AdamOptimizer.v o) p n) ∧
  length (slot (AdamOptimizer.m o) p n) = n ∧
  length (slot (AdamOptimizer.v o) p n) = n.
Proof.
  unfold slot. intros [[-> ->]|(mv & vv & -> & -> & Hm & Hv)]; simpl.
  - rewrite vresize_nil, length_replicate. auto.
  - destruct mv as [|x xs], vv as [|y ys]; simpl in *; subst; try discriminate.
    + auto.
    + auto.
Qed.

(** Every successful call advances the one counter of the optimizer by
    one, whatever the parameter. *)
Lemma Adam_step_counter o p param o' q :
  AdamOptimizer.step o p param = Ok (o', q) →
  AdamOptimizer.timestep o' = AdamOptimizer.timestep o + 1 ∧
  AdamOptimizer.lr o' = AdamOptimizer.lr o ∧
  AdamOptimizer.beta1 o' = AdamOptimizer.beta1 o ∧
  AdamOptimizer.beta2 o' = AdamOptimizer.beta2 o ∧
  AdamOptimizer.eps o' = AdamOptimizer.eps o.
Proof.
  unfold AdamOptimizer.step.
  destruct (AdamOptimizer.timestep o <? INT_MAX); simpl; [|discriminate].
  destruct (if vempty _ then _ else _) as [m0 v0].
  intros ([[mv vv] d] & _ & [= <- _])%bind_Ok. simpl. auto.
Qed.

Lemma Adam_steps_counter ps : ∀ o done o' qs,
  for_each ps (λ '(p, param) '(o, done),
    '(o, q) ← AdamOptimizer.step o p param;
    Ok (o, done ++ [q])) (o, done) = Ok (o', qs) →
  AdamOptimizer.timestep o' = AdamOptimizer.timestep o + Z.of_nat (length ps).
Proof.
  induction ps as [|[p param] ps IH]; intros o done o' qs; simpl.
  - intros [= <- _]. lia.
  - intros ([o1 d1] & ([o2 q] & Hstep & [= <- <-])%bind_Ok & Hrest)%bind_Ok.
    apply IH in Hrest. apply Adam_step_counter in Hstep as (Hts & _). lia.
Qed.

Lemma Adam_run o p param :
  AdamOptimizer.timestep o < INT_MAX →
  (length (Param.data param) ≤ length (Param.grad param))%nat →
  moments_ok o p (length (Param.data param)) →
  let ts := AdamOptimizer.timestep o + 1 in
  ∃ mv vv d,
    AdamOptimizer.step o p param =
      Ok (AdamOptimizer.mk (AdamOptimizer.lr o) (AdamOptimizer.beta1 o)
            (AdamOptimizer.beta2 o) (AdamOptimizer.eps o) ts
            (<[p := mv]> (AdamOptimizer.m o)) (<[p := vv]> (AdamOptimizer.v o)),
          Param.mk d (Param.grad param)) ∧
    length mv = length (Param.data param) ∧
    length vv = length (Param.data param) ∧
    length d = length (Param.data param) ∧
    ∀ (i : nat) mi vi di gi,
      slot (AdamOptimizer.m o) p (length (Param.data param)) !! i = Some mi →
      slot (AdamOptimizer.v o) p (length (Param.data param)) !! i = Some vi →
      Param.data param !! i = Some di → Param.grad param !! i = Some gi →
      let mi' := fadd (fmul (AdamOptimizer.beta1 o) mi)
                      (fmul (fsub f1 (AdamOptimizer.beta1 o)) gi) in
      let vi' := fadd (fmul (AdamOptimizer.beta2 o) vi)
                      (fmul (fmul (fsub f1 (AdamOptimizer.beta2 o)) gi) gi) in
      mv !! i = Some mi' ∧ vv !! i = Some vi' ∧
      d !! i = Some (fsub di
                 (fdiv (fmul (AdamOptimizer.lr o) (AdamOptimizer.m_hat o ts mi'))
                       (fadd (fsqrt (AdamOptimizer.v_hat o ts vi'))
                             (AdamOptimizer.eps o)))).
Proof.
  intros Hts Hlen Hok ts. unfold AdamOptimizer.step. cbv zeta.
  rewrite (proj2 (Z.ltb_lt _ _) Hts).
  set (data := Param.data param) in *. set (grad := Param.grad param) in *.
  destruct (moments_code o p (length data) Hok) as (-> & Hlm & Hlv).
  simpl. fold ts.
  set (m0 := slot (AdamOptimizer.m o) p (length data)) in *.
  set (v0 := slot (AdamOptimizer.v o) p (length data)) in *.
  set (updm := λ mi gi, fadd (fmul (AdamOptimizer.beta1 o) mi)
                             (fmul (fsub f1 (AdamOptimizer.beta1 o)) gi)).
  set (updv := λ vi gi, fadd (fmul (AdamOptimizer.beta2 o) vi)
                             (fmul (fmul (fsub f1 (AdamOptimizer.beta2 o)) gi) gi)).
  set (updd := λ di mi' vi',
         fsub di (fdiv (fmul (AdamOptimizer.lr o) (AdamOptimizer.m_hat o ts mi'))
                       (fadd (fsqrt (AdamOptimizer.v_hat o ts vi'))
                             (AdamOptimizer.eps o)))).
  destruct (for_int_inv
    (λ i (st : list F * list F * list F),
       length st.1.1 = length data ∧ length st.1.2 = length data ∧
       length st.2 = length data ∧
       (∀ k mi vi di gi, 0 ≤ k < i → m0 !! Z.to_nat k = Some mi →
          v0 !! Z.to_nat k = Some vi → data !! Z.to_nat k = Some di →
          grad !! Z.to_nat k = Some gi →
          st.1.1 !! Z.to_nat k = Some (updm mi gi) ∧
          st.1.2 !! Z.to_nat k = Some (updv vi gi) ∧
          st.2 !! Z.to_nat k = Some (updd di (updm mi gi) (updv vi gi))) ∧
       (∀ k, i ≤ k → st.1.1 !! Z.to_nat k = m0 !! Z.to_nat k ∧
                     st.1.2 !! Z.to_nat k = v0 !! Z.to_nat k ∧
                     st.2 !! Z.to_nat k = data !! Z.to_nat k))
    (λ i '(m_vec, v_vec, d),
      mi ← vget m_vec i;
      gi ← vget grad i;
      m_vec ← vset m_vec i (fadd (fmul (AdamOptimizer.beta1 o) mi)
                                 (fmul (fsub f1 (AdamOptimizer.beta1 o)) gi));
      vi ← vget v_vec i;
      v_vec ← vset v_vec i (fadd (fmul (AdamOptimizer.beta2 o) vi)
                                 (fmul (fmul (fsub f1 (AdamOptimizer.beta2 o)) gi) gi));
      mi ← vget m_vec i;
      vi ← vget v_vec i;
      di ← vget d i;
      d ← vset d i (fsub di (fdiv (fmul (AdamOptimizer.lr o) (AdamOptimizer.m_hat o ts mi))
                                  (fadd (fsqrt (AdamOptimizer.v_hat o ts vi))
                                        (AdamOptimizer.eps o))));
      Ok (m_vec, v_vec, d))
    0 (Z.of_nat (length data)) (m0, v0, data))
    as ([[mv vv] d] & Hrun & Hl1 & Hl2 & Hl3 & Hdone & _).
  - lia.
  - simpl. do 3 (split; [first [assumption | reflexivity]|]).
    split; [intros; lia | intros; auto].
  - intros i [[mv vv] d] Hi (Hl1 & Hl2 & Hl3 & Hdone & Htodo). simpl in *.
    destruct (lookup_Z_lt m0 i) as [mi Hmi]; [lia|].
    destruct (lookup_Z_lt v0 i) as [vi Hvi]; [lia|].
    destruct (lookup_Z_lt data i) as [di Hdi]; [lia|].
    destruct (lookup_Z_lt grad i) as [gi Hgi]; [lia|].
    destruct (Htodo i) as (Hm & Hv & Hd); [lia|].
    exists (<[Z.to_nat i := updm mi gi]> mv, <[Z.to_nat i := updv vi gi]> vv,
            <[Z.to_nat i := updd di (updm mi gi) (updv vi gi)]> d).
    split; [|split; [|split; [|split; [|split]]]]; simpl.
    + rewrite (vget_lookup mv i mi); [| lia | rewrite Hm; exact Hmi]. simpl.
      rewrite (vget_lookup grad i gi) by (first [lia | exact Hgi]). simpl.
      rewrite vset_in_range by lia. simpl.
      rewrite (vget_lookup vv i vi) by (first [lia | rewrite Hv; exact Hvi]). simpl.
      rewrite vset_in_range by lia. simpl.
      rewrite (vget_lookup (<[Z.to_nat i := updm mi gi]> mv) i (updm mi gi))
        by (first [lia | apply list_lookup_insert_eq; lia]). simpl.
      rewrite (vget_lookup (<[Z.to_nat i := updv vi gi]> vv) i (updv vi gi))
        by (first [lia | apply list_lookup_insert_eq; lia]). simpl.
      rewrite (vget_lookup d i di) by (first [lia | rewrite Hd; exact Hdi]). simpl.
      rewrite vset_in_range by lia. reflexivity.
    + rewrite length_insert. exact Hl1.
    + rewrite length_insert. exact Hl2.
    + rewrite length_insert. exact Hl3.
    + intros k mk vk dk gk Hk Hmk Hvk Hdk Hgk. destruct (decide (k = i)) as [->|Hne].
      * rewrite !list_lookup_insert_eq by lia. repeat split; congruence.
      * rewrite !list_lookup_insert_ne by lia. apply Hdone; [lia | assumption..].
    + intros k Hk. rewrite !list_lookup_insert_ne by lia. apply Htodo. lia.
  - simpl in *. exists mv, vv, d. rewrite Hrun. simpl.
    split; [reflexivity|]. do 3 (split; [assumption|]).
    intros i mi vi di gi Hmi Hvi Hdi Hgi. simpl.
    specialize (Hdone (Z.of_nat i) mi vi di gi). rewrite Nat2Z.id in Hdone.
    apply Hdone; [|assumption..]. apply lookup_lt_Some in Hdi. lia.
Qed.

(** The precondition on the moment tables holds for a new optimizer and
    is re-established by every step. *)
Lemma moments_ok_make (lr b1 b2 e : F) p n :
  moments_ok (AdamOptimizer.make lr b1 b2 e) p n.
Proof. left. split; apply lookup_empty. Qed.

Lemma Adam_step_moments_ok o p param o' q :
  AdamOptimizer.timestep o < INT_MAX →
  (length (Param.data param) ≤ length (Param.grad param))%nat →
  moments_ok o p (length (Param.data param)) →
  AdamOptimizer.step o p param = Ok (o', q) →
  moments_ok o' p (length (Param.data q)).
Proof.
  intros Hts Hlen Hok Hstep.
  destruct (Adam_run o p param Hts Hlen Hok) as (mv & vv & d & Hrun & Hlm & Hlv & Hld & _).
  rewrite Hrun in Hstep. injection Hstep as <- <-. simpl.
  right. exists mv, vv. simpl. rewrite !lookup_insert_eq. repeat split; congruence.
Qed.
End AdamFacts.


(** ** Which faults a run can end in *)

Section NullFree.
Lemma null_free_Ok {A} (a : A) : null_free (Ok a).
Proof. discriminate. Qed.

Lemma null_free_Fault {A} (e : fault) : e ≠ NullDereference → null_free (@Fault A e).
Proof. intros Hne [= ->]. contradiction. Qed.

Lemma null_free_bind {A B} (m : result A) (f : A → result B) :
  null_free m → (∀ a, null_free (f a)) → null_free (m ≫= f).
Proof.
  intros Hm Hf. destruct m as [a|e]; simpl; [apply Hf|].
  intros [= ->]. apply Hm. reflexivity.
Qed.

Lemma null_free_for_int {S} (body : Z → S → result S) lo hi s :
  (∀ i s, null_free (body i s)) → null_free (for_int lo hi body s).
Proof.
  intros Hb Hf. apply (for_int_fault (λ e, e ≠ NullDereference)) in Hf; [congruence|].
  intros i s' e He ->. exact (Hb i s' He).
Qed.

Lemma null_free_for_each {A S} (body : A → S → result S) xs s :
  (∀ x s, null_free (body x s)) → null_free (for_each xs body s).
Proof.
  intros Hb Hf. apply (for_each_fault (λ e, e ≠ NullDereference)) in Hf; [congruence|].
  intros x s' e He ->. exact (Hb x s' He).
Qed.

Lemma null_free_assert c : null_free (assert c).
Proof. destruct c; discriminate. Qed.

Lemma null_free_vget {A} (v : list A) i : null_free (vget v i).
Proof. intros Hf. apply vget_fault in Hf. discriminate. Qed.

Lemma null_free_vset {A} (v : list A) i x : null_free (vset v i x).
Proof. intros Hf. apply vset_fault in Hf. discriminate. Qed.

Lemma null_free_deref {A} (x : A) : null_free (deref (Some x)).
Proof. discriminate. Qed.
End NullFree.

Create HintDb null_free.
#[local] Hint Resolve null_free_Ok null_free_assert null_free_vget null_free_vset
  null_free_deref : null_free.

(** Walks through a monadic body: binds, loops, and the pairs a loop
    threads. *)
Ltac null_free_step :=
  match goal with
  | |- null_free (Ok _) => apply null_free_Ok
  | |- null_free (mret _) => apply null_free_Ok
  | |- null_free (deref (Some ?x) ≫= ?f) => change (null_free (f x)); cbv beta
  | |- null_free (_ ≫= _) => apply null_free_bind; [|intros ?]
  | |- null_free (for_int _ _ _ _) => apply null_free_for_int; intros ? ?
  | |- null_free (for_each _ _ _) => apply null_free_for_each; intros ? ?
  | |- null_free (Fault _) => apply null_free_Fault; discriminate
  | |- null_free (let '(_, _) := ?x in _) => destruct x
  | |- null_free (if ?c then _ else _) => destruct c
  | |- null_free (match ?x with _ => _ end) => destruct x
  | |- _ => solve [auto with null_free]
  end.
Ltac null_free_walk := repeat null_free_step.

Section NullFreeCode.
Context {F : Type} `{Arith F} `{Libm F}.

Lemma null_free_at (A : Tensor F) r c : null_free (at_ A r c).
Proof. apply null_free_vget. Qed.

Lemma null_free_put (A : Tensor F) r c x : null_free (put A r c x).
Proof. unfold put. null_free_walk. Qed.

Hint Resolve null_free_at null_free_put : null_free.

Lemma null_free_matmul (A B : Tensor F) : null_free (matmul A B).
Proof. unfold matmul. null_free_walk. Qed.

Lemma null_free_add_bias (A : Tensor F) b : null_free (add_bias A b).
Proof. unfold add_bias. null_free_walk. Qed.

Lemma null_free_transpose (A : Tensor F) : null_free (transpose A).
Proof. unfold transpose. null_free_walk. Qed.

Lemma null_free_argmax (A : Tensor F) : null_free (argmax A).
Proof. unfold argmax. null_free_walk. Qed.

Lemma null_free_softmax (X : Tensor F) : null_free (Activation.softmax X).
Proof. unfold Activation.softmax. null_free_walk. Qed.

Hint Resolve null_free_matmul null_free_add_bias null_free_transpose
  null_free_argmax null_free_softmax : null_free.

Lemma null_free_Activation_forward a (X : Tensor F) :
  null_free (Activation.forward a X).
Proof. unfold Activation.forward. null_free_walk. Qed.

Lemma null_free_Activation_backward a (dOut : Tensor F) :
  null_free (Activation.backward a dOut).
Proof. unfold Activation.backward. null_free_walk. Qed.

Hint Resolve null_free_Activation_forward null_free_Activation_backward : null_free.

Lemma null_free_DenseLayer_forward L (X : Tensor F) :
  null_free (DenseLayer.forward L X).
Proof. unfold DenseLayer.forward. null_free_walk. Qed.

Lemma null_free_DenseLayer_backward L (dOut : Tensor F) :
  null_free (DenseLayer.backward L dOut).
Proof. unfold DenseLayer.backward, DenseLayer.bias_sums. null_free_walk. Qed.

Hint Resolve null_free_DenseLayer_forward null_free_DenseLayer_backward : null_free.

Lemma null_free_layer_at (h : Model.heap F) l : null_free (Model.layer_at h l).
Proof. unfold Model.layer_at. null_free_walk. Qed.

Hint Resolve null_free_layer_at : null_free.

Lemma null_free_forward_internal m (h : Model.heap F) X :
  null_free (Model.forward_internal m h X).
Proof. unfold Model.forward_internal. null_free_walk. Qed.

Lemma null_free_backward_internal m (h : Model.heap F) G :
  null_free (Model.backward_internal m h G).
Proof. unfold Model.backward_internal. null_free_walk. Qed.

(** With sparse labels the loss never touches the dense-target pointer. *)
Lemma null_free_Loss_forward_sparse (l : Loss.t F) pred ys dense :
  Loss.type l = SPARSE_CATEGORICAL_CROSS_ENTROPY →
  null_free (Loss.forward l pred ys dense).
Proof.
  intros Hty. unfold Loss.forward. rewrite Hty.
  unfold Loss.sparse_categorical_cross_entropy. null_free_walk.
Qed.

Lemma null_free_Loss_backward_sparse (l : Loss.t F) pred ys dense :
  Loss.type l = SPARSE_CATEGORICAL_CROSS_ENTROPY →
  null_free (Loss.backward l pred ys dense).
Proof.
  intros Hty. unfold Loss.backward. rewrite Hty.
  unfold Loss.sparse_categorical_cross_entropy_backward. null_free_walk.
Qed.

Hint Resolve null_free_forward_internal null_free_backward_internal
  null_free_Loss_forward_sparse null_free_Loss_backward_sparse : null_free.

Lemma null_free_fit m (h : Model.heap F) X y epochs batch_size lf :
  Model.loss_fn m = Some lf →
  Loss.type lf = SPARSE_CATEGORICAL_CROSS_ENTROPY →
  null_free (Model.fit m h X y epochs batch_size).
Proof. intros Hlf Hty. unfold Model.fit. rewrite Hlf. null_free_walk. Qed.

Lemma null_free_evaluate m (h : Model.heap F) X y lf :
  Model.loss_fn m = Some lf →
  Loss.type lf = SPARSE_CATEGORICAL_CROSS_ENTROPY →
  null_free (Model.evaluate m h X y).
Proof. intros Hlf Hty. unfold Model.evaluate. rewrite Hlf. null_free_walk. Qed.

(** The other kinds dereference it first. *)
Lemma Loss_forward_null (l : Loss.t F) pred ys :
  Loss.type l ≠ SPARSE_CATEGORICAL_CROSS_ENTROPY →
  Loss.forward l pred ys None = Fault NullDereference.
Proof. unfold Loss.forward. destruct (Loss.type l); [reflexivity..|contradiction]. Qed.

Lemma Loss_backward_null (l : Loss.t F) pred ys :
  Loss.type l ≠ SPARSE_CATEGORICAL_CROSS_ENTROPY →
  Loss.backward l pred ys None = Fault NullDereference.
Proof. unfold Loss.backward. destruct (Loss.type l); [reflexivity..|contradiction]. Qed.

(** So the first example of a run with such a loss ends the run. *)
Lemma fit_null m (h : Model.heap F) X0 Xs y0 ys epochs batch_size lf opt h1 out :
  Model.loss_fn m = Some lf → Model.optimizer m = Some opt →
  Loss.type lf ≠ SPARSE_CATEGORICAL_CROSS_ENTROPY →
  0 < epochs →
  Model.forward_internal m h X0 = Ok (h1, out) →
  Model.fit m h (X0 :: Xs) (y0 :: ys) epochs batch_size = Fault NullDereference.
Proof.
  intros Hlf Hopt Hty Hep Hfw. unfold Model.fit. rewrite Hlf, Hopt.
  rewrite assert_true by reflexivity.
  change (Ok tt ≫= ?f) with (f tt). cbv beta.
  rewrite for_int_first by exact Hep. apply bind_Fault.
  rewrite for_int_first by (simpl length; lia). do 2 apply bind_Fault.
  change (vget (X0 :: Xs) 0) with (Ok X0).
  change (Ok X0 ≫= ?f) with (f X0). cbv beta.
  rewrite Hfw. change (Ok (h1, out) ≫= ?f) with (f (h1, out)). cbv beta iota.
  change (vget (y0 :: ys) 0) with (Ok y0).
  change (Ok y0 ≫= ?f) with (f y0). cbv beta.
  change (deref (Some lf)) with (Ok lf).
  change (Ok lf ≫= ?f) with (f lf). cbv beta.
  rewrite (Loss_forward_null lf out [y0] Hty). reflexivity.
Qed.

Lemma evaluate_null m (h : Model.heap F) X0 Xs y0 ys lf h1 out :
  Model.loss_fn m = Some lf →
  Loss.type lf ≠ SPARSE_CATEGORICAL_CROSS_ENTROPY →
  Model.forward_internal m h X0 = Ok (h1, out) →
  Model.evaluate m h (X0 :: Xs) (y0 :: ys) = Fault NullDereference.
Proof.
  intros Hlf Hty Hfw. unfold Model.evaluate. rewrite Hlf.
  rewrite assert_true by reflexivity.
  change (Ok tt ≫= ?f) with (f tt). cbv beta.
  rewrite for_int_first by (simpl length; lia). do 2 apply bind_Fault.
  change (vget (X0 :: Xs) 0) with (Ok X0).
  change (Ok X0 ≫= ?f) with (f X0). cbv beta.
  rewrite Hfw. change (Ok (h1, out) ≫= ?f) with (f (h1, out)). cbv beta iota.
  change (vget (y0 :: ys) 0) with (Ok y0).
  change (Ok y0 ≫= ?f) with (f y0). cbv beta.
  change (deref (Some lf)) with (Ok lf).
  change (Ok lf ≫= ?f) with (f lf). cbv beta.
  rewrite (Loss_forward_null lf out [y0] Hty). reflexivity.
Qed.
End NullFreeCode.

(** ** What training leaves alone *)

Section Frame.
Context {F : Type} `{Arith F} `{Libm F}.
Implicit Types (L : DenseLayer.t F) (h : Model.heap F).

Lemma same_weights_refl L : same_weights L L.
Proof. repeat split. Qed.

Lemma same_weights_trans L1 L2 L3 :
  same_weights L1 L2 → same_weights L2 L3 → same_weights L1 L3.
Proof. unfold same_weights. intuition congruence. Qed.

Lemma weights_kept_refl h : weights_kept h h.
Proof.
  intros l. destruct (h !! l); constructor. apply same_weights_refl.
Qed.

Lemma weights_kept_trans h1 h2 h3 :
  weights_kept h1 h2 → weights_kept h2 h3 → weights_kept h1 h3.
Proof.
  intros H12 H23 l. specialize (H12 l). specialize (H23 l).
  destruct H12 as [L1 L2 H12|]; inversion H23; subst; constructor.
  eapply same_weights_trans; eauto.
Qed.

Lemma weights_kept_insert h l L L' :
  h !! l = Some L → same_weights L L' → weights_kept h (<[l := L']> h).
Proof.
  intros Hl Hs l'. destruct (decide (l = l')) as [<-|Hne].
  - rewrite lookup_insert_eq, Hl. constructor. exact Hs.
  - rewrite lookup_insert_ne by exact Hne. apply weights_kept_refl.
Qed.

Lemma DenseLayer_forward_weights L X L' Y :
  DenseLayer.forward L X = Ok (L', Y) → same_weights L L'.
Proof.
  unfold DenseLayer.forward.
  intros (_ & _ & (out0 & _ & (out & _ & ([act Y'] & _ & [= <- _])%bind_Ok)%bind_Ok)%bind_Ok)%bind_Ok.
  repeat split.
Qed.

Lemma DenseLayer_backward_weights L dOut L' dX :
  DenseLayer.backward L dOut = Ok (L', dX) → same_weights L L'.
Proof.
  unfold DenseLayer.backward.
  intros (_ & _ & (_ & _ & (dA & _ & (X_T & _ & (gW & _ & (gb & _ & Hrest)%bind_Ok)%bind_Ok)%bind_Ok)%bind_Ok)%bind_Ok)%bind_Ok.
  simpl in Hrest. apply bind_Ok in Hrest as (W_T & _ & (dX' & _ & [= <- _])%bind_Ok).
  repeat split.
Qed.

Lemma layer_at_Ok h l L : Model.layer_at h l = Ok L → h !! l = Some L.
Proof. unfold Model.layer_at. destruct (h !! l); congruence. Qed.

Lemma forward_internal_weights m h X h' Y :
  Model.forward_internal m h X = Ok (h', Y) → weights_kept h h'.
Proof.
  unfold Model.forward_internal.
  apply (for_each_keeps (λ st : Model.heap F * Tensor F, weights_kept h st.1));
    [|apply weights_kept_refl].
  intros l [h1 x1] [h2 x2] Hk (L & HL%layer_at_Ok & ([L' x'] & Hfw & [= <- _])%bind_Ok)%bind_Ok.
  simpl in *. eapply weights_kept_trans; [exact Hk|].
  eapply weights_kept_insert; [exact HL|]. eapply DenseLayer_forward_weights, Hfw.
Qed.

Lemma backward_internal_weights m h G h' :
  Model.backward_internal m h G = Ok h' → weights_kept h h'.
Proof.
  unfold Model.backward_internal. intros ([h1 g1] & Hrun & [= <-])%bind_Ok.
  revert Hrun.
  apply (for_each_keeps (λ st : Model.heap F * Tensor F, weights_kept h st.1));
    [|apply weights_kept_refl].
  intros l [h2 x2] [h3 x3] Hk (L & HL%layer_at_Ok & ([L' x'] & Hbw & [= <- _])%bind_Ok)%bind_Ok.
  simpl in *. eapply weights_kept_trans; [exact Hk|].
  eapply weights_kept_insert; [exact HL|]. eapply DenseLayer_backward_weights, Hbw.
Qed.

Lemma fit_weights m h X y epochs batch_size h' out :
  Model.fit m h X y epochs batch_size = Ok (h', out) → weights_kept h h'.
Proof.
  unfold Model.fit. intros (_ & _ & Hrun)%bind_Ok. revert Hrun.
  apply (for_int_keeps
    (λ st : Model.heap F * list (Model.epoch_report F), weights_kept h st.1));
    [|apply weights_kept_refl].
  intros epoch [h1 o1] [h2 o2] Hk ([[h3 el] c] & Hrun & [= <- _])%bind_Ok.
  simpl in *. revert Hrun.
  apply (for_int_keeps
    (λ st : Model.heap F * F * Z, weights_kept h st.1.1)); [|exact Hk].
  intros i [[h4 el4] c4] [[h5 el5] c5] Hk4 (Xi & _ & ([h6 output] & Hfw & Hrest)%bind_Ok)%bind_Ok.
  apply bind_Ok in Hrest as (yi & _ & (lf & _ & (loss & _ & (am & _ & (grad & _ & (h7 & Hbw & [= <- _ _])%bind_Ok)%bind_Ok)%bind_Ok)%bind_Ok)%bind_Ok).
  simpl in *. unfold Model.optimizer_step.
  eapply weights_kept_trans; [exact Hk4|].
  eapply weights_kept_trans; [eapply forward_internal_weights, Hfw|].
  eapply backward_internal_weights, Hbw.
Qed.
End Frame.


(** * The claims *)

(** ** C1: the gradient of the sparse categorical cross-entropy *)




(** ** C2: softmax backward is the identity *)

Section SoftmaxBackward.
Context {F : Type} `{Arith F} `{Libm F}.

(** C2. For an activation of kind softmax, after any forward call, the
    backward pass on a gradient [dOut] of the shape of the cached output
    returns [dOut] itself, unchanged: the table of derivatives is not
    consulted. *)
Theorem softmax_backward_returns_dOut
    (a a' : Activation.t F) (X Y dOut : Tensor F) :
  Activation.type a = SOFTMAX →
  Activation.forward a X = Ok (a', Y) →
  rows dOut = rows Y → cols dOut = cols Y →
  Activation.backward a' dOut = Ok dOut.
Proof.
  intros Hty Hfw Hr Hc.
  destruct (Activation_forward_inv a X a' Y Hfw) as (Hty' & _ & _ & _ & Hout & _).
  unfold Activation.backward. rewrite Hout.
  rewrite !assert_true by (apply Z.eqb_eq; assumption). simpl.
  destruct (decide (Activation.type a' = SOFTMAX)) as [_|Hne]; [reflexivity|].
  congruence.
Qed.
End SoftmaxBackward.

(** A softmax activation run on the row [[1000; 1; 0]], then asked to
    propagate the gradient [[3; 4; 5]] *)
Lemma softmax_backward_returns_dOut_witness :
  ∃ a' Y,
    Activation.forward (Activation.make_default SOFTMAX)
      (mkTensor 1 3 [1000; 1; 0]%R) = Ok (a', Y) ∧
    Activation.backward a' (mkTensor 1 3 [3; 4; 5]%R) = Ok (mkTensor 1 3 [3; 4; 5]%R).
Proof.
  eexists _, _. split.
  - vm_compute. reflexivity.
  - eapply (softmax_backward_returns_dOut (Activation.make_default SOFTMAX)
              _ (mkTensor 1 3 [1000; 1; 0]%R)).
    + reflexivity.
    + vm_compute. reflexivity.
    + reflexivity.
    + reflexivity.
Defined.

(** ** C3: the backward pass of a dense layer *)

Section DenseLayerClaim.
Context {F : Type} `{Arith F} `{Libm F}.

(** C3. After a forward call with input [X], the backward pass on a
    gradient [dOut] with as many columns as the weights and as many rows
    as [X] computes [dAct = activation.backward(dOut)], stores
    [transpose(X) * dAct] as the weight gradient and the column sums of
    [dAct] as the bias gradient, and returns [dAct * transpose(W)].  The
    stored gradients are overwritten, not accumulated: a layer that
    differs only in what its gradient buffers held ends with the same
    gradients. *)
Theorem DenseLayer_backward_gradients
    (L L1 : DenseLayer.t F) (X Y dOut : Tensor F) :
  wf X → wf (DenseLayer.W L) →
  Z.of_nat (length (DenseLayer.grad_b L)) = cols (DenseLayer.W L) →
  DenseLayer.forward L X = Ok (L1, Y) →
  wf dOut → cols dOut = cols (DenseLayer.W L) → rows dOut = rows X →
  ∃ dAct X_T W_T L2 dX,
    Activation.backward (DenseLayer.activation L1) dOut = Ok dAct ∧
    DenseLayer.backward L1 dOut = Ok (L2, dX) ∧
    (* the weight gradient *)
    transpose X = Ok X_T ∧ matmul X_T dAct = Ok (DenseLayer.grad_W L2) ∧
    rows (DenseLayer.grad_W L2) = cols X ∧
    cols (DenseLayer.grad_W L2) = cols (DenseLayer.W L) ∧
    (∀ k j, 0 ≤ k < cols X → 0 ≤ j < cols (DenseLayer.W L) →
       at_ (DenseLayer.grad_W L2) k j
       = Ok (fsum (rows X) (λ i, fmul (ent X i k) (ent dAct i j)))) ∧
    (* the bias gradient *)
    length (DenseLayer.grad_b L2) = length (DenseLayer.grad_b L) ∧
    (∀ j, 0 ≤ j < cols (DenseLayer.W L) →
       vget (DenseLayer.grad_b L2) j = Ok (col_sum dAct j)) ∧
    (* the gradient with respect to the input *)
    transpose (DenseLayer.W L) = Ok W_T ∧ matmul dAct W_T = Ok dX ∧
    rows dX = rows X ∧ cols dX = rows (DenseLayer.W L) ∧
    (∀ i k, 0 ≤ i < rows X → 0 ≤ k < rows (DenseLayer.W L) →
       at_ dX i k
       = Ok (fsum (cols (DenseLayer.W L))
               (λ j, fmul (ent dAct i j) (ent (DenseLayer.W L) k j)))) ∧
    (* the copies handed to the optimizer *)
    Param.grad (DenseLayer.W_param L2) = data (DenseLayer.grad_W L2) ∧
    Param.grad (DenseLayer.b_param L2) = DenseLayer.grad_b L2 ∧
    (* overwritten, not accumulated *)
    (∀ gW' gb' Wp' bp',
       length gb' = length (DenseLayer.grad_b L) →
       ∃ L2',
         DenseLayer.backward
           (DenseLayer.mk (DenseLayer.W L1) (DenseLayer.b L1) gW' gb' Wp' bp'
              (DenseLayer.input_cache L1) (DenseLayer.activation L1)) dOut
         = Ok (L2', dX) ∧
         DenseLayer.grad_W L2' = DenseLayer.grad_W L2 ∧
         DenseLayer.grad_b L2' = DenseLayer.grad_b L2).
Proof.
  intros HX HW Hgb Hfw Hd Hdc Hdr.
  pose proof (DenseLayer_forward_ready L X L1 Y dOut HX HW Hgb Hfw Hdc Hdr) as Hready.
  destruct (DenseLayer_forward_inv L X L1 Y HX HW Hfw)
    as (EW & Eb & EgW & Egb & _ & _ & EX & _).
  destruct (DenseLayer_backward_run L1 dOut Hd Hready)
    as (dAct & X_T & W_T & gW & gb & dX & Hback & HwA & HrA & HcA & HXT & HgW & Hgbr
        & HWT & HdX & Hrun & (HwgW & HrgW & HcgW & HegW) & (Hgbl & Hgbe)
        & (HwdX & HrdX & HcdX & HedX)).
  rewrite EW, EX, Egb in *.
  eexists dAct, X_T, W_T, _, dX. split; [exact Hback|]. split; [exact Hrun|]. simpl.
  split; [exact HXT|]. split; [exact HgW|]. split; [exact HrgW|]. split; [exact HcgW|].
  split.
  { intros k j Hk Hj. rewrite (at_ent gW k j HwgW) by (split; lia).
    rewrite HegW by lia. rewrite Hdr. reflexivity. }
  split; [exact Hgbl|]. split.
  { intros j Hj. apply vget_lookup; [lia | apply Hgbe; exact Hj]. }
  split; [exact HWT|]. split; [exact HdX|]. split; [congruence|]. split; [exact HcdX|].
  split.
  { intros i k Hi Hk. rewrite (at_ent dX i k HwdX) by (split; lia).
    rewrite HedX by lia. reflexivity. }
  split; [reflexivity|]. split; [reflexivity|].
  intros gW' gb' Wp' bp' Hlen.
  eexists. split.
  { unfold DenseLayer.backward. simpl.
    rewrite !assert_true by (apply Z.eqb_eq; congruence). simpl.
    rewrite Hback. simpl. rewrite HXT. simpl. rewrite HgW. simpl.
    unfold DenseLayer.bias_sums in Hgbr |- *. rewrite Hlen, Hgbr. simpl.
    rewrite HWT. simpl. rewrite HdX. reflexivity. }
  split; reflexivity.
Qed.
End DenseLayerClaim.

(** The example layer with ReLU, run forward on [[1 2]] and backward on
    [[1 -1]] *)
Lemma DenseLayer_backward_gradients_witness :
  ∃ L1 Y L2 dX,
    DenseLayer.forward (Examples.layer RELU) Examples.input = Ok (L1, Y) ∧
    DenseLayer.backward L1 Examples.upstream = Ok (L2, dX) ∧
    rows (DenseLayer.grad_W L2) = 2 ∧ cols (DenseLayer.grad_W L2) = 2 ∧
    length (DenseLayer.grad_b L2) = 2%nat ∧
    rows dX = 1 ∧ cols dX = 2.
Proof.
  assert (∃ r, DenseLayer.forward (Examples.layer RELU) Examples.input = Ok r)
    as [[L1 Y] Hfw] by (eexists; vm_compute; reflexivity).
  destruct (DenseLayer_backward_gradients (Examples.layer RELU) L1
              Examples.input Y Examples.upstream)
    as (dAct & X_T & W_T & L2 & dX & _ & Hbw & _ & _ & Hr & Hc & _ & Hl & _ & _ & _
        & Hrx & Hcx & _).
  - repeat split; simpl; lia.
  - repeat split; simpl; lia.
  - reflexivity.
  - exact Hfw.
  - repeat split; simpl; lia.
  - reflexivity.
  - reflexivity.
  - exists L1, Y, L2, dX. repeat split; assumption.
Defined.

(** ** C4: [argmax] on a tensor of several rows *)

(** C4 (the code departs from it). [argmax] scans every row, not row 0
    alone, and reduces the flat index of the overall maximum modulo the
    number of columns.  On [[1 2] [5 0]] it answers column 0, where row 0
    alone has its maximum in column 1; zeroing the second row changes the
    answer to 1, so the other rows do affect the result. *)
Theorem argmax_scans_every_row :
  argmax (Examples.b32_tensor 2 2 [1; 2; 5; 0]) = Ok 0 ∧
  argmax (Examples.b32_tensor 1 2 [1; 2]) = Ok 1 ∧
  argmax (Examples.b32_tensor 2 2 [1; 2; 0; 0]) = Ok 1.
Proof. repeat split; vm_compute; reflexivity. Qed.


(** ** C5: softmax forward *)

(** A softmax activation on a tensor with rows but no columns reads
    [X(i, 0)] past the end of the empty buffer. *)
Lemma softmax_forward_no_columns {F : Type} `{Arith F} `{Libm F}
    (a : Activation.t F) (X : Tensor F) :
  Activation.type a = SOFTMAX → wf X → cols X = 0 → 0 < rows X →
  Activation.forward a X = Fault OutOfBounds.
Proof.
  intros Hty HX Hc Hr. unfold Activation.forward. cbv zeta.
  destruct (for_cells2 (rows X) (cols X) (Tensor_new (rows X) (cols X))
              (λ i _, i) (λ _ j, j) (λ i j, ent X i j)
              (λ i j Y, x ← at_ X i j;
                 put Y i j (Activation.activate
                   (Activation.mk (Activation.type a) (Activation.alpha a)
                      (Activation.beta a) X (Activation.output_cache a)) x)))
    as (Y0 & Hrun & (HrY & HcY & HlY) & _).
  - apply Tensor_new_wf; lia.
  - lia.
  - lia.
  - intros i j ? ?. lia.
  - intros i j i' j' ? ?. lia.
  - intros i j C ? ?. lia.
  - rewrite Hrun, bind_Ok_l. simpl Activation.type.
    destruct (decide (Activation.type a = SOFTMAX)) as [_|Hne]; [|contradiction].
    assert (data Y0 = []) as Hd.
    { apply length_zero_iff_nil. rewrite HlY. simpl. rewrite length_replicate, Hc. lia. }
    unfold Activation.softmax. simpl in HrY. rewrite HrY.
    rewrite for_int_first by lia. cbv beta.
    assert (at_ Y0 0 0 = Fault OutOfBounds) as ->; [|reflexivity].
    unfold at_, vget. rewrite Hd.
    destruct (0 * cols Y0 + 0 <? 0); reflexivity.
Qed.

(** C5. For every input tensor with at least one column, and for every
    scalar type, softmax forward computes entry [(i, j)] of the output as
    [exp (X(i,j) - M) / S], where [M] is the maximum of row [i], found by
    a left-to-right scan, and [S] is the sum of the exponentials of the
    row, accumulated from zero left to right.  In exact arithmetic every
    output row then sums to 1 and every output entry is strictly positive.
    With rows but no columns the call reads out of bounds. *)
Theorem softmax_forward_normalizes :
  (∀ (F : Type) (AF : Arith F) (LF : Libm F) (a : Activation.t F) (X : Tensor F),
     Activation.type a = SOFTMAX → wf X → 0 < cols X →
     ∃ a' Y,
       Activation.forward a X = Ok (a', Y) ∧
       wf Y ∧ rows Y = rows X ∧ cols Y = cols X ∧
       ∀ i j, 0 ≤ i < rows X → 0 ≤ j < cols X →
         at_ Y i j =
         Ok (fdiv (fexp (fsub (ent X i j) (row_max X i)))
                  (fsum (cols X) (λ k, fexp (fsub (ent X i k) (row_max X i)))))) ∧
  (∀ (a : Activation.t R) (X : Tensor R),
     Activation.type a = SOFTMAX → wf X → 0 < cols X →
     ∃ a' Y,
       Activation.forward a X = Ok (a', Y) ∧
       wf Y ∧ rows Y = rows X ∧ cols Y = cols X ∧
       ∀ i, 0 ≤ i < rows X →
         let M := row_max X i in
         let S := fsum (cols X) (λ j, exp (ent X i j - M)) in
         (* [M] is the maximum of row [i] *)
         (∀ j, 0 ≤ j < cols X → (ent X i j <= M)%R) ∧
         (∃ j, 0 ≤ j < cols X ∧ M = ent X i j) ∧
         (* the entries of the output row *)
         (∀ j, 0 ≤ j < cols X →
            at_ Y i j = Ok (exp (ent X i j - M) / S)%R ∧ (0 < ent Y i j)%R) ∧
         (* the output row sums to one *)
         fsum (cols X) (λ j, ent Y i j) = 1%R) ∧
  (∀ (F : Type) (AF : Arith F) (LF : Libm F) (a : Activation.t F) (X : Tensor F),
     Activation.type a = SOFTMAX → wf X → cols X = 0 → 0 < rows X →
     Activation.forward a X = Fault OutOfBounds).
Proof.
  split; [|split].
  - intros F AF LF a X Hty HX Hcols.
    destruct (Activation_forward_softmax a X Hty HX Hcols)
      as (a' & Y & Hfw & HwY & Hr & Hc & Hent).
    exists a', Y. split; [exact Hfw|]. do 3 (split; [assumption|]).
    intros i j Hi Hj. rewrite (at_ent Y i j HwY) by (split; lia).
    rewrite (Hent i j Hi Hj). reflexivity.
  - intros a X Hty HX Hcols.
    destruct (Activation_forward_softmax a X Hty HX Hcols)
      as (a' & Y & Hfw & HwY & Hr & Hc & Hent).
    exists a', Y. split; [exact Hfw|]. do 3 (split; [assumption|]).
    intros i Hi M S.
    destruct (R_row_max_spec X i Hcols) as [Hub Hatt].
    assert (0 < S)%R as HS.
    { apply R_fsum_pos; [exact Hcols|]. intros k Hk. apply exp_pos. }
    assert (∀ j, 0 ≤ j < cols X → ent Y i j = (exp (ent X i j - M) / S)%R) as HY.
    { intros j Hj. rewrite (Hent i j Hi Hj). reflexivity. }
    split; [exact Hub|]. split; [exact Hatt|]. split.
    + intros j Hj. split.
      * rewrite (at_ent Y i j HwY) by (split; lia). rewrite (HY j Hj). reflexivity.
      * rewrite (HY j Hj). apply Rdiv_lt_0_compat; [apply exp_pos | exact HS].
    + rewrite (fsum_ext (cols X) (λ j, ent Y i j) (λ j, (exp (ent X i j - M) / S)%R))
        by exact HY.
      rewrite (R_fsum_scale (cols X) (λ j, exp (ent X i j - M)) S).
      fold S. apply Rdiv_diag. lra.
  - intros F AF LF a X. apply softmax_forward_no_columns.
Qed.

(** The row [[1000; 1; 0]] of the specification's stability check, in
    binary32 *)
Lemma softmax_forward_normalizes_witness :
  let X := Examples.b32_tensor 1 3 [1000; 1; 0] in
  ∃ a' Y,
    Activation.forward (Activation.make_default SOFTMAX) X = Ok (a', Y) ∧
    at_ Y 0 1 =
    Ok (fdiv (fexp (fsub (ent X 0 1) (row_max X 0)))
             (fsum 3 (λ k, fexp (fsub (ent X 0 k) (row_max X 0))))).
Proof.
  intros X.
  destruct softmax_forward_normalizes as [Hgen _].
  destruct (Hgen B32.t _ _ (Activation.make_default SOFTMAX) X)
    as (a' & Y & Hfw & _ & _ & _ & Hent).
  - reflexivity.
  - repeat split; simpl; lia.
  - simpl. lia.
  - exists a', Y. split; [exact Hfw|]. apply (Hent 0 1); simpl; lia.
Defined.

(** The same row with any binary32 exponential that returns 1 at zero and
    underflows to [+0] at -999 and -1000, as every C library's does: the
    output row is [[1; 0; 0]]. *)
Lemma softmax_underflow (LF : Libm B32.t) :
  fexp (S754_zero false) = B32.one →
  fexp (of_int (-999)) = S754_zero false →
  fexp (of_int (-1000)) = S754_zero false →
  let X := Examples.b32_tensor 1 3 [1000; 1; 0] in
  ∃ a' Y,
    Activation.forward (Activation.make_default SOFTMAX) X = Ok (a', Y) ∧
    at_ Y 0 0 = Ok B32.one ∧
    at_ Y 0 1 = Ok (S754_zero false) ∧
    at_ Y 0 2 = Ok (S754_zero false).
Proof.
  intros H0 H999 H1000 X.
  destruct (Activation_forward_softmax (Activation.make_default SOFTMAX) X)
    as (a' & Y & Hfw & HwY & Hr & Hc & Hent).
  - reflexivity.
  - repeat split; simpl; lia.
  - simpl. lia.
  - exists a', Y. split; [exact Hfw|]. simpl in Hr, Hc.
    assert (∀ j, 0 ≤ j < 3 → at_ Y 0 j = Ok (softmax_entry X 0 j)) as Hat.
    { intros j Hj. rewrite (at_ent Y 0 j HwY) by (split; lia).
      rewrite (Hent 0 j) by (simpl; lia). reflexivity. }
    assert (shifted_exp X 0 0 = B32.one) as E0.
    { unfold shifted_exp.
      replace (fsub (ent X 0 0) (row_max X 0)) with (S754_zero false)
        by (vm_compute; reflexivity).
      exact H0. }
    assert (shifted_exp X 0 1 = S754_zero false) as E1.
    { unfold shifted_exp.
      replace (fsub (ent X 0 1) (row_max X 0)) with (of_int (-999) : B32.t)
        by (vm_compute; reflexivity).
      exact H999. }
    assert (shifted_exp X 0 2 = S754_zero false) as E2.
    { unfold shifted_exp.
      replace (fsub (ent X 0 2) (row_max X 0)) with (of_int (-1000) : B32.t)
        by (vm_compute; reflexivity).
      exact H1000. }
    assert (row_expsum X 0 = B32.one) as ES.
    { unfold row_expsum.
      change (fsum (cols X) (shifted_exp X 0))
        with (fadd (fadd (fadd f0 (shifted_exp X 0 0)) (shifted_exp X 0 1))
                   (shifted_exp X 0 2)).
      rewrite E0, E1, E2. vm_compute. reflexivity. }
    rewrite !Hat by lia. unfold softmax_entry. rewrite ES, E0, E1, E2.
    repeat split; vm_compute; reflexivity.
Qed.

(** In binary32 an output entry can be exactly zero: for the row
    [[1000; 1; 0]] the exponentials of -999 and -1000 underflow, the output
    row is [[1; 0; 0]], and its entry in column 1 is not positive. *)
Lemma softmax_forward_underflows_to_zero :
  ∃ a' Y,
    Activation.forward (Activation.make_default SOFTMAX)
      (Examples.b32_tensor 1 3 [1000; 1; 0]) = Ok (a', Y) ∧
    at_ Y 0 0 = Ok B32.one ∧
    at_ Y 0 1 = Ok (S754_zero false) ∧
    at_ Y 0 2 = Ok (S754_zero false) ∧
    fltb f0 (S754_zero false : B32.t) = false.
Proof.
  destruct (softmax_underflow B32_libm) as (a' & Y & Hfw & Y0 & Y1 & Y2);
    [vm_compute; reflexivity..|].
  exists a', Y. repeat split; try assumption.
Qed.


(** ** C6: the SGD update *)

(** C6. With a momentum factor that is zero (the test of the code is
    [momentum > 0.0f], so any factor that is not positive), [step] sets
    [data[i] := data[i] - lr * grad[i]] at every index and leaves the
    optimizer as it was.  With a positive factor it sets
    [v[i] := momentum * v[i] - lr * grad[i]] and then
    [data[i] := data[i] + v[i]], where [v] is the velocity kept under the
    address of the parameter, all zeros on first use.  In particular, one
    step of plain SGD with [lr = 0.1] on the scalar parameter
    [data = 1.0], [grad = 2.0] yields [data = 0.8]: in exact arithmetic,
    and bit for bit in binary32. *)
Theorem SGD_step_updates :
  (∀ (F : Type) (AF : Arith F) (o : SGDOptimizer.t F) (p : loc) (param : Param.t F),
     (length (Param.data param) ≤ length (Param.grad param))%nat →
     (fltb f0 (SGDOptimizer.momentum o) = false →
      ∃ d, SGDOptimizer.step o p param = Ok (o, Param.mk d (Param.grad param)) ∧
           length d = length (Param.data param) ∧
           ∀ (i : nat) di gi,
             Param.data param !! i = Some di → Param.grad param !! i = Some gi →
             d !! i = Some (fsub di (fmul (SGDOptimizer.lr o) gi))) ∧
     (fltb f0 (SGDOptimizer.momentum o) = true →
      sized (SGDOptimizer.velocity o) p (length (Param.data param)) →
      ∃ v d,
        SGDOptimizer.step o p param =
          Ok (SGDOptimizer.mk (SGDOptimizer.lr o) (SGDOptimizer.momentum o)
                (<[p := v]> (SGDOptimizer.velocity o)),
              Param.mk d (Param.grad param)) ∧
        length v = length (Param.data param) ∧
        length d = length (Param.data param) ∧
        (SGDOptimizer.velocity o !! p = None →
         slot (SGDOptimizer.velocity o) p (length (Param.data param))
         = replicate (length (Param.data param)) f0) ∧
        ∀ (i : nat) vi di gi,
          slot (SGDOptimizer.velocity o) p (length (Param.data param)) !! i = Some vi →
          Param.data param !! i = Some di → Param.grad param !! i = Some gi →
          let vi' := fsub (fmul (SGDOptimizer.momentum o) vi)
                          (fmul (SGDOptimizer.lr o) gi) in
          v !! i = Some vi' ∧ d !! i = Some (fadd di vi'))) ∧
  (∀ p, SGDOptimizer.step (SGDOptimizer.make 0.1%R) p (Param.mk [1%R] [2%R])
        = Ok (SGDOptimizer.make 0.1%R, Param.mk [0.8%R] [2%R])) ∧
  (∀ p, SGDOptimizer.step (SGDOptimizer.make (flit 0.1 : B32.t)) p
          (Param.mk [flit 1.0] [flit 2.0])
        = Ok (SGDOptimizer.make (flit 0.1), Param.mk [flit 0.8] [flit 2.0])).
Proof.
  split; [|split].
  - intros F AF o p param Hlen. split.
    + intros Hm. apply SGD_plain_run; assumption.
    + intros Hm Hsz.
      destruct (SGD_momentum_run o p param Hm Hlen Hsz) as (v & d & Hrun & Hlv & Hld & Hent).
      exists v, d. split; [exact Hrun|]. do 2 (split; [assumption|]).
      split; [apply slot_fresh | exact Hent].
  - intros p.
    destruct (SGD_plain_run (SGDOptimizer.make 0.1%R) p (Param.mk [1%R] [2%R]))
      as (d & -> & Hl & Hent).
    + apply Rltb_false, Rlt_irrefl.
    + simpl. lia.
    + destruct d as [|x [|y d]]; try discriminate Hl.
      specialize (Hent 0%nat 1%R 2%R eq_refl eq_refl).
      assert (x = 0.8%R) as -> by (injection Hent as ->; simpl; lra).
      reflexivity.
  - intros p. vm_compute. reflexivity.
Qed.

(** A momentum step on a parameter met for the first time, in binary32 *)
Lemma SGD_step_updates_witness :
  ∃ v d,
    SGDOptimizer.step (SGDOptimizer.make_momentum (flit 0.01 : B32.t) (flit 0.9))
      1%positive (Param.mk [flit 1.0; flit 2.0] [flit 0.5; flit 0.25])
    = Ok (SGDOptimizer.mk (flit 0.01) (flit 0.9) (<[1%positive := v]> ∅),
          Param.mk d [flit 0.5; flit 0.25]) ∧
    length v = 2%nat ∧ length d = 2%nat.
Proof.
  destruct (proj1 SGD_step_updates B32.t _
              (SGDOptimizer.make_momentum (flit 0.01) (flit 0.9)) 1%positive
              (Param.mk [flit 1.0; flit 2.0] [flit 0.5; flit 0.25]))
    as [_ Hmom].
  - simpl. lia.
  - destruct Hmom as (v & d & Hrun & Hlv & Hld & _).
    + vm_compute. reflexivity.
    + reflexivity.
    + exists v, d. split; [exact Hrun|]. split; assumption.
Defined.

(** ** C7: the step counter of the adaptive optimizer *)

Section AdamClaim.
Context {F : Type} `{Arith F} `{Libm F}.

(** C7. The adaptive optimizer keeps one step counter per instance,
    shared by every parameter it updates.  Each successful [step]
    increments it by exactly one, whatever the parameter and its shape,
    so after a sequence of calls it has advanced by the number of calls;
    and the update of a call uses the incremented counter [t] in
    [m_hat = m / (1 - beta1^t)], [v_hat = v / (1 - beta2^t)] and
    [data -= lr * m_hat / (sqrt(v_hat) + eps)]. *)
Theorem Adam_shared_step_counter (o : AdamOptimizer.t F) :
  (∀ p param o' q,
     AdamOptimizer.step o p param = Ok (o', q) →
     AdamOptimizer.timestep o' = AdamOptimizer.timestep o + 1) ∧
  (∀ ps o' qs,
     Adam_steps o ps = Ok (o', qs) →
     AdamOptimizer.timestep o' = AdamOptimizer.timestep o + Z.of_nat (length ps)) ∧
  (∀ p param,
     AdamOptimizer.timestep o < INT_MAX →
     (length (Param.data param) ≤ length (Param.grad param))%nat →
     moments_ok o p (length (Param.data param)) →
     let t := AdamOptimizer.timestep o + 1 in
     ∃ o' d,
       AdamOptimizer.step o p param = Ok (o', Param.mk d (Param.grad param)) ∧
       AdamOptimizer.timestep o' = t ∧
       length d = length (Param.data param) ∧
       ∀ (i : nat) mi vi di gi,
         slot (AdamOptimizer.m o) p (length (Param.data param)) !! i = Some mi →
         slot (AdamOptimizer.v o) p (length (Param.data param)) !! i = Some vi →
         Param.data param !! i = Some di → Param.grad param !! i = Some gi →
         let m' := fadd (fmul (AdamOptimizer.beta1 o) mi)
                        (fmul (fsub f1 (AdamOptimizer.beta1 o)) gi) in
         let v' := fadd (fmul (AdamOptimizer.beta2 o) vi)
                        (fmul (fmul (fsub f1 (AdamOptimizer.beta2 o)) gi) gi) in
         let m_hat := fdiv m' (fsub f1 (fpow (AdamOptimizer.beta1 o) t)) in
         let v_hat := fdiv v' (fsub f1 (fpow (AdamOptimizer.beta2 o) t)) in
         AdamOptimizer.m o' !! p ≫= (.!! i) = Some m' ∧
         AdamOptimizer.v o' !! p ≫= (.!! i) = Some v' ∧
         d !! i = Some (fsub di (fdiv (fmul (AdamOptimizer.lr o) m_hat)
                                      (fadd (fsqrt v_hat) (AdamOptimizer.eps o))))).
Proof.
  split; [|split].
  - intros p param o' q Hstep. apply (Adam_step_counter o p param o' q Hstep).
  - intros ps o' qs. unfold Adam_steps. apply Adam_steps_counter.
  - intros p param Hts Hlen Hok t.
    destruct (Adam_run o p param Hts Hlen Hok)
      as (mv & vv & d & Hrun & Hlm & Hlv & Hld & Hent).
    eexists _, d. split; [exact Hrun|]. split; [reflexivity|]. split; [exact Hld|].
    intros i mi vi di gi Hmi Hvi Hdi Hgi. simpl.
    rewrite !lookup_insert_eq. simpl.
    apply (Hent i mi vi di gi Hmi Hvi Hdi Hgi).
Qed.
End AdamClaim.

(** One optimizer serving a parameter of two entries and then a parameter
    of one entry: the counter goes from 0 to 2. *)
Lemma Adam_shared_step_counter_witness :
  ∃ o' qs,
    Adam_steps (AdamOptimizer.make_default (flit 0.001 : R))
      [(1%positive, Param.mk [1; 2]%R [0.5; 0.25]%R);
       (2%positive, Param.mk [3]%R [1]%R)] = Ok (o', qs) ∧
    AdamOptimizer.timestep o' = 2.
Proof.
  assert (∃ r, Adam_steps (AdamOptimizer.make_default (flit 0.001 : R))
      [(1%positive, Param.mk [1; 2]%R [0.5; 0.25]%R);
       (2%positive, Param.mk [3]%R [1]%R)] = Ok r) as [[o' qs] Hrun]
    by (eexists; vm_compute; reflexivity).
  exists o', qs. split; [exact Hrun|].
  apply (proj1 (proj2 (Adam_shared_step_counter _)) _ _ _ Hrun).
Defined.


(** ** C8, C9, C10: the model *)

Section ModelClaims.
Context {F : Type} `{Arith F} `{Libm F}.
Implicit Types (m : Model.t F) (h : Model.heap F).

(** C8. [fit] leaves the weights and the bias of every layer as they
    were, in the canonical buffers [W], [b] and in the data buffers handed
    to the optimizer: its update hook does nothing, so a run of [fit]
    changes gradient buffers and caches only. *)
Theorem fit_leaves_weights_unchanged
    m h (X : list (Tensor F)) (y : list Z) (epochs batch_size : Z) h' out :
  Model.fit m h X y epochs batch_size = Ok (h', out) →
  (∀ l L, h !! l = Some L →
     ∃ L', h' !! l = Some L' ∧
           DenseLayer.W L' = DenseLayer.W L ∧
           DenseLayer.b L' = DenseLayer.b L ∧
           Param.data (DenseLayer.W_param L') = Param.data (DenseLayer.W_param L) ∧
           Param.data (DenseLayer.b_param L') = Param.data (DenseLayer.b_param L)) ∧
  (∀ l, h !! l = None → h' !! l = None) ∧
  Model.optimizer_step m h' = h'.
Proof.
  intros Hfit. pose proof (fit_weights m h X y epochs batch_size h' out Hfit) as Hk.
  split; [|split; [|reflexivity]].
  - intros l L Hl. specialize (Hk l). rewrite Hl in Hk.
    inversion Hk as [L0 L' Hs|]; subst. exists L'. split; [reflexivity | exact Hs].
  - intros l Hl. specialize (Hk l). rewrite Hl in Hk. inversion Hk. reflexivity.
Qed.

(** C9. Calling [fit] or [evaluate] on a model that has not been
    compiled, so that neither a loss nor an optimizer is bound, fails the
    entry assertion: the call aborts before anything is computed and
    returns no result. *)
Theorem fit_evaluate_need_compile
    m h (X : list (Tensor F)) (y : list Z) (epochs batch_size : Z) :
  Model.loss_fn m = None → Model.optimizer m = None →
  Model.fit m h X y epochs batch_size = Fault AssertionFailed ∧
  Model.evaluate m h X y = Fault AssertionFailed.
Proof.
  intros Hl Ho. unfold Model.fit, Model.evaluate. rewrite Hl, Ho. split; reflexivity.
Qed.

(** C10. [fit] and [evaluate] hand the loss the sparse labels and a null
    dense-target pointer.  The mean-squared-error, binary and categorical
    cross-entropy kinds dereference that pointer in [forward] and in
    [backward]; the sparse categorical kind does not.  So with a sparse
    categorical loss no run of [fit] or [evaluate] ends in a null
    dereference, and with any other kind the first example whose forward
    pass succeeds ends the run in one. *)
Theorem dense_target_is_null_in_fit_and_evaluate
    m h (lf : Loss.t F) (X : list (Tensor F)) (y : list Z)
    (epochs batch_size : Z) :
  Model.loss_fn m = Some lf →
  (Loss.type lf = SPARSE_CATEGORICAL_CROSS_ENTROPY →
   Model.fit m h X y epochs batch_size ≠ Fault NullDereference ∧
   Model.evaluate m h X y ≠ Fault NullDereference) ∧
  (Loss.type lf ≠ SPARSE_CATEGORICAL_CROSS_ENTROPY →
   (∀ pred ys,
      Loss.forward lf pred ys None = Fault NullDereference ∧
      Loss.backward lf pred ys None = Fault NullDereference) ∧
   (∀ X0 Xs y0 ys h1 out,
      X = X0 :: Xs → y = y0 :: ys →
      Model.forward_internal m h X0 = Ok (h1, out) →
      (is_Some (Model.optimizer m) → 0 < epochs →
       Model.fit m h X y epochs batch_size = Fault NullDereference) ∧
      Model.evaluate m h X y = Fault NullDereference)).
Proof.
  intros Hlf. split.
  - intros Hty. split.
    + eapply null_free_fit; eauto.
    + eapply null_free_evaluate; eauto.
  - intros Hty. split.
    + intros pred ys. split; [apply Loss_forward_null | apply Loss_backward_null];
        exact Hty.
    + intros X0 Xs y0 ys h1 out -> -> Hfw. split.
      * intros [opt Hopt] Hep. eapply fit_null; eauto.
      * eapply evaluate_null; eauto.
Qed.
End ModelClaims.

(** One epoch over one example, on the example model with a sparse
    categorical loss *)
Lemma fit_leaves_weights_unchanged_witness :
  ∃ h' out,
    Model.fit (Examples.model SPARSE_CATEGORICAL_CROSS_ENTROPY) Examples.layers
      [Examples.input] [1] 1 1 = Ok (h', out) ∧
    ∃ L', h' !! 2%positive = Some L' ∧
          DenseLayer.W L' = mkTensor 2 2 [1; 2; 3; 4]%R ∧
          DenseLayer.b L' = [0.5; 0.25]%R.
Proof.
  assert (∃ r, Model.fit (Examples.model SPARSE_CATEGORICAL_CROSS_ENTROPY)
                 Examples.layers [Examples.input] [1] 1 1 = Ok r)
    as [[h' out] Hfit] by (eexists; vm_compute; reflexivity).
  exists h', out. split; [exact Hfit|].
  destruct (fit_leaves_weights_unchanged _ _ _ _ _ _ _ _ Hfit) as (Hkept & _ & _).
  destruct (Hkept 2%positive (Examples.layer SOFTMAX)) as (L' & HL' & HW & Hb & _).
  - reflexivity.
  - exists L'. split; [exact HL'|]. split; assumption.
Defined.

(** A model that holds two layers and was never compiled *)
Lemma fit_evaluate_need_compile_witness :
  Model.fit (Model.add (Model.add Model.empty 1%positive) 2%positive)
    Examples.layers [Examples.input] [1] 1 1 = Fault AssertionFailed ∧
  Model.evaluate (Model.add (Model.add Model.empty 1%positive) 2%positive)
    Examples.layers [Examples.input] [1] = Fault AssertionFailed.
Proof.
  apply (fit_evaluate_need_compile
           (Model.add (Model.add Model.empty 1%positive) 2%positive));
    reflexivity.
Defined.

(** The example model compiled with the mean squared error *)
Lemma dense_target_is_null_in_fit_and_evaluate_witness :
  Model.fit (Examples.model MEAN_SQUARED_ERROR) Examples.layers
    [Examples.input] [1] 1 1 = Fault NullDereference ∧
  Model.evaluate (Examples.model MEAN_SQUARED_ERROR) Examples.layers
    [Examples.input] [1] = Fault NullDereference.
Proof.
  assert (∃ r, Model.forward_internal (Examples.model MEAN_SQUARED_ERROR)
                 Examples.layers Examples.input = Ok r)
    as [[h1 out] Hfw] by (eexists; vm_compute; reflexivity).
  destruct (dense_target_is_null_in_fit_and_evaluate
              (Examples.model MEAN_SQUARED_ERROR) Examples.layers
              (Loss.make MEAN_SQUARED_ERROR 2 (flit 1e-7))
              [Examples.input] [1] 1 1 eq_refl) as [_ Hother].
  destruct Hother as [_ Hrun]; [discriminate|].
  destruct (Hrun Examples.input [] 1 [] h1 out eq_refl eq_refl Hfw) as [Hfit Hev].
  split; [apply Hfit; [eexists; reflexivity | lia] | exact Hev].
Defined.


(** * Further properties of the code *)

(** ** core/tensor.h *)

Section TensorExtras.
Context {F : Type} `{Arith F}.
Implicit Types (A B C T : Tensor F).

(** X1. [matmul] aborts on operands whose inner dimensions differ;
    otherwise it returns the [rows A] by [cols B] tensor whose entry
    [(i, j)] is the sum over [k] of [A(i,k) * B(k,j)], accumulated from
    zero in increasing [k]. *)
Theorem matmul_product_or_abort A B :
  wf A → wf B →
  (cols A ≠ rows B → matmul A B = Fault AssertionFailed) ∧
  (cols A = rows B →
   ∃ C, matmul A B = Ok C ∧ wf C ∧ rows C = rows A ∧ cols C = cols B ∧
        ∀ i j, 0 ≤ i < rows A → 0 ≤ j < cols B →
          at_ C i j = Ok (fsum (cols A) (λ k, fmul (ent A i k) (ent B k j)))).
Proof.
  intros HA HB. split.
  - intros Hne. unfold matmul.
    rewrite (proj2 (Z.eqb_neq _ _) Hne). reflexivity.
  - intros Heq.
    destruct (matmul_spec A B HA HB Heq) as (C & HC & HwC & Hr & Hc & Hent).
    exists C. do 4 (split; [assumption|]). intros i j Hi Hj.
    rewrite (at_ent C i j HwC) by (split; lia). rewrite Hent by lia. reflexivity.
Qed.

(** X2. Transposing twice gives the tensor back. *)
Theorem transpose_involutive A :
  wf A → ∃ T, transpose A = Ok T ∧ transpose T = Ok A.
Proof.
  intros HA.
  destruct (transpose_spec A HA) as (T & HT & HwT & HrT & HcT & HeT).
  destruct (transpose_spec T HwT) as (A' & HA' & HwA' & HrA' & HcA' & HeA').
  exists T. split; [exact HT|]. rewrite HA'. f_equal.
  apply tensor_ext; [assumption | assumption | congruence | congruence |].
  intros r c [Hr Hc]. rewrite HeA' by lia. apply HeT; lia.
Qed.

(** X3. [add_bias] aborts when the bias does not have one entry per
    column; otherwise it adds [b[j]] to every entry of column [j] and
    keeps the shape. *)
Theorem add_bias_adds_to_columns A (b : list F) :
  wf A →
  (cols A ≠ Z.of_nat (length b) → add_bias A b = Fault AssertionFailed) ∧
  (cols A = Z.of_nat (length b) →
   ∃ A', add_bias A b = Ok A' ∧ wf A' ∧ rows A' = rows A ∧ cols A' = cols A ∧
         ∀ i j bj, 0 ≤ i < rows A → 0 ≤ j < cols A →
           b !! Z.to_nat j = Some bj →
           at_ A' i j = Ok (fadd (ent A i j) bj)).
Proof.
  intros HA. split.
  - intros Hne. unfold add_bias. rewrite (proj2 (Z.eqb_neq _ _) Hne). reflexivity.
  - intros Heq. destruct (add_bias_spec A b HA Heq) as (A' & Hrun & Hw & Hr & Hc & Hent).
    exists A'. do 4 (split; [assumption|]). intros i j bj Hi Hj Hbj.
    rewrite (at_ent A' i j Hw) by (split; lia). rewrite (Hent i j bj) by assumption.
    reflexivity.
Qed.

(** X4. [argmax] reads [A(0, 0)] before anything else: on a tensor with
    an empty buffer it is an out-of-bounds read. *)
Theorem argmax_empty A : data A = [] → argmax A = Fault OutOfBounds.
Proof.
  intros Hd. unfold argmax, at_, vget. rewrite Hd.
  destruct (0 * cols A + 0 <? 0); reflexivity.
Qed.
End TensorExtras.
(** A row times a column, in binary32 *)
Lemma matmul_product_or_abort_witness :
  let A := Examples.b32_tensor 1 2 [1; 2] in
  let B := Examples.b32_tensor 2 1 [3; 4] in
  ∃ C, matmul A B = Ok C ∧
       at_ C 0 0 = Ok (fsum 2 (λ k, fmul (ent A 0 k) (ent B k 0))).
Proof.
  intros A B.
  destruct (matmul_product_or_abort A B) as [_ Hok].
  - repeat split; simpl; lia.
  - repeat split; simpl; lia.
  - destruct (Hok eq_refl) as (C & HC & _ & _ & _ & Hent).
    exists C. split; [exact HC|]. apply (Hent 0 0); simpl; lia.
Defined.

Lemma transpose_involutive_witness :
  ∃ T, transpose (Examples.b32_tensor 2 3 [1; 2; 3; 4; 5; 6]) = Ok T ∧
       transpose T = Ok (Examples.b32_tensor 2 3 [1; 2; 3; 4; 5; 6]).
Proof.
  apply (transpose_involutive (Examples.b32_tensor 2 3 [1; 2; 3; 4; 5; 6])).
  repeat split; simpl; lia.
Defined.

Lemma add_bias_adds_to_columns_witness :
  let A := Examples.b32_tensor 2 2 [1; 2; 3; 4] in
  ∃ A', add_bias A [of_int 10; of_int 20] = Ok A' ∧
        at_ A' 1 1 = Ok (fadd (ent A 1 1) (of_int 20)).
Proof.
  intros A.
  destruct (add_bias_adds_to_columns A [of_int 10; of_int 20]) as [_ Hok].
  - repeat split; simpl; lia.
  - destruct (Hok eq_refl) as (A' & HA' & _ & _ & _ & Hent).
    exists A'. split; [exact HA'|]. apply (Hent 1 1); [simpl; lia | simpl; lia | reflexivity].
Defined.

(** The default-constructed tensor *)
Lemma argmax_empty_witness : argmax (Tensor_default : Tensor B32.t) = Fault OutOfBounds.
Proof. apply (argmax_empty (Tensor_default : Tensor B32.t)). reflexivity. Defined.


Lemma argmax_scan_cell (A : Tensor R) (i j : Z) (best : Z * R) :
  wf A → 0 ≤ i < rows A → 0 ≤ j < cols A →
  argmax_inv A (i * cols A + j) best →
  ∃ best',
    (a ← at_ A i j;
     Ok (if fltb best.2 a then (i * cols A + j, a) else best)) = Ok best' ∧
    argmax_inv A (i * cols A + j + 1) best'.
Proof.
  intros HA Hi Hj (Hb & Hval & Hle & Hlt).
  pose proof (index_in_range A i j HA (conj Hi Hj)) as Hp.
  pose proof (ent_lookup A i j HA (conj Hi Hj)) as Hent.
  rewrite (at_ent A i j HA) by (split; assumption). simpl.
  unfold Rltb. destruct (Rlt_dec best.2 (ent A i j)) as [Hgt|Hngt].
  - eexists. split; [reflexivity|]. unfold argmax_inv. simpl. split; [|split; [|split]].
    + destruct HA as (_ & _ & Hl). lia.
    + exact Hent.
    + intros q y Hq Hy. destruct (decide (q = i * cols A + j)) as [->|Hne].
      * rewrite Hent in Hy. injection Hy as <-. lra.
      * specialize (Hle q y ltac:(lia) Hy). lra.
    + intros q y Hq Hy. specialize (Hle q y ltac:(lia) Hy). lra.
  - exists best. split; [reflexivity|]. split; [exact Hb|]. split; [exact Hval|]. split.
    + intros q y Hq Hy. destruct (decide (q = i * cols A + j)) as [->|Hne].
      * rewrite Hent in Hy. injection Hy as <-. lra.
      * apply (Hle q y); [lia | exact Hy].
    + exact Hlt.
Qed.

(** X5. On a tensor over the reals with at least one entry, [argmax] finds
    the first maximum of the whole buffer in row-major order, over all
    rows; it returns that position for a tensor of one row, and that
    position modulo the number of columns otherwise. *)
Theorem argmax_first_maximum (A : Tensor R) :
  wf A → 0 < rows A → 0 < cols A →
  ∃ k, first_max (data A) k ∧
       argmax A = Ok (if rows A =? 1 then Z.of_nat k
                      else Z.of_nat k mod cols A).
Proof.
  intros HA Hr Hc. unfold argmax.
  rewrite (at_ent A 0 0 HA) by (split; lia). rewrite bind_Ok_l.
  destruct (for_int_inv (λ i best, argmax_inv A (i * cols A) best)
    (λ i best, for_int 0 (cols A) (λ j best,
       a ← at_ A i j;
       Ok (if fltb best.2 a then (i * cols A + j, a) else best)) best)
    0 (rows A) (0, ent A 0 0)) as (best & Hrun & Hb & Hval & Hle & Hlt).
  - lia.
  - split; [simpl; nia|]. split; [|split].
    + simpl. rewrite <- (ent_lookup A 0 0 HA) by (split; lia). f_equal.
    + intros; lia.
    + simpl. intros; lia.
  - intros i best Hi Hinv.
    destruct (for_int_inv (λ j best, argmax_inv A (i * cols A + j) best)
      (λ j best, a ← at_ A i j;
         Ok (if fltb best.2 a then (i * cols A + j, a) else best))
      0 (cols A) best) as (best' & Hrun' & Hinv').
    + lia.
    + rewrite Z.add_0_r. exact Hinv.
    + intros j b Hj Hb. rewrite Z.add_assoc. apply argmax_scan_cell; assumption.
    + exists best'. split; [exact Hrun'|].
      replace ((i + 1) * cols A) with (i * cols A + cols A) by ring. exact Hinv'.
  - rewrite Hrun, bind_Ok_l. cbv zeta. exists (Z.to_nat best.1). split.
    + exists best.2. split; [exact Hval|]. split.
      * intros q y Hy. apply (Hle (Z.of_nat q) y); [|rewrite Nat2Z.id; exact Hy].
        apply lookup_lt_Some in Hy. destruct HA as (_ & _ & Hl). lia.
      * intros q y Hq Hy. apply (Hlt (Z.of_nat q) y); [lia | rewrite Nat2Z.id; exact Hy].
    + rewrite Z2Nat.id by lia. destruct (rows A =? 1); [reflexivity|].
      rewrite (proj2 (Z.eqb_neq (cols A) 0)) by lia.
      rewrite Z.rem_mod_nonneg by lia. reflexivity.
Qed.

(** X6. Over the reals, the transpose of a product is the product of the
    transposes in reverse order, computed by [matmul] and [transpose]
    themselves. *)
Theorem transpose_of_matmul (A B : Tensor R) :
  wf A → wf B → cols A = rows B →
  ∃ C CT AT BT,
    matmul A B = Ok C ∧ transpose C = Ok CT ∧
    transpose A = Ok AT ∧ transpose B = Ok BT ∧
    matmul BT AT = Ok CT.
Proof.
  intros HA HB Hdim.
  destruct (matmul_spec A B HA HB Hdim) as (C & HC & HwC & HrC & HcC & HeC).
  destruct (transpose_spec C HwC) as (CT & HCT & HwCT & HrCT & HcCT & HeCT).
  destruct (transpose_spec A HA) as (AT & HAT & HwAT & HrAT & HcAT & HeAT).
  destruct (transpose_spec B HB) as (BT & HBT & HwBT & HrBT & HcBT & HeBT).
  destruct (matmul_spec BT AT HwBT HwAT) as (D & HD & HwD & HrD & HcD & HeD);
    [congruence|].
  exists C, CT, AT, BT. do 4 (split; [assumption|]). rewrite HD. f_equal.
  apply tensor_ext; [assumption | assumption | congruence | congruence |].
  intros r c [Hr Hc]. rewrite HeD by (split; lia).
  rewrite HeCT by lia. rewrite HeC by lia. unfold dot.
  rewrite HcBT, <- Hdim. apply fsum_ext. intros k Hk.
  rewrite HeBT, HeAT by lia. simpl. ring.
Qed.
(** Two rows: the maximum 5 sits at position 2, which is column 0. *)
Lemma argmax_first_maximum_witness :
  ∃ k, first_max [1; 2; 5; 0]%R k ∧
       argmax (mkTensor 2 2 [1; 2; 5; 0]%R) = Ok (Z.of_nat k mod 2).
Proof.
  apply (argmax_first_maximum (mkTensor 2 2 [1; 2; 5; 0]%R)).
  - repeat split; simpl; lia.
  - simpl. lia.
  - simpl. lia.
Defined.

Lemma transpose_of_matmul_witness :
  ∃ C CT AT BT,
    matmul (mkTensor 1 2 [1; 2]%R) (mkTensor 2 2 [1; 2; 3; 4]%R) = Ok C ∧
    transpose C = Ok CT ∧
    transpose (mkTensor 1 2 [1; 2]%R) = Ok AT ∧
    transpose (mkTensor 2 2 [1; 2; 3; 4]%R) = Ok BT ∧
    matmul BT AT = Ok CT.
Proof.
  apply (transpose_of_matmul (mkTensor 1 2 [1; 2]%R) (mkTensor 2 2 [1; 2; 3; 4]%R)).
  - repeat split; simpl; lia.
  - repeat split; simpl; lia.
  - reflexivity.
Defined.


(** ** core/activations.h *)

Section ActivationExtras.
Context {F : Type} `{Arith F} `{Libm F}.
Implicit Types (a : Activation.t F) (X Y dOut : Tensor F).

(** X7. For every kind but softmax, [forward] applies [activate] to each
    entry, returns a tensor of the shape of its input, and leaves the
    input and the output in the two caches; the kind and the
    hyperparameters are kept. *)
Theorem Activation_forward_applies_activate a X :
  Activation.type a ≠ SOFTMAX → wf X →
  ∃ a' Y, Activation.forward a X = Ok (a', Y) ∧
          Activation.type a' = Activation.type a ∧
          Activation.alpha a' = Activation.alpha a ∧
          Activation.beta a' = Activation.beta a ∧
          Activation.input_cache a' = X ∧ Activation.output_cache a' = Y ∧
          wf Y ∧ rows Y = rows X ∧ cols Y = cols X ∧
          ∀ i j, 0 ≤ i < rows X → 0 ≤ j < cols X →
            at_ Y i j = Ok (Activation.activate a (ent X i j)).
Proof.
  intros Hty HX.
  destruct (Activation_forward_cellwise a X Hty HX) as (Y & Hfw & HwY & Hr & Hc & Hent).
  eexists _, Y. split; [exact Hfw|]. simpl. do 5 (split; [reflexivity|]).
  do 3 (split; [assumption|]). intros i j Hi Hj.
  rewrite (at_ent Y i j HwY) by (split; lia). rewrite Hent by lia. reflexivity.
Qed.

(** X8. [backward] is tied to the last [forward]: for every kind, softmax
    included, a gradient whose shape differs from the cached output
    aborts the call; for a kind other than softmax a gradient of that
    shape is multiplied, entry by entry, by the derivative taken at the
    cached input and output. *)
Theorem Activation_backward_uses_caches a X a' Y dOut :
  wf X → wf dOut →
  Activation.forward a X = Ok (a', Y) →
  (rows dOut ≠ rows X ∨ cols dOut ≠ cols X →
   Activation.backward a' dOut = Fault AssertionFailed) ∧
  (Activation.type a ≠ SOFTMAX →
   rows dOut = rows X → cols dOut = cols X →
   ∃ dX, Activation.backward a' dOut = Ok dX ∧
         wf dX ∧ rows dX = rows X ∧ cols dX = cols X ∧
         ∀ i j, 0 ≤ i < rows X → 0 ≤ j < cols X →
           at_ dX i j =
           Ok (fmul (ent dOut i j)
                    (Activation.derivative a (ent X i j) (ent Y i j)))).
Proof.
  intros HX Hd Hfw. split.
  - intros Hne.
    destruct (Activation_forward_inv a X a' Y Hfw) as (_ & _ & _ & _ & Hout & Hr & Hc & _).
    unfold Activation.backward. rewrite Hout, Hr, Hc.
    destruct (Z.eqb_spec (rows dOut) (rows X)) as [Er|Er]; [|reflexivity].
    destruct (Z.eqb_spec (cols dOut) (cols X)) as [Ec|Ec]; [|reflexivity].
    destruct Hne; contradiction.
  - intros Hty Er Ec.
    destruct (Activation_forward_cellwise a X Hty HX) as (Y' & Hfw' & HwY & Hr & Hc & Hent).
    rewrite Hfw' in Hfw. injection Hfw as <- <-.
    destruct (Activation_backward_spec
                (Activation.mk (Activation.type a) (Activation.alpha a)
                   (Activation.beta a) X Y') dOut)
      as (dX & Hbw & HwX & HrX & HcX & _ & Hcell); simpl; try assumption;
      try congruence.
    exists dX. split; [exact Hbw|]. split; [exact HwX|].
    split; [congruence|]. split; [congruence|].
    intros i j Hi Hj. rewrite (at_ent dX i j HwX) by (split; lia).
    rewrite (Hcell Hty i j) by lia. reflexivity.
Qed.
End ActivationExtras.
Lemma Activation_forward_applies_activate_witness :
  let a : Activation.t R := Activation.make_default LEAKY_RELU in
  let X := mkTensor 1 2 [1; -2]%R in
  ∃ a' Y, Activation.forward a X = Ok (a', Y) ∧
          Activation.input_cache a' = X ∧
          at_ Y 0 1 = Ok (Activation.activate a (ent X 0 1)).
Proof.
  intros a X.
  destruct (Activation_forward_applies_activate a X)
    as (a' & Y & Hfw & _ & _ & _ & Hin & _ & _ & _ & _ & Hent).
  - discriminate.
  - repeat split; simpl; lia.
  - exists a', Y. split; [exact Hfw|]. split; [exact Hin|].
    apply (Hent 0 1); simpl; lia.
Defined.

Lemma Activation_backward_uses_caches_witness :
  let X := mkTensor 1 2 [1; -2]%R in
  ∃ a' Y s' S dX,
    Activation.forward (Activation.make_default TANH) X = Ok (a', Y) ∧
    Activation.forward (Activation.make_default SOFTMAX) X = Ok (s', S) ∧
    Activation.backward a' (mkTensor 2 2 [1; 1; 1; 1]%R) = Fault AssertionFailed ∧
    Activation.backward s' (mkTensor 2 2 [1; 1; 1; 1]%R) = Fault AssertionFailed ∧
    Activation.backward a' (mkTensor 1 2 [3; 4]%R) = Ok dX ∧
    at_ dX 0 0
    = Ok (3 * Activation.derivative (Activation.make_default TANH) (ent X 0 0) (ent Y 0 0))%R.
Proof.
  intros X.
  assert (∃ r, Activation.forward (Activation.make_default TANH) X = Ok r) as [[a' Y] Hfw]
    by (eexists; vm_compute; reflexivity).
  assert (∃ r, Activation.forward (Activation.make_default SOFTMAX) X = Ok r)
    as [[s' S] Hsm] by (eexists; vm_compute; reflexivity).
  destruct (Activation_backward_uses_caches (Activation.make_default TANH) X a' Y
              (mkTensor 2 2 [1; 1; 1; 1]%R))
    as [Hbad _]; [repeat split; simpl; lia.. | exact Hfw |].
  destruct (Activation_backward_uses_caches (Activation.make_default SOFTMAX) X s' S
              (mkTensor 2 2 [1; 1; 1; 1]%R))
    as [Hbad' _]; [repeat split; simpl; lia.. | exact Hsm |].
  destruct (Activation_backward_uses_caches (Activation.make_default TANH) X a' Y
              (mkTensor 1 2 [3; 4]%R))
    as [_ Hgood]; [repeat split; simpl; lia.. | exact Hfw |].
  destruct (Hgood ltac:(discriminate) eq_refl eq_refl) as (dX & HdX & _ & _ & _ & Hent).
  exists a', Y, s', S, dX. split; [exact Hfw|]. split; [exact Hsm|].
  split; [apply Hbad; left; simpl; lia|]. split; [apply Hbad'; left; simpl; lia|].
  split; [exact HdX|].
  apply (Hent 0 0); simpl; lia.
Defined.


(** *** The derivative table against the calculus of the reals *)

Section Calculus.
Local Open Scope R_scope.

Lemma dlim_eq (f : R → R) (x l l' : R) :
  derivable_pt_lim f x l → l = l' → derivable_pt_lim f x l'.
Proof. intros Hd <-. exact Hd. Qed.

(** A function that agrees near [x] with one that has a derivative *)
Lemma dlim_near (f g : R → R) (x l : R) :
  x ≠ 0 →
  (∀ z, 0 < z → 0 < x → f z = g z) →
  (∀ z, z < 0 → x < 0 → f z = g z) →
  derivable_pt_lim g x l → derivable_pt_lim f x l.
Proof.
  intros Hx Hpos Hneg Hd.
  destruct (Rlt_dec 0 x) as [Hgt|Hle].
  - apply (derivable_pt_lim_locally_ext g f x 0 (x + 1)); [lra | | exact Hd].
    intros z Hz. symmetry. apply Hpos; lra.
  - apply (derivable_pt_lim_locally_ext g f x (x - 1) 0); [lra | | exact Hd].
    intros z Hz. symmetry. apply Hneg; lra.
Qed.

Lemma dlim_const (c x : R) : derivable_pt_lim (λ _, c) x 0.
Proof. apply (derivable_pt_lim_const c x). Qed.

Lemma dlim_id (x : R) : derivable_pt_lim (λ z, z) x 1.
Proof. apply (derivable_pt_lim_id x). Qed.

Lemma dlim_scal (c x : R) : derivable_pt_lim (λ z, c * z) x c.
Proof.
  eapply dlim_eq; [apply (derivable_pt_lim_scal id c x 1), derivable_pt_lim_id|].
  ring.
Qed.

Lemma dlim_exp_scaled (c x : R) : derivable_pt_lim (λ z, exp (c * z)) x (c * exp (c * x)).
Proof.
  eapply dlim_eq.
  - apply (derivable_pt_lim_comp (λ z, c * z) exp x c (exp (c * x)));
      [apply dlim_scal | apply derivable_pt_lim_exp].
  - ring.
Qed.

(** [1 / (1 + exp (- (b * z)))], the logistic function of slope [b] *)
Lemma dlim_logistic (b x : R) :
  let s := 1 / (1 + exp (- b * x)) in
  derivable_pt_lim (λ z, 1 / (1 + exp (- b * z))) x (b * s * (1 - s)).
Proof.
  intros s. pose proof (exp_pos (- b * x)) as He.
  eapply dlim_eq.
  - apply (derivable_pt_lim_div (λ _, 1) (λ z, 1 + exp (- b * z)) x 0
             (0 + - b * exp (- b * x))).
    + apply dlim_const.
    + apply (derivable_pt_lim_plus (λ _, 1) (λ z, exp (- b * z)));
        [apply dlim_const | apply dlim_exp_scaled].
    + lra.
  - unfold s, Rsqr. field. lra.
Qed.

Lemma cosh_positive (x : R) : 0 < cosh x.
Proof.
  unfold cosh. pose proof (exp_pos x). pose proof (exp_pos (- x)). lra.
Qed.

Lemma cosh2_sinh2 (x : R) : cosh x * cosh x - sinh x * sinh x = 1.
Proof.
  unfold cosh, sinh. rewrite exp_Ropp. pose proof (exp_pos x). field. lra.
Qed.

Lemma dlim_tanh (x : R) : derivable_pt_lim tanh x (1 - tanh x * tanh x).
Proof.
  pose proof (cosh_positive x) as Hc.
  eapply dlim_eq.
  - apply (derivable_pt_lim_div sinh cosh x (cosh x) (sinh x));
      [apply derivable_pt_lim_sinh | apply derivable_pt_lim_cosh | lra].
  - unfold tanh, Rsqr. field. lra.
Qed.

Lemma tanh_square_below_1 (x : R) : 0 < 1 - tanh x * tanh x.
Proof.
  pose proof (cosh_positive x) as Hc. pose proof (cosh2_sinh2 x) as H1.
  replace (1 - tanh x * tanh x) with (1 / (cosh x * cosh x)).
  - apply Rdiv_lt_0_compat; nra.
  - unfold tanh. field_simplify_eq; [|lra]. nra.
Qed.

(** Resolves the comparisons of the code with zero at a point of known
    sign. *)
Ltac sign_tests :=
  change (@fltb R R_arith) with Rltb; change (@fleb R R_arith) with Rleb;
  rewrite ?R_f0, ?R_f1;
  repeat first
    [ rewrite Rltb_true by lra | rewrite Rltb_false by lra
    | rewrite Rleb_true by lra | rewrite Rleb_false by lra ].

(** X9. Over the reals, for every kind but GELU and away from the kink
    at zero of the piecewise kinds, the value [derivative(x, y)] that
    [backward] multiplies by, taken at [y = activate(x)], is the
    derivative of [activate] at [x]. *)
Theorem activation_derivative_is_exact (a : Activation.t R) (x : R) :
  exact_derivative_at (Activation.type a) x →
  derivable_pt_lim (Activation.activate a) x
    (Activation.derivative a x (Activation.activate a x)).
Proof.
  destruct a as [ty al be ic oc].
  unfold Activation.activate, Activation.derivative, fmax. simpl Activation.type.
  simpl Activation.alpha. simpl Activation.beta.
  destruct ty; simpl exact_derivative_at; intros Hx; try contradiction.
  - (* STEP *)
    apply (dlim_near _ (λ z, if Rlt_dec 0 x then 1 else 0) x); [exact Hx | | |].
    + intros z Hz Hx0. sign_tests. destruct (Rlt_dec 0 x); [reflexivity | lra].
    + intros z Hz Hx0. sign_tests. destruct (Rlt_dec 0 x); [lra | reflexivity].
    + rewrite R_f0. apply dlim_const.
  - (* LINEAR *)
    rewrite R_f1. apply dlim_id.
  - (* RELU *)
    destruct (Rlt_dec 0 x) as [Hgt|Hle].
    + apply (dlim_near _ (λ z, z) x); [exact Hx | | |].
      * intros z Hz _. sign_tests. reflexivity.
      * intros; lra.
      * sign_tests. apply dlim_id.
    + apply (dlim_near _ (λ z, 0) x); [exact Hx | | |].
      * intros; lra.
      * intros z Hz _. sign_tests. reflexivity.
      * sign_tests. apply dlim_const.
  - (* LEAKY_RELU *)
    destruct (Rlt_dec 0 x) as [Hgt|Hle].
    + apply (dlim_near _ (λ z, z) x); [exact Hx | | |].
      * intros z Hz _. sign_tests. reflexivity.
      * intros; lra.
      * sign_tests. apply dlim_id.
    + apply (dlim_near _ (λ z, al * z) x); [exact Hx | | |].
      * intros; lra.
      * intros z Hz _. sign_tests. reflexivity.
      * sign_tests. apply dlim_scal.
  - (* PRELU *)
    destruct (Rlt_dec 0 x) as [Hgt|Hle].
    + apply (dlim_near _ (λ z, z) x); [exact Hx | | |].
      * intros z Hz _. sign_tests. reflexivity.
      * intros; lra.
      * sign_tests. apply dlim_id.
    + apply (dlim_near _ (λ z, al * z) x); [exact Hx | | |].
      * intros; lra.
      * intros z Hz _. sign_tests. reflexivity.
      * sign_tests. apply dlim_scal.
  - (* SIGMOID *)
    rewrite !R_f1.
    apply (derivable_pt_lim_ext (λ z, 1 / (1 + exp (- (1) * z)))).
    + intros z. simpl. do 3 f_equal. ring.
    + eapply dlim_eq; [apply dlim_logistic|]. simpl.
      replace (- (1) * x) with (- x) by ring. ring.
  - (* TANH *)
    rewrite R_f1. apply dlim_tanh.
  - (* ELU *)
    destruct (Rlt_dec 0 x) as [Hgt|Hle].
    + apply (dlim_near _ (λ z, z) x); [exact Hx | | |].
      * intros z Hz _. sign_tests. reflexivity.
      * intros; lra.
      * sign_tests. apply dlim_id.
    + apply (dlim_near _ (λ z, al * (exp (1 * z) - 1)) x); [exact Hx | | |].
      * intros; lra.
      * intros z Hz _. sign_tests. simpl. rewrite Rmult_1_l. reflexivity.
      * sign_tests. simpl.
        eapply dlim_eq.
        -- apply (derivable_pt_lim_scal (λ z, exp (1 * z) - 1) al x (1 * exp (1 * x) - 0)).
           apply (derivable_pt_lim_minus (λ z, exp (1 * z)) (λ _, 1));
             [apply dlim_exp_scaled | apply dlim_const].
        -- replace (1 * x) with x by ring. ring.
  - (* SELU *)
    set (lam := flit 1.050700987). set (als := flit 1.673263242).
    destruct (Rlt_dec 0 x) as [Hgt|Hle].
    + apply (dlim_near _ (λ z, lam * z) x); [exact Hx | | |].
      * intros z Hz _. sign_tests. reflexivity.
      * intros; lra.
      * sign_tests. apply dlim_scal.
    + apply (dlim_near _ (λ z, lam * (als * (exp (1 * z) - 1))) x); [exact Hx | | |].
      * intros; lra.
      * intros z Hz _. sign_tests. simpl. rewrite Rmult_1_l. reflexivity.
      * sign_tests. simpl.
        eapply dlim_eq.
        -- apply (derivable_pt_lim_scal (λ z, als * (exp (1 * z) - 1)) lam x
                    (als * (1 * exp (1 * x) - 0))).
           apply (derivable_pt_lim_scal (λ z, exp (1 * z) - 1) als x (1 * exp (1 * x) - 0)).
           apply (derivable_pt_lim_minus (λ z, exp (1 * z)) (λ _, 1));
             [apply dlim_exp_scaled | apply dlim_const].
        -- replace (1 * x) with x by ring. ring.
  - (* SWISH *)
    rewrite !R_f1.
    apply (derivable_pt_lim_ext (λ z, z * (1 / (1 + exp (- be * z))))).
    + intros z. simpl. unfold Rdiv. ring.
    + eapply dlim_eq.
      * apply (derivable_pt_lim_mult (λ z, z) (λ z, 1 / (1 + exp (- be * z))));
          [apply dlim_id | apply dlim_logistic].
      * simpl. ring.
  - (* SOFTMAX *)
    rewrite R_f1. apply dlim_id.
Qed.

(** The tanh-based forward of GELU and its derivative *)
Lemma dlim_gelu (h c k x : R) :
  let u := λ z : R, c * (z + k * z ^ 3) in
  derivable_pt_lim (λ z, h * z * (1 + tanh (u z))) x
    (h * (1 + tanh (u x))
     + h * x * ((1 - tanh (u x) * tanh (u x)) * (c * (1 + k * (3 * x ^ 2))))).
Proof.
  intros u.
  assert (derivable_pt_lim u x (c * (1 + k * (3 * x ^ 2)))) as Hu.
  { apply (derivable_pt_lim_scal (λ z, z + k * z ^ 3) c x (1 + k * (3 * x ^ 2))).
    apply (derivable_pt_lim_plus (λ z, z) (λ z, k * z ^ 3)); [apply dlim_id|].
    apply (derivable_pt_lim_scal (λ z, z ^ 3) k x (3 * x ^ 2)).
    eapply dlim_eq; [apply (derivable_pt_lim_pow x 3)|]. simpl. ring. }
  eapply dlim_eq.
  - apply (derivable_pt_lim_mult (λ z, h * z) (λ z, 1 + tanh (u z)) x h
             (0 + (1 - tanh (u x) * tanh (u x)) * (c * (1 + k * (3 * x ^ 2))))).
    + apply dlim_scal.
    + apply (derivable_pt_lim_plus (λ _, 1) (λ z, tanh (u z))); [apply dlim_const|].
      apply (derivable_pt_lim_comp u tanh x); [exact Hu | apply dlim_tanh].
  - ring.
Qed.

(** X10. The GELU entry of the derivative table is an approximation, as
    its comment says: over the reals it differs from the derivative of
    the GELU forward at every [x] other than zero, because it leaves out
    the term that comes from differentiating inside the [tanh]. *)
Theorem gelu_derivative_is_approximate (a : Activation.t R) (x : R) :
  Activation.type a = GELU → x ≠ 0 →
  ¬ derivable_pt_lim (Activation.activate a) x
      (Activation.derivative a x (Activation.activate a x)).
Proof.
  destruct a as [ty al be ic oc]. simpl. intros -> Hx Hcode.
  unfold Activation.activate, Activation.derivative in Hcode.
  simpl Activation.type in Hcode. cbv beta iota in Hcode.
  set (h := flit 0.5) in *.
  set (c := fsqrt (fdiv (flit 2.0) (flit M_PI))) in *.
  set (k := flit 0.044715) in *.
  assert (0 < h) as Hh by (unfold h; simpl; unfold Q2R; simpl; lra).
  assert (0 < k) as Hk by (unfold k; simpl; unfold Q2R; simpl; lra).
  assert (0 < c) as Hc.
  { unfold c. simpl. apply sqrt_lt_R0. unfold Q2R, M_PI. simpl.
    apply Rdiv_lt_0_compat; lra. }
  pose proof (dlim_gelu h c k x) as Htrue. cbv zeta in Htrue.
  assert (derivable_pt_lim (λ z, h * z * (1 + tanh (c * (z + k * z ^ 3)))) x
            (h * (1 + tanh (c * (x + k * x ^ 3))))) as Hcode'.
  { eapply derivable_pt_lim_ext; [|eapply dlim_eq; [exact Hcode|]].
    - intros z. rewrite R_f1. simpl. reflexivity.
    - rewrite R_f1. simpl. reflexivity. }
  pose proof (uniqueness_limite _ _ _ _ Htrue Hcode') as Heq.
  pose proof (tanh_square_below_1 (c * (x + k * x ^ 3))) as Ht.
  assert (h * x * ((1 - tanh (c * (x + k * x ^ 3)) * tanh (c * (x + k * x ^ 3)))
                   * (c * (1 + k * (3 * x ^ 2)))) = 0) as Hzero by lra.
  assert (0 < 1 + k * (3 * x ^ 2)) as Hq by (simpl; nra).
  apply Rmult_integral in Hzero as [Hzero|Hzero].
  - apply Rmult_integral in Hzero as [?|?]; lra.
  - apply Rmult_integral in Hzero as [?|Hzero]; [lra|].
    apply Rmult_integral in Hzero as [?|?]; lra.
Qed.
End Calculus.
(** The logistic function at 1 *)
Lemma activation_derivative_is_exact_witness :
  let a : Activation.t R := Activation.make_default SIGMOID in
  derivable_pt_lim (Activation.activate a) 1%R
    (Activation.derivative a 1%R (Activation.activate a 1%R)).
Proof.
  intros a. apply (activation_derivative_is_exact a 1%R). exact I.
Defined.

Lemma gelu_derivative_is_approximate_witness :
  let a : Activation.t R := Activation.make_default GELU in
  ¬ derivable_pt_lim (Activation.activate a) 1%R
      (Activation.derivative a 1%R (Activation.activate a 1%R)).
Proof.
  intros a. apply (gelu_derivative_is_approximate a 1%R); [reflexivity | lra].
Defined.


(** *** The row-wise softmax over the reals *)

Section SoftmaxStability.
Local Open Scope R_scope.

(** X11. Softmax never evaluates [exp] at a positive argument: over the
    reals, the output is the same for any two functions in the place of
    [exp] that agree on the arguments that are at most zero.  So the
    growth of [exp] on large entries cannot reach the result, which a
    softmax that exponentiated the entries themselves would not
    guarantee. *)
Theorem softmax_evaluates_exp_below_zero (e1 e2 : R → R)
    (a : Activation.t R) (X : Tensor R) :
  (∀ x, x <= 0 → e1 x = e2 x) →
  Activation.type a = SOFTMAX → wf X → (0 < cols X)%Z →
  ∃ a1 a2 Y,
    @Activation.forward R R_arith (libm_with_exp e1) a X = Ok (a1, Y) ∧
    @Activation.forward R R_arith (libm_with_exp e2) a X = Ok (a2, Y).
Proof.
  intros Hagree Hty HX Hc.
  destruct (@Activation_forward_softmax R R_arith (libm_with_exp e1) a X Hty HX Hc)
    as (a1 & Y & Hfw & HwY & HrY & HcY & HeY).
  destruct (@Activation_forward_softmax R R_arith (libm_with_exp e2) a X Hty HX Hc)
    as (a2 & Y' & Hfw' & HwY' & HrY' & HcY' & HeY').
  exists a1, a2, Y. split; [exact Hfw|]. rewrite Hfw'. do 2 f_equal.
  apply tensor_ext; [assumption | assumption | congruence | congruence |].
  intros i j [Hi Hj]. rewrite HrY' in Hi. rewrite HcY' in Hj.
  rewrite HeY', HeY by lia.
  destruct (R_row_max_spec X i Hc) as [Hub _].
  assert (∀ k, (0 ≤ k < cols X)%Z →
            e2 (ent X i k - row_max X i) = e1 (ent X i k - row_max X i)) as Hk.
  { intros k Hk. symmetry. apply Hagree. specialize (Hub k Hk). lra. }
  unfold softmax_entry, row_expsum, shifted_exp. simpl fexp. simpl fsub. simpl fdiv.
  rewrite (Hk j Hj). f_equal. apply fsum_ext. exact Hk.
Qed.

Lemma R_fmax_from_shift n lo (f g : Z → R) (acc c : R) :
  (∀ k, (lo ≤ k < lo + Z.of_nat n)%Z → g k = f k + c) →
  fmax_from n lo g (acc + c) = fmax_from n lo f acc + c.
Proof.
  revert lo acc. induction n as [|n IH]; intros lo acc Hfg; simpl; [reflexivity|].
  rewrite <- IH by (intros k Hk; apply Hfg; lia). f_equal.
  rewrite Hfg by lia. rewrite !R_fmax. unfold Rmax.
  destruct (Rle_dec (acc + c) (f lo + c)), (Rle_dec acc (f lo)); lra.
Qed.

Lemma R_softmax_entry_shift (X X' : Tensor R) (c : R) (i j : Z) :
  cols X' = cols X → (0 ≤ j < cols X)%Z →
  (∀ k, (0 ≤ k < cols X)%Z → ent X' i k = ent X i k + c) →
  softmax_entry X' i j = softmax_entry X i j.
Proof.
  intros Hc Hj He.
  assert (row_max X' i = row_max X i + c) as HM.
  { unfold row_max. rewrite Hc, (He 0%Z) by lia.
    apply R_fmax_from_shift. intros k Hk. apply He. lia. }
  assert (∀ k, (0 ≤ k < cols X)%Z → shifted_exp X' i k = shifted_exp X i k) as Hs.
  { intros k Hk. unfold shifted_exp. simpl. rewrite HM, (He k Hk). f_equal. lra. }
  unfold softmax_entry, row_expsum. rewrite Hc, (Hs j Hj). f_equal.
  apply fsum_ext. exact Hs.
Qed.

(** X12. Over the reals softmax does not see a constant added to a row:
    two inputs of the same shape whose rows differ by constants have the
    same output. *)
Theorem softmax_shift_invariant (a : Activation.t R) (X X' : Tensor R) (c : Z → R) :
  Activation.type a = SOFTMAX → wf X → wf X' → (0 < cols X)%Z →
  rows X' = rows X → cols X' = cols X →
  (∀ i j, (0 ≤ i < rows X)%Z → (0 ≤ j < cols X)%Z →
     ent X' i j = ent X i j + c i) →
  ∃ a1 a2 Y,
    Activation.forward a X = Ok (a1, Y) ∧ Activation.forward a X' = Ok (a2, Y).
Proof.
  intros Hty HX HX' Hc Er Ec Hshift.
  destruct (Activation_forward_softmax a X Hty HX Hc)
    as (a1 & Y & Hfw & HwY & HrY & HcY & HeY).
  destruct (Activation_forward_softmax a X' Hty HX') as (a2 & Y' & Hfw' & HwY' & HrY' & HcY' & HeY');
    [lia|].
  exists a1, a2, Y. split; [exact Hfw|]. rewrite Hfw'. do 2 f_equal.
  apply tensor_ext; [assumption | assumption | congruence | congruence |].
  intros i j [Hi Hj]. rewrite HeY', HeY by lia.
  apply (R_softmax_entry_shift X X' (c i)); [exact Ec | lia |].
  intros k Hk. apply Hshift; lia.
Qed.
End SoftmaxStability.
(** The exponential, and the function that is the exponential up to zero
    and zero above *)
Lemma softmax_evaluates_exp_below_zero_witness :
  let a : Activation.t R := Activation.make_default SOFTMAX in
  let X := mkTensor 1 3 [1000; 1; 0]%R in
  ∃ a1 a2 Y,
    @Activation.forward R R_arith (libm_with_exp exp) a X = Ok (a1, Y) ∧
    @Activation.forward R R_arith
      (libm_with_exp (λ x, if Rle_dec x 0 then exp x else 0%R)) a X = Ok (a2, Y).
Proof.
  intros a X.
  apply (softmax_evaluates_exp_below_zero exp
           (λ x, if Rle_dec x 0 then exp x else 0%R) a X).
  - intros x Hx. destruct (Rle_dec x 0); [reflexivity | contradiction].
  - reflexivity.
  - repeat split; simpl; lia.
  - simpl. lia.
Defined.

(** The second input is the first with 10 added to its only row. *)
Lemma softmax_shift_invariant_witness :
  let a : Activation.t R := Activation.make_default SOFTMAX in
  ∃ a1 a2 Y,
    Activation.forward a (mkTensor 1 2 [1; 2]%R) = Ok (a1, Y) ∧
    Activation.forward a (mkTensor 1 2 [1 + 10; 2 + 10]%R) = Ok (a2, Y).
Proof.
  intros a.
  apply (softmax_shift_invariant a (mkTensor 1 2 [1; 2]%R)
           (mkTensor 1 2 [1 + 10; 2 + 10]%R) (λ _, 10%R)).
  - reflexivity.
  - repeat split; simpl; lia.
  - repeat split; simpl; lia.
  - simpl. lia.
  - reflexivity.
  - reflexivity.
  - simpl. intros i j Hi Hj.
    assert (i = 0) as -> by lia.
    assert (j = 0 ∨ j = 1) as [-> | ->] by lia; reflexivity.
Defined.


(** *** RMSProp *)

Section RMSPropExtras.
Context {F : Type} `{Arith F}.

(** X13. One RMSProp step: with [v] the running average kept under the
    address of the parameter (zeros on first use), every index gets
    [v[i] := beta * v[i] + (1 - beta) * g * g] and then
    [data[i] := data[i] - lr * g / (sqrt(v[i]) + eps)], read with the new
    [v[i]]; the averages kept for other parameters are not touched. *)
Theorem RMSProp_step_updates (o : RMSPropOptimizer.t F) (p : loc) (param : Param.t F) :
  (length (Param.data param) ≤ length (Param.grad param))%nat →
  sized (RMSPropOptimizer.cache o) p (length (Param.data param)) →
  ∃ v d,
    RMSPropOptimizer.step o p param =
      Ok (RMSPropOptimizer.mk (RMSPropOptimizer.lr o) (RMSPropOptimizer.beta o)
            (RMSPropOptimizer.eps o) (<[p := v]> (RMSPropOptimizer.cache o)),
          Param.mk d (Param.grad param)) ∧
    length v = length (Param.data param) ∧
    length d = length (Param.data param) ∧
    (∀ q, q ≠ p →
       (<[p := v]> (RMSPropOptimizer.cache o)) !! q = RMSPropOptimizer.cache o !! q) ∧
    ∀ (i : nat) vi di gi,
      slot (RMSPropOptimizer.cache o) p (length (Param.data param)) !! i = Some vi →
      Param.data param !! i = Some di → Param.grad param !! i = Some gi →
      let vi' := fadd (fmul (RMSPropOptimizer.beta o) vi)
                      (fmul (fmul (fsub f1 (RMSPropOptimizer.beta o)) gi) gi) in
      v !! i = Some vi' ∧
      d !! i = Some (fsub di (fdiv (fmul (RMSPropOptimizer.lr o) gi)
                                   (fadd (fsqrt vi') (RMSPropOptimizer.eps o)))).
Proof.
  intros Hlen Hsz. unfold RMSPropOptimizer.step.
  set (data := Param.data param) in *. set (grad := Param.grad param) in *.
  rewrite slot_code.
  set (v0 := slot (RMSPropOptimizer.cache o) p (length data)).
  assert (length v0 = length data) as Hv0 by exact Hsz.
  set (avg := λ vi gi, fadd (fmul (RMSPropOptimizer.beta o) vi)
                            (fmul (fmul (fsub f1 (RMSPropOptimizer.beta o)) gi) gi)).
  set (upd := λ di vi gi, fsub di (fdiv (fmul (RMSPropOptimizer.lr o) gi)
                            (fadd (fsqrt (avg vi gi)) (RMSPropOptimizer.eps o)))).
  destruct (for_int_inv
    (λ i (st : list F * list F),
       length st.1 = length data ∧ length st.2 = length data ∧
       (∀ k vi di gi, 0 ≤ k < i → v0 !! Z.to_nat k = Some vi →
          data !! Z.to_nat k = Some di → grad !! Z.to_nat k = Some gi →
          st.1 !! Z.to_nat k = Some (avg vi gi) ∧
          st.2 !! Z.to_nat k = Some (upd di vi gi)) ∧
       (∀ k, i ≤ k → st.1 !! Z.to_nat k = v0 !! Z.to_nat k ∧
                     st.2 !! Z.to_nat k = data !! Z.to_nat k))
    (λ i '(v, d),
       vi ← vget v i;
       gi ← vget grad i;
       v ← vset v i (fadd (fmul (RMSPropOptimizer.beta o) vi)
                          (fmul (fmul (fsub f1 (RMSPropOptimizer.beta o)) gi) gi));
       di ← vget d i;
       vi ← vget v i;
       d ← vset d i (fsub di (fdiv (fmul (RMSPropOptimizer.lr o) gi)
                                   (fadd (fsqrt vi) (RMSPropOptimizer.eps o))));
       Ok (v, d))
    0 (Z.of_nat (length data)) (v0, data)) as ([v d] & Hrun & Hlv & Hld & Hdone & _).
  - lia.
  - simpl. split; [exact Hv0|]. split; [reflexivity|].
    split; [intros; lia | intros; split; reflexivity].
  - intros i [v d] Hi (Hlv & Hld & Hdone & Htodo). simpl in *.
    destruct (lookup_Z_lt v0 i) as [vi Hvi]; [lia|].
    destruct (lookup_Z_lt data i) as [di Hdi]; [lia|].
    destruct (lookup_Z_lt grad i) as [gi Hgi]; [lia|].
    destruct (Htodo i) as [Hv Hd]; [lia|].
    exists (<[Z.to_nat i := avg vi gi]> v, <[Z.to_nat i := upd di vi gi]> d).
    split; [|split; [|split; [|split]]]; simpl.
    + rewrite (vget_lookup v i vi) by (first [lia | rewrite Hv; exact Hvi]). simpl.
      rewrite (vget_lookup grad i gi) by (first [lia | exact Hgi]). simpl.
      rewrite vset_in_range by lia. simpl.
      rewrite (vget_lookup d i di) by (first [lia | rewrite Hd; exact Hdi]). simpl.
      rewrite (vget_lookup _ i (avg vi gi))
        by (first [lia | apply list_lookup_insert_eq; lia]). simpl.
      rewrite vset_in_range by lia. reflexivity.
    + rewrite length_insert. exact Hlv.
    + rewrite length_insert. exact Hld.
    + intros k vk dk gk Hk Hvk Hdk Hgk. destruct (decide (k = i)) as [->|Hne].
      * rewrite !list_lookup_insert_eq by lia. split; congruence.
      * rewrite !list_lookup_insert_ne by lia. apply Hdone; [lia | assumption..].
    + intros k Hk. rewrite !list_lookup_insert_ne by lia. apply Htodo. lia.
  - simpl in *. exists v, d. rewrite Hrun. simpl.
    split; [reflexivity|]. split; [exact Hlv|]. split; [exact Hld|].
    split; [intros q Hq; apply lookup_insert_ne; congruence|].
    intros i vi di gi Hvi Hdi Hgi. simpl.
    specialize (Hdone (Z.of_nat i) vi di gi). rewrite Nat2Z.id in Hdone.
    apply Hdone; [|assumption..]. apply lookup_lt_Some in Hdi. lia.
Qed.
End RMSPropExtras.

Lemma RMSProp_step_updates_witness :
  ∃ v d,
    RMSPropOptimizer.step (RMSPropOptimizer.make_default (flit 0.5 : B32.t)) 7%positive
      (Param.mk [flit 1; flit 2] [flit 3; flit 4]) =
      Ok (RMSPropOptimizer.mk (flit 0.5) (flit 0.9) (flit 1e-8) (<[7%positive := v]> ∅),
          Param.mk d [flit 3; flit 4]) ∧
    length v = 2%nat ∧ length d = 2%nat.
Proof.
  destruct (RMSProp_step_updates (RMSPropOptimizer.make_default (flit 0.5 : B32.t)) 7%positive
              (Param.mk [flit 1; flit 2] [flit 3; flit 4]))
    as (v & d & Hrun & Hlv & Hld & _).
  - simpl. lia.
  - apply sized_fresh. reflexivity.
  - exists v, d. split; [exact Hrun|]. split; assumption.
Defined.


(** *** Steps on different parameters *)

Section SGDOrder.
Context {F : Type} `{Arith F}.

(** A run of the bind chain of a loop body can only stop on an index
    out of range. *)
Ltac fault_kind :=
  repeat match goal with
  | |- (?m ≫= _) = Fault _ → _ =>
      let E := fresh "E" in
      destruct m eqn:E; simpl;
      [| intros [= <-];
         first [eapply vget_fault; eassumption | eapply vset_fault; eassumption]]
  | |- Ok _ = Fault _ → _ => discriminate
  | |- vset _ _ _ = Fault _ → _ => apply vset_fault
  | |- vget _ _ = Fault _ → _ => apply vget_fault
  end.

Lemma SGD_plain_loop_fault (lr : F) (grad : list F) n d e :
  for_int 0 n (λ i d,
     di ← vget d i; gi ← vget grad i;
     vset d i (fsub di (fmul lr gi))) d = Fault e → e = OutOfBounds.
Proof.
  apply (for_int_fault (λ e, e = OutOfBounds)). intros i s e'. fault_kind.
Qed.

Lemma SGD_momentum_loop_fault (lr mom : F) (grad : list F) n st e :
  for_int 0 n (λ i '(v, d),
     vi ← vget v i;
     gi ← vget grad i;
     v ← vset v i (fsub (fmul mom vi) (fmul lr gi));
     di ← vget d i;
     vi ← vget v i;
     d ← vset d i (fadd di vi);
     Ok (v, d)) st = Fault e → e = OutOfBounds.
Proof.
  apply (for_int_fault (λ e, e = OutOfBounds)). intros i [v d] e'. fault_kind.
Qed.

(** X15. Plain and momentum SGD keep no state shared between parameters:
    two steps of one optimizer on parameters at different addresses give
    the same optimizer and the same two parameters in either order, and
    abort in either order when one of them aborts. *)
Theorem SGD_steps_commute (o : SGDOptimizer.t F) (p1 p2 : loc)
    (param1 param2 : Param.t F) :
  p1 ≠ p2 →
  ('(o1, q1) ← SGDOptimizer.step o p1 param1;
   '(o2, q2) ← SGDOptimizer.step o1 p2 param2;
   Ok (o2, q1, q2))
  =
  ('(o1, q2) ← SGDOptimizer.step o p2 param2;
   '(o2, q1) ← SGDOptimizer.step o1 p1 param1;
   Ok (o2, q1, q2)).
Proof.
  intros Hne. unfold SGDOptimizer.step.
  destruct (fltb f0 (SGDOptimizer.momentum o)) eqn:Hm.
  - cbv zeta.
    set (s1 := if vempty (default [] (SGDOptimizer.velocity o !! p1))
               then vresize (length (Param.data param1)) f0
                      (default [] (SGDOptimizer.velocity o !! p1))
               else default [] (SGDOptimizer.velocity o !! p1)).
    set (s2 := if vempty (default [] (SGDOptimizer.velocity o !! p2))
               then vresize (length (Param.data param2)) f0
                      (default [] (SGDOptimizer.velocity o !! p2))
               else default [] (SGDOptimizer.velocity o !! p2)).
    destruct (for_int 0 (Z.of_nat (length (Param.data param1))) _ (s1, Param.data param1))
      as [[v1 d1]|e1] eqn:E1;
    destruct (for_int 0 (Z.of_nat (length (Param.data param2))) _ (s2, Param.data param2))
      as [[v2 d2]|e2] eqn:E2; simpl; rewrite ?Hm.
    + rewrite lookup_insert_ne by congruence. fold s2. rewrite E2. simpl.
      rewrite lookup_insert_ne by congruence. fold s1. rewrite E1. simpl.
      rewrite insert_insert_ne by congruence. reflexivity.
    + rewrite lookup_insert_ne by congruence. fold s2. rewrite E2. reflexivity.
    + rewrite lookup_insert_ne by congruence. fold s1. rewrite E1. reflexivity.
    + apply SGD_momentum_loop_fault in E1, E2. congruence.
  - cbv zeta.
    destruct (for_int 0 (Z.of_nat (length (Param.data param1))) _ (Param.data param1))
      as [d1|e1] eqn:E1;
    destruct (for_int 0 (Z.of_nat (length (Param.data param2))) _ (Param.data param2))
      as [d2|e2] eqn:E2; simpl; rewrite ?Hm; rewrite ?E1, ?E2; simpl; try reflexivity.
    apply SGD_plain_loop_fault in E1, E2. congruence.
Qed.
End SGDOrder.

Lemma SGD_steps_commute_witness :
  let o := SGDOptimizer.make_momentum (flit 0.1 : B32.t) (flit 0.9) in
  let a := Param.mk [flit 1; flit 2] [flit 3; flit 4] in
  let b := Param.mk [flit 5] [flit 6] in
  (1 ≠ 2)%positive ∧
  ('(o1, q1) ← SGDOptimizer.step o 1%positive a;
   '(o2, q2) ← SGDOptimizer.step o1 2%positive b;
   Ok (o2, q1, q2))
  =
  ('(o1, q2) ← SGDOptimizer.step o 2%positive b;
   '(o2, q1) ← SGDOptimizer.step o1 1%positive a;
   Ok (o2, q1, q2)).
Proof.
  intros o a b.
  assert (1 ≠ 2)%positive as Hne by discriminate.
  split; [exact Hne|]. apply (SGD_steps_commute o 1%positive 2%positive a b Hne).
Defined.


(** ** core/dense_layer.h *)

Section DenseLayerExtras.
Context {F : Type} `{Arith F} `{Libm F}.
Implicit Types (L : DenseLayer.t F) (X Y dOut : Tensor F).

(** X16. The forward pass of a layer: an input whose width is not the
    number of rows of [W], or a bias whose length is not the number of
    columns of [W], aborts the call; otherwise, for a kind other than
    softmax, the output has one row per input row and one column per
    unit, entry [(i, j)] is [activate ((X W)(i, j) + b[j])], and the
    input is left in the cache with the weights untouched. *)
Theorem DenseLayer_forward_affine L X :
  wf X → wf (DenseLayer.W L) →
  (cols X ≠ rows (DenseLayer.W L) →
   DenseLayer.forward L X = Fault AssertionFailed) ∧
  (cols X = rows (DenseLayer.W L) →
   Z.of_nat (length (DenseLayer.b L)) ≠ cols (DenseLayer.W L) →
   DenseLayer.forward L X = Fault AssertionFailed) ∧
  (cols X = rows (DenseLayer.W L) →
   Z.of_nat (length (DenseLayer.b L)) = cols (DenseLayer.W L) →
   Activation.type (DenseLayer.activation L) ≠ SOFTMAX →
   ∃ L1 Y, DenseLayer.forward L X = Ok (L1, Y) ∧
     DenseLayer.W L1 = DenseLayer.W L ∧ DenseLayer.b L1 = DenseLayer.b L ∧
     DenseLayer.input_cache L1 = X ∧
     wf Y ∧ rows Y = rows X ∧ cols Y = cols (DenseLayer.W L) ∧
     ∀ i j bj, 0 ≤ i < rows X → 0 ≤ j < cols (DenseLayer.W L) →
       DenseLayer.b L !! Z.to_nat j = Some bj →
       at_ Y i j =
       Ok (Activation.activate (DenseLayer.activation L)
             (fadd (dot X (DenseLayer.W L) i j) bj))).
Proof.
  intros HX HW. split; [|split].
  - intros Hne. unfold DenseLayer.forward.
    destruct (Z.eqb_spec (cols X) (rows (DenseLayer.W L))); [contradiction|reflexivity].
  - intros Hdim Hb. unfold DenseLayer.forward.
    rewrite assert_true by (apply Z.eqb_eq; exact Hdim). rewrite bind_Ok_l.
    destruct (matmul_spec X (DenseLayer.W L) HX HW Hdim) as (C & -> & _ & _ & HcC & _).
    rewrite bind_Ok_l. unfold add_bias. rewrite HcC.
    destruct (Z.eqb_spec (cols (DenseLayer.W L)) (Z.of_nat (length (DenseLayer.b L))));
      [congruence | reflexivity].
  - intros Hdim Hb Hty. unfold DenseLayer.forward.
    rewrite assert_true by (apply Z.eqb_eq; exact Hdim). rewrite bind_Ok_l.
    destruct (matmul_spec X (DenseLayer.W L) HX HW Hdim)
      as (C & -> & HwC & HrC & HcC & HeC).
    rewrite bind_Ok_l.
    destruct (add_bias_spec C (DenseLayer.b L) HwC) as (Z0 & -> & HwZ & HrZ & HcZ & HeZ);
      [congruence|].
    rewrite bind_Ok_l.
    destruct (Activation_forward_cellwise (DenseLayer.activation L) Z0 Hty HwZ)
      as (Y & -> & HwY & HrY & HcY & HeY).
    rewrite bind_Ok_l. eexists _, Y. split; [reflexivity|]. simpl.
    do 3 (split; [reflexivity|]). split; [exact HwY|].
    split; [congruence|]. split; [congruence|].
    intros i j bj Hi Hj Hbj.
    rewrite (at_ent Y i j HwY) by (split; lia).
    rewrite HeY by lia. rewrite (HeZ i j bj) by (first [lia | exact Hbj]).
    rewrite HeC by lia. reflexivity.
Qed.

(** X17. A layer that has not yet seen an input cannot run backward:
    on a newly constructed layer with at least one unit, [backward]
    aborts on an assertion for every gradient. *)
Theorem DenseLayer_backward_before_forward
    (input_dim output_dim : Z) (act : ActivationType) dOut :
  output_dim ≠ 0 →
  DenseLayer.backward (DenseLayer.make input_dim output_dim act) dOut
  = Fault AssertionFailed.
Proof.
  intros Hout. unfold DenseLayer.backward, DenseLayer.make. simpl.
  destruct (Z.eqb_spec (cols dOut) output_dim) as [Ec|]; [|reflexivity]. simpl.
  destruct (Z.eqb_spec (rows dOut) 0) as [Er|]; [|reflexivity]. simpl.
  unfold Activation.backward. simpl. rewrite Er. simpl.
  destruct (Z.eqb_spec (cols dOut) 0) as [Ec0|]; [|reflexivity]. congruence.
Qed.

(** X18. [backward] is tied to the batch of the last [forward]: a
    gradient with another number of rows than that batch, or with
    another number of columns than [W], aborts the call. *)
Theorem DenseLayer_backward_shape_checked L X L1 Y dOut :
  wf X → wf (DenseLayer.W L) →
  DenseLayer.forward L X = Ok (L1, Y) →
  rows dOut ≠ rows X ∨ cols dOut ≠ cols (DenseLayer.W L) →
  DenseLayer.backward L1 dOut = Fault AssertionFailed.
Proof.
  intros HX HW Hfw Hne.
  destruct (DenseLayer_forward_inv L X L1 Y HX HW Hfw) as (EW & _ & _ & _ & _ & _ & EX & _).
  unfold DenseLayer.backward. rewrite EW, EX.
  destruct (decide (cols dOut = cols (DenseLayer.W L))) as [Ec|Ec].
  - rewrite (proj2 (Z.eqb_eq _ _) Ec), (assert_true true eq_refl), bind_Ok_l.
    destruct (decide (rows dOut = rows X)) as [Er|Er]; [destruct Hne; contradiction|].
    rewrite (proj2 (Z.eqb_neq _ _) Er). reflexivity.
  - rewrite (proj2 (Z.eqb_neq _ _) Ec). reflexivity.
Qed.

(** X19. One plain gradient-descent update of the weights of a layer
    whose parameter buffers are in step with its tensors: [step] on
    [W_param] followed by [sync_weights] leaves a weight tensor of the
    same shape with [W(i, j) - lr * grad_W(i, j)] at every entry. *)
Theorem SGD_step_then_sync_weights L (o : SGDOptimizer.t F) (p : loc) :
  fltb f0 (SGDOptimizer.momentum o) = false →
  wf (DenseLayer.W L) → same_shape (DenseLayer.grad_W L) (DenseLayer.W L) →
  Param.data (DenseLayer.W_param L) = data (DenseLayer.W L) →
  Param.grad (DenseLayer.W_param L) = data (DenseLayer.grad_W L) →
  ∃ q, SGDOptimizer.step o p (DenseLayer.W_param L) = Ok (o, q) ∧
    let L' := DenseLayer.sync_weights
                (DenseLayer.mk (DenseLayer.W L) (DenseLayer.b L) (DenseLayer.grad_W L)
                   (DenseLayer.grad_b L) q (DenseLayer.b_param L)
                   (DenseLayer.input_cache L) (DenseLayer.activation L)) in
    wf (DenseLayer.W L') ∧ same_shape (DenseLayer.W L') (DenseLayer.W L) ∧
    DenseLayer.b L' = Param.data (DenseLayer.b_param L) ∧
    ∀ i j, 0 ≤ i < rows (DenseLayer.W L) → 0 ≤ j < cols (DenseLayer.W L) →
      at_ (DenseLayer.W L') i j =
      Ok (fsub (ent (DenseLayer.W L) i j)
               (fmul (SGDOptimizer.lr o) (ent (DenseLayer.grad_W L) i j))).
Proof.
  intros Hm HW (Hgr & Hgc & Hgl) Hd Hg.
  destruct (SGD_plain_run o p (DenseLayer.W_param L) Hm) as (d & Hrun & Hl & Hent).
  { rewrite Hd, Hg. lia. }
  eexists. split; [exact Hrun|]. cbv zeta. unfold DenseLayer.sync_weights. simpl.
  rewrite Hd in Hl. pose proof HW as (Hr & Hc & Hlen).
  assert (wf (mkTensor (rows (DenseLayer.W L)) (cols (DenseLayer.W L)) d)) as HW'.
  { repeat split; simpl; [assumption | assumption | congruence]. }
  split; [exact HW'|]. split; [repeat split; simpl; congruence|].
  split; [reflexivity|]. intros i j Hi Hj.
  rewrite (at_ent _ i j HW') by (split; simpl; lia).
  f_equal. unfold ent. simpl. rewrite Hgc.
  pose proof (index_in_range (DenseLayer.W L) i j HW (conj Hi Hj)) as Hk.
  destruct (lookup_lt_is_Some_2 (data (DenseLayer.W L))
              (Z.to_nat (i * cols (DenseLayer.W L) + j))) as [di Hdi]; [lia|].
  destruct (lookup_lt_is_Some_2 (data (DenseLayer.grad_W L))
              (Z.to_nat (i * cols (DenseLayer.W L) + j))) as [gi Hgi]; [lia|].
  rewrite (Hent _ di gi) by (first [rewrite Hd; exact Hdi | rewrite Hg; exact Hgi]).
  rewrite Hdi, Hgi. reflexivity.
Qed.
End DenseLayerExtras.
(** The example layer on the example input *)
Lemma DenseLayer_forward_affine_witness :
  let L := Examples.layer RELU in
  ∃ L1 Y, DenseLayer.forward L Examples.input = Ok (L1, Y) ∧
          DenseLayer.input_cache L1 = Examples.input ∧
          at_ Y 0 0 =
          Ok (Activation.activate (DenseLayer.activation L)
                (dot Examples.input (DenseLayer.W L) 0 0 + 0.5)%R).
Proof.
  intros L.
  destruct (DenseLayer_forward_affine L Examples.input) as (_ & _ & Hok).
  - repeat split; simpl; lia.
  - repeat split; simpl; lia.
  - destruct Hok as (L1 & Y & Hfw & _ & _ & Hin & _ & _ & _ & Hent).
    + reflexivity.
    + reflexivity.
    + discriminate.
    + exists L1, Y. split; [exact Hfw|]. split; [exact Hin|].
      apply (Hent 0 0 0.5%R); [simpl; lia | simpl; lia | reflexivity].
Defined.

Lemma DenseLayer_backward_before_forward_witness :
  DenseLayer.backward (DenseLayer.make 2 2 RELU) Examples.upstream
  = Fault AssertionFailed.
Proof.
  apply (DenseLayer_backward_before_forward 2 2 RELU Examples.upstream). lia.
Defined.

(** A gradient of two rows after a batch of one row *)
Lemma DenseLayer_backward_shape_checked_witness :
  ∃ L1 Y,
    DenseLayer.forward (Examples.layer RELU) Examples.input = Ok (L1, Y) ∧
    DenseLayer.backward L1 (mkTensor 2 2 [1; 1; 1; 1]%R) = Fault AssertionFailed.
Proof.
  assert (∃ r, DenseLayer.forward (Examples.layer RELU) Examples.input = Ok r)
    as [[L1 Y] Hfw] by (eexists; vm_compute; reflexivity).
  exists L1, Y. split; [exact Hfw|].
  apply (DenseLayer_backward_shape_checked (Examples.layer RELU) Examples.input L1 Y).
  - repeat split; simpl; lia.
  - repeat split; simpl; lia.
  - exact Hfw.
  - left. simpl. lia.
Defined.

(** A binary32 layer with the weights [[1 2] [3 4]] and the weight
    gradient [[10 20] [30 40]], stepped with the learning rate 0.5 *)
Lemma SGD_step_then_sync_weights_witness :
  let W : Tensor B32.t := Examples.b32_tensor 2 2 [1; 2; 3; 4] in
  let gW : Tensor B32.t := Examples.b32_tensor 2 2 [10; 20; 30; 40] in
  let L := DenseLayer.mk W [of_int 5; of_int 6] gW [of_int 7; of_int 8]
             (Param.mk (data W) (data gW))
             (Param.mk [of_int 5; of_int 6] [of_int 7; of_int 8])
             Tensor_default (Activation.make_default RELU) in
  let o : SGDOptimizer.t B32.t := SGDOptimizer.make (flit 0.5) in
  ∃ q, SGDOptimizer.step o 1%positive (DenseLayer.W_param L) = Ok (o, q) ∧
       Param.data q = map of_int [-4; -8; -12; -16] ∧
       at_ (DenseLayer.W
              (DenseLayer.sync_weights
                 (DenseLayer.mk (DenseLayer.W L) (DenseLayer.b L) (DenseLayer.grad_W L)
                    (DenseLayer.grad_b L) q (DenseLayer.b_param L)
                    (DenseLayer.input_cache L) (DenseLayer.activation L)))) 1 0
       = Ok (of_int (-12)).
Proof.
  intros W gW L o.
  destruct (SGD_step_then_sync_weights L o 1%positive) as (q & Hstep & _ & _ & _ & Hent).
  - vm_compute. reflexivity.
  - repeat split; simpl; lia.
  - repeat split.
  - reflexivity.
  - reflexivity.
  - exists q. split; [exact Hstep|]. split.
    + assert (SGDOptimizer.step o 1%positive (DenseLayer.W_param L)
              = Ok (o, Param.mk (map of_int [-4; -8; -12; -16]) (data gW))) as Hrun
        by (vm_compute; reflexivity).
      rewrite Hrun in Hstep. injection Hstep as <-. reflexivity.
    + rewrite (Hent 1 0) by (simpl; lia). vm_compute. reflexivity.
Defined.


(** ** core/loss_functions.h *)

Section LossExtras.
Context {F : Type} `{Arith F} `{Libm F}.
Implicit Types (l : Loss.t F) (pred target G : Tensor F) (ys : list Z).

(** The gradient loops that write every cell once *)
Lemma mse_backward_run l pred target :
  wf pred → wf target → rows target = rows pred → cols target = cols pred →
  ∃ G, Loss.mse_backward l pred target = Ok G ∧
       wf G ∧ rows G = rows pred ∧ cols G = cols pred ∧
       ∀ i j, 0 ≤ i < rows pred → 0 ≤ j < cols pred →
         ent G i j =
         fmul (fdiv (flit 2.0) (of_int (rows pred * cols pred)))
              (fsub (ent pred i j) (ent target i j)).
Proof.
  intros Hp Ht Er Ec. pose proof Hp as (Hr & Hc & _). unfold Loss.mse_backward.
  cbv zeta. simpl rows. simpl cols.
  destruct (for_cells2 (rows pred) (cols pred) (Tensor_new (rows pred) (cols pred))
              (λ i _, i) (λ _ j, j)
              (λ i j, fmul (fdiv (flit 2.0) (of_int (rows pred * cols pred)))
                           (fsub (ent pred i j) (ent target i j)))
              (λ i j g, p ← at_ pred i j; y ← at_ target i j;
                 put g i j (fmul (fdiv (flit 2.0) (of_int (rows pred * cols pred)))
                                 (fsub p y))))
    as (G & Hrun & Hsh & Hent & _).
  - apply Tensor_new_wf; assumption.
  - exact Hr.
  - exact Hc.
  - intros i j ? ?. split; simpl; assumption.
  - intros i j i' j' _ _ _ _ [= -> ->]. split; reflexivity.
  - intros i j C Hi Hj _ _.
    rewrite (at_ent pred i j Hp) by (split; assumption). rewrite bind_Ok_l.
    rewrite (at_ent target i j Ht) by (split; lia). reflexivity.
  - exists G. split; [exact Hrun|].
    pose proof (same_shape_wf _ _ Hsh (Tensor_new_wf _ _ Hr Hc)) as HwG.
    destruct Hsh as (Hr' & Hc' & _). auto.
Qed.

Lemma bce_backward_run l pred target :
  wf pred → wf target → 0 < cols pred → 0 < cols target →
  rows pred ≤ rows target →
  ∃ G, Loss.binary_cross_entropy_backward l pred target = Ok G ∧
       wf G ∧ rows G = rows pred ∧ cols G = 1 ∧
       ∀ i, 0 ≤ i < rows pred →
         ent G i 0 =
         let p := fclamp (ent pred i 0) (Loss.eps l) (fsub f1 (Loss.eps l)) in
         fdiv (fsub p (ent target i 0)) (fmul p (fsub f1 p)).
Proof.
  intros Hp Ht Hcp Hct Hrows. pose proof Hp as (Hr & _ & _).
  unfold Loss.binary_cross_entropy_backward. cbv zeta.
  destruct (for_cells (rows pred) (Tensor_new (rows pred) 1) (λ i, i) (λ _, 0)
              (λ i, fdiv (fsub (fclamp (ent pred i 0) (Loss.eps l) (fsub f1 (Loss.eps l)))
                               (ent target i 0))
                         (fmul (fclamp (ent pred i 0) (Loss.eps l) (fsub f1 (Loss.eps l)))
                               (fsub f1 (fclamp (ent pred i 0) (Loss.eps l)
                                                (fsub f1 (Loss.eps l))))))
              (λ i g, q ← at_ pred i 0;
                 let p := fclamp q (Loss.eps l) (fsub f1 (Loss.eps l)) in
                 y ← at_ target i 0;
                 put g i 0 (fdiv (fsub p y) (fmul p (fsub f1 p)))))
    as (G & Hrun & Hsh & Hent & _).
  - apply Tensor_new_wf; lia.
  - exact Hr.
  - intros k Hk. split; simpl; lia.
  - intros k k' Hk Hk' [= ->]. lia.
  - intros i C Hi _ _.
    rewrite (at_ent pred i 0 Hp) by (split; lia). rewrite bind_Ok_l. cbv zeta.
    rewrite (at_ent target i 0 Ht) by (split; lia). reflexivity.
  - exists G. split; [exact Hrun|].
    pose proof (same_shape_wf _ _ Hsh (Tensor_new_wf (rows pred) 1 Hr ltac:(lia))) as HwG.
    destruct Hsh as (Hr' & Hc' & _). auto.
Qed.

(** X20. The gradient of the mean squared error: for a prediction and a
    target of one shape the result has that shape, with
    [(2 / (rows * cols)) * (pred(i, j) - target(i, j))] at every entry;
    the sparse labels are not read. *)
Theorem mse_backward_entries l pred target ys :
  Loss.type l = MEAN_SQUARED_ERROR →
  wf pred → wf target → rows target = rows pred → cols target = cols pred →
  ∃ G, Loss.backward l pred ys (Some target) = Ok G ∧
       wf G ∧ rows G = rows pred ∧ cols G = cols pred ∧
       ∀ i j, 0 ≤ i < rows pred → 0 ≤ j < cols pred →
         at_ G i j =
         Ok (fmul (fdiv (flit 2.0) (of_int (rows pred * cols pred)))
                  (fsub (ent pred i j) (ent target i j))).
Proof.
  intros Hty Hp Ht Er Ec.
  destruct (mse_backward_run l pred target Hp Ht Er Ec) as (G & HG & HwG & Hr & Hc & Hent).
  exists G. split; [unfold Loss.backward; rewrite Hty; exact HG|].
  do 3 (split; [assumption|]). intros i j Hi Hj.
  rewrite (at_ent G i j HwG) by (split; lia). rewrite Hent by lia. reflexivity.
Qed.

(** X21. The gradient of the binary cross-entropy reads column 0 only:
    whatever the width of the prediction, the result has one column,
    with [(p - y) / (p * (1 - p))] in row [i], where [y = target(i, 0)]
    and [p] is [pred(i, 0)] clamped to [[eps, 1 - eps]]. *)
Theorem bce_backward_first_column l pred target ys :
  Loss.type l = BINARY_CROSS_ENTROPY →
  wf pred → wf target → 0 < cols pred → 0 < cols target →
  rows pred ≤ rows target →
  ∃ G, Loss.backward l pred ys (Some target) = Ok G ∧
       wf G ∧ rows G = rows pred ∧ cols G = 1 ∧
       ∀ i, 0 ≤ i < rows pred →
         at_ G i 0 =
         Ok (fdiv (fsub (fclamp (ent pred i 0) (Loss.eps l) (fsub f1 (Loss.eps l)))
                        (ent target i 0))
                  (fmul (fclamp (ent pred i 0) (Loss.eps l) (fsub f1 (Loss.eps l)))
                        (fsub f1 (fclamp (ent pred i 0) (Loss.eps l)
                                         (fsub f1 (Loss.eps l)))))).
Proof.
  intros Hty Hp Ht Hcp Hct Hrows.
  destruct (bce_backward_run l pred target Hp Ht Hcp Hct Hrows)
    as (G & HG & HwG & Hr & Hc & Hent).
  exists G. split; [unfold Loss.backward; rewrite Hty; exact HG|].
  do 3 (split; [assumption|]). intros i Hi.
  rewrite (at_ent G i 0 HwG) by (split; lia). rewrite Hent by lia. reflexivity.
Qed.

(** The term a row adds to the two categorical losses *)
Lemma categorical_row l pred target i c n (s : F) :
  wf pred → wf target → rows target = rows pred → cols target = cols pred →
  n = cols pred → 0 ≤ i < rows pred → 0 ≤ c < cols pred →
  (∀ j, 0 ≤ j < cols pred → fltb f0 (ent target i j) = bool_decide (j = c)) →
  for_int 0 n (λ j loss,
     y ← at_ target i j;
     if fltb f0 y then
       p ← at_ pred i j;
       Ok (fadd loss (fneg (flog (fmax p (Loss.eps l)))))
     else Ok loss) s
  = Ok (fadd s (fneg (flog (fmax (ent pred i c) (Loss.eps l))))).
Proof.
  intros Hp Ht Er Ec -> Hi Hc Hhot.
  destruct (for_int_inv
    (λ j s', s' = if decide (j ≤ c) then s
                  else fadd s (fneg (flog (fmax (ent pred i c) (Loss.eps l)))))
    (λ j loss,
       y ← at_ target i j;
       if fltb f0 y then
         p ← at_ pred i j;
         Ok (fadd loss (fneg (flog (fmax p (Loss.eps l)))))
       else Ok loss)
    0 (cols pred) s) as (s' & Hrun & Hs').
  - lia.
  - destruct (decide (0 ≤ c)); [reflexivity | lia].
  - intros j s1 Hj ->.
    rewrite (at_ent target i j Ht) by (split; lia). rewrite bind_Ok_l.
    rewrite Hhot by lia. destruct (decide (j = c)) as [->|Hne].
    + rewrite bool_decide_eq_true_2 by reflexivity.
      rewrite (at_ent pred i c Hp) by (split; lia). rewrite bind_Ok_l.
      eexists. split; [reflexivity|].
      destruct (decide (c ≤ c)); [|lia]. destruct (decide (c + 1 ≤ c)); [lia|reflexivity].
    + rewrite bool_decide_eq_false_2 by exact Hne.
      eexists. split; [reflexivity|].
      destruct (decide (j ≤ c)), (decide (j + 1 ≤ c)); try reflexivity; lia.
  - rewrite Hrun, Hs'. destruct (decide (cols pred ≤ c)); [lia | reflexivity].
Qed.

(** X22. On one-hot targets the categorical cross-entropy is the sparse
    one, to the last bit: when the dense target is positive exactly at
    the label of each row, both losses add the same terms in the same
    order. *)
Theorem categorical_forward_is_sparse_on_one_hot (l l' : Loss.t F) pred target ys zs dense :
  Loss.type l = CATEGORICAL_CROSS_ENTROPY →
  Loss.type l' = SPARSE_CATEGORICAL_CROSS_ENTROPY →
  Loss.eps l' = Loss.eps l →
  wf pred → wf target → rows target = rows pred → cols target = cols pred →
  valid_labels pred ys →
  (∀ i j c, 0 ≤ i < rows pred → 0 ≤ j < cols pred → ys !! Z.to_nat i = Some c →
     fltb f0 (ent target i j) = bool_decide (j = c)) →
  Loss.forward l pred zs (Some target) = Loss.forward l' pred ys dense.
Proof.
  intros Hty Hty' Heps Hp Ht Er Ec Hys Hhot.
  unfold Loss.forward. rewrite Hty, Hty'. simpl.
  unfold Loss.categorical_cross_entropy, Loss.sparse_categorical_cross_entropy.
  set (term := λ i, fneg (flog (fmax (ent pred i (default 0 (ys !! Z.to_nat i)))
                                     (Loss.eps l)))).
  rewrite (for_int_fsum _ term).
  - rewrite (for_int_fsum _ term); [reflexivity|].
    intros k s Hk.
    destruct (valid_labels_lookup pred ys k Hys Hk) as (c & Hc & Hcr).
    rewrite (vget_lookup ys k c) by (first [lia | exact Hc]). rewrite bind_Ok_l.
    rewrite (at_ent pred k c Hp) by (split; lia). rewrite bind_Ok_l.
    unfold term. rewrite Hc, Heps. reflexivity.
  - intros k s Hk.
    destruct (valid_labels_lookup pred ys k Hys Hk) as (c & Hc & Hcr).
    unfold term. rewrite Hc. simpl.
    apply categorical_row; try assumption; [reflexivity|].
    intros j Hj. apply Hhot; assumption.
Qed.
(** X25. The sparse categorical cross-entropy, for every scalar type:
    the terms [-log (max (pred(i, label_i), eps))] are added to zero in
    row order and the sum is divided by the number of rows. *)
Theorem sparse_cce_forward_is_mean l pred ys (dense : option (Tensor F)) :
  Loss.type l = SPARSE_CATEGORICAL_CROSS_ENTROPY →
  wf pred → valid_labels pred ys →
  Loss.forward l pred ys dense
  = Ok (fdiv (fsum (rows pred)
                (λ i, fneg (flog (fmax (ent pred i (default 0 (ys !! Z.to_nat i)))
                                       (Loss.eps l)))))
             (of_int (rows pred))).
Proof.
  intros Hty Hp Hys. unfold Loss.forward. rewrite Hty.
  unfold Loss.sparse_categorical_cross_entropy.
  rewrite (for_int_fsum _
             (λ i, fneg (flog (fmax (ent pred i (default 0 (ys !! Z.to_nat i)))
                                    (Loss.eps l))))); [reflexivity|].
  intros k s Hk.
  destruct (valid_labels_lookup pred ys k Hys Hk) as (c & Hc & Hcr).
  rewrite (vget_lookup ys k c) by (first [lia | exact Hc]). rewrite bind_Ok_l.
  rewrite (at_ent pred k c Hp) by (split; lia). rewrite bind_Ok_l.
  rewrite Hc. reflexivity.
Qed.
End LossExtras.
Lemma mse_backward_entries_witness :
  let l : Loss.t R := Loss.make_default MEAN_SQUARED_ERROR in
  let pred := mkTensor 1 2 [1; 2]%R in
  let target := mkTensor 1 2 [0; 4]%R in
  ∃ G, Loss.backward l pred [] (Some target) = Ok G ∧
       at_ G 0 1 = Ok (fmul (fdiv (flit 2.0) (of_int (1 * 2))) (2 - 4)%R).
Proof.
  intros l pred target.
  destruct (mse_backward_entries l pred target []) as (G & HG & _ & _ & _ & Hent).
  - reflexivity.
  - repeat split; simpl; lia.
  - repeat split; simpl; lia.
  - reflexivity.
  - reflexivity.
  - exists G. split; [exact HG|]. apply (Hent 0 1); simpl; lia.
Defined.

(** A prediction of two columns: only the first is read. *)
Lemma bce_backward_first_column_witness :
  let l : Loss.t R := Loss.make_default BINARY_CROSS_ENTROPY in
  let pred := mkTensor 2 2 [0.25; 7; 0.5; 9]%R in
  let target := mkTensor 2 1 [1; 0]%R in
  ∃ G, Loss.backward l pred [] (Some target) = Ok G ∧ rows G = 2 ∧ cols G = 1.
Proof.
  intros l pred target.
  destruct (bce_backward_first_column l pred target []) as (G & HG & _ & Hr & Hc & _).
  - reflexivity.
  - repeat split; simpl; lia.
  - repeat split; simpl; lia.
  - simpl. lia.
  - simpl. lia.
  - simpl. lia.
  - exists G. split; [exact HG|]. split; assumption.
Defined.

(** One row with the label 1 and its one-hot encoding *)
Lemma categorical_forward_is_sparse_on_one_hot_witness :
  let pred := mkTensor 1 2 [0.25; 0.75]%R in
  let target := mkTensor 1 2 [0; 1]%R in
  Loss.forward (Loss.make_default CATEGORICAL_CROSS_ENTROPY) pred [] (Some target)
  = Loss.forward (Loss.make_default SPARSE_CATEGORICAL_CROSS_ENTROPY) pred [1] None.
Proof.
  intros pred target.
  apply (categorical_forward_is_sparse_on_one_hot
           (Loss.make_default CATEGORICAL_CROSS_ENTROPY)
           (Loss.make_default SPARSE_CATEGORICAL_CROSS_ENTROPY) pred target [1] [] None).
  - reflexivity.
  - reflexivity.
  - reflexivity.
  - repeat split; simpl; lia.
  - repeat split; simpl; lia.
  - reflexivity.
  - reflexivity.
  - split; [reflexivity | repeat constructor; simpl; lia].
  - intros i j c Hi Hj. simpl in Hi, Hj.
    assert (i = 0) as -> by lia. intros [= <-].
    assert (j = 0 ∨ j = 1) as [-> | ->] by lia.
    + rewrite bool_decide_eq_false_2 by lia.
      apply Rltb_false. rewrite R_f0. unfold ent. simpl. lra.
    + rewrite bool_decide_eq_true_2 by reflexivity.
      apply Rltb_true. rewrite R_f0. unfold ent. simpl. lra.
Defined.
(** Two rows of binary32 probabilities with the labels 1 and 0 *)
Lemma sparse_cce_forward_is_mean_witness :
  let l : Loss.t B32.t := Loss.make_default SPARSE_CATEGORICAL_CROSS_ENTROPY in
  let pred : Tensor B32.t := mkTensor 2 2 (map flit [0.25; 0.75; 0.5; 0.5]%Q) in
  Loss.forward l pred [1; 0] None
  = Ok (fdiv (fadd (fadd f0 (fneg (flog (fmax (flit 0.75) (Loss.eps l)))))
                   (fneg (flog (fmax (flit 0.5) (Loss.eps l)))))
             (of_int 2)).
Proof.
  intros l pred.
  rewrite (sparse_cce_forward_is_mean l pred [1; 0] None).
  - reflexivity.
  - reflexivity.
  - repeat split; simpl; lia.
  - split; [reflexivity | repeat constructor; simpl; lia].
Defined.


(** ** core/model.h *)

Section IndexedLoops.
Context {S : Type}.
Implicit Types (body : Z → S → result S) (s : S).

(** A property of the loop counter and the state that every successful
    iteration carries forward *)
Lemma for_loop_tracks (I : Z → S → Prop) body n lo s s' :
  (∀ i s s', lo ≤ i < lo + Z.of_nat n → I i s → body i s = Ok s' → I (i + 1) s') →
  I lo s → for_loop n lo body s = Ok s' → I (lo + Z.of_nat n) s'.
Proof.
  revert lo s. induction n as [|n IH]; intros lo s Hstep Hs.
  - intros [= <-]. replace (lo + Z.of_nat 0) with lo by lia. exact Hs.
  - cbn [for_loop]. intros (s1 & Hb & Hl)%bind_Ok.
    replace (lo + Z.of_nat (Datatypes.S n)) with (lo + 1 + Z.of_nat n) by lia.
    apply (IH (lo + 1) s1); [| |exact Hl].
    + intros i s2 s3 Hi. apply Hstep. lia.
    + apply (Hstep lo s s1); [lia | exact Hs | exact Hb].
Qed.

Lemma for_int_tracks (I : Z → S → Prop) body lo hi s s' :
  lo ≤ hi →
  (∀ i s s', lo ≤ i < hi → I i s → body i s = Ok s' → I (i + 1) s') →
  I lo s → for_int lo hi body s = Ok s' → I hi s'.
Proof.
  intros Hle Hstep Hs Hrun. unfold for_int in Hrun.
  replace hi with (lo + Z.of_nat (Z.to_nat (hi - lo))) at 1 by lia.
  eapply for_loop_tracks; [|exact Hs|exact Hrun].
  intros i s1 s2 Hi. apply Hstep. lia.
Qed.

Lemma for_int_empty body lo hi s : hi ≤ lo → for_int lo hi body s = Ok s.
Proof.
  intros Hle. unfold for_int. replace (Z.to_nat (hi - lo)) with 0%nat by lia.
  reflexivity.
Qed.
End IndexedLoops.

Section ModelExtras.
Context {F : Type} `{Arith F} `{Libm F}.
Implicit Types (L : DenseLayer.t F) (h : Model.heap F) (m : Model.t F) (X Y : Tensor F).

Lemma only_caches_differ_refl L : only_caches_differ L L.
Proof. repeat split. Qed.

Lemma only_caches_differ_trans L1 L2 L3 :
  only_caches_differ L1 L2 → only_caches_differ L2 L3 → only_caches_differ L1 L3.
Proof. unfold only_caches_differ. intuition congruence. Qed.

Lemma caches_only_refl ls h : caches_only ls h h.
Proof.
  split; [|reflexivity].
  intros l. destruct (h !! l); constructor. apply only_caches_differ_refl.
Qed.

Lemma caches_only_trans ls h1 h2 h3 :
  caches_only ls h1 h2 → caches_only ls h2 h3 → caches_only ls h1 h3.
Proof.
  intros [H12 F12] [H23 F23]. split.
  - intros l. specialize (H12 l). specialize (H23 l).
    destruct H12 as [L1 L2 H12|]; inversion H23; subst; constructor.
    eapply only_caches_differ_trans; eauto.
  - intros l Hl. rewrite F23, F12 by exact Hl. reflexivity.
Qed.

Lemma caches_only_insert ls h l L L' :
  l ∈ ls → h !! l = Some L → only_caches_differ L L' →
  caches_only ls h (<[l := L']> h).
Proof.
  intros Hin Hl Hs. split.
  - intros l'. destruct (decide (l = l')) as [<-|Hne].
    + rewrite lookup_insert_eq, Hl. constructor. exact Hs.
    + rewrite lookup_insert_ne by exact Hne.
      destruct (h !! l'); constructor. apply only_caches_differ_refl.
  - intros l' Hl'. apply lookup_insert_ne. intros ->. contradiction.
Qed.

Lemma caches_only_mono ls ls' h h' :
  ls ⊆ ls' → caches_only ls h h' → caches_only ls' h h'.
Proof.
  intros Hsub [Hk Hf]. split; [exact Hk|]. intros l Hl. apply Hf.
  intros Hin. apply Hl, Hsub, Hin.
Qed.

Lemma DenseLayer_forward_caches L X L' Y :
  DenseLayer.forward L X = Ok (L', Y) → only_caches_differ L L'.
Proof.
  unfold DenseLayer.forward.
  intros (_ & _ & (out0 & _ & (out & _ & ([act Y'] & Hact & [= <- _])%bind_Ok)%bind_Ok)%bind_Ok)%bind_Ok.
  destruct (Activation_forward_inv _ _ _ _ Hact) as (Hty & Hal & Hbe & _).
  repeat split; assumption.
Qed.

Lemma for_each_layers_caches (ls ls0 : list loc) h X h' Y :
  ls ⊆ ls0 →
  for_each ls (λ l '(h, x),
    L ← Model.layer_at h l;
    '(L, x) ← DenseLayer.forward L x;
    Ok (<[l := L]> h, x)) (h, X) = Ok (h', Y) →
  caches_only ls0 h h'.
Proof.
  revert h X. induction ls as [|l ls IH]; intros h X Hsub; simpl.
  - intros [= <- _]. apply caches_only_refl.
  - intros ([h1 x1] & Hb & Hrest)%bind_Ok.
    apply bind_Ok in Hb as (L & HL%layer_at_Ok & ([L' x'] & Hfw & [= <- <-])%bind_Ok).
    eapply caches_only_trans.
    + apply (caches_only_insert ls0 h l L L'); [apply Hsub; left | exact HL |].
      eapply DenseLayer_forward_caches, Hfw.
    + eapply IH; [|exact Hrest]. intros x Hx. apply Hsub. right. exact Hx.
Qed.

Lemma forward_internal_caches m h X h' Y :
  Model.forward_internal m h X = Ok (h', Y) → caches_only (Model.layers m) h h'.
Proof. unfold Model.forward_internal. apply for_each_layers_caches. reflexivity. Qed.

(** X26. Inference and evaluation change nothing but caches: after a
    successful [predict] or [evaluate] every layer has the weights, the
    biases, the gradients, the parameter buffers and the activation kind
    it had, and a layer that is not in the model is not written at all. *)
Theorem predict_and_evaluate_touch_caches_only m h :
  (∀ X h' Y, Model.predict m h X = Ok (h', Y) → caches_only (Model.layers m) h h') ∧
  (∀ Xs ys h' r, Model.evaluate m h Xs ys = Ok (h', r) →
     caches_only (Model.layers m) h h').
Proof.
  split.
  - intros X h' Y. apply forward_internal_caches.
  - intros Xs ys h' r. unfold Model.evaluate.
    intros (_ & _ & ([[h1 tl] c] & Hrun & [= <- _])%bind_Ok)%bind_Ok. revert Hrun.
    apply (for_int_keeps
      (λ st : Model.heap F * F * Z, caches_only (Model.layers m) h st.1.1));
      [|apply caches_only_refl].
    intros i [[h4 el4] c4] [[h5 el5] c5] Hk4
      (Xi & _ & ([h6 output] & Hfw & Hrest)%bind_Ok)%bind_Ok.
    apply bind_Ok in Hrest
      as (yi & _ & (lf & _ & (loss & _ & (am & _ & [= <- _ _])%bind_Ok)%bind_Ok)%bind_Ok).
    simpl in *. eapply caches_only_trans; [exact Hk4|].
    eapply forward_internal_caches, Hfw.
Qed.

(** X27. [fit] reports once per epoch: a successful call with
    [epochs >= 0] leaves [epochs] reports, the [k]-th numbered [k + 1];
    with [epochs <= 0] a compiled model returns at once, with no report
    and the layers as they were. *)
Theorem fit_reports_each_epoch m h Xs ys (epochs batch_size : Z) :
  (∀ h' out, 0 ≤ epochs →
     Model.fit m h Xs ys epochs batch_size = Ok (h', out) →
     Z.of_nat (length out) = epochs ∧
     ∀ (k : nat) r, out !! k = Some r → Model.epoch_number r = Z.of_nat k + 1) ∧
  (epochs ≤ 0 → is_Some (Model.loss_fn m) → is_Some (Model.optimizer m) →
   Model.fit m h Xs ys epochs batch_size = Ok (h, [])).
Proof.
  split.
  - intros h' out Hep. unfold Model.fit. intros (_ & _ & Hrun)%bind_Ok.
    revert Hrun.
    apply (for_int_tracks
      (λ e (st : Model.heap F * list (Model.epoch_report F)),
         Z.of_nat (length st.2) = e ∧
         ∀ (k : nat) r, st.2 !! k = Some r → Model.epoch_number r = Z.of_nat k + 1)
      _ 0 epochs (h, []) (h', out) Hep).
    + intros e [h1 o1] [h2 o2] He [Hlen Hnum] ([[h3 el] c] & _ & [= _ <-])%bind_Ok.
      simpl in *. split; [rewrite length_app; simpl; lia|].
      intros k r Hk. apply lookup_app_Some in Hk as [Hk|[Hge Hk]].
      * apply Hnum, Hk.
      * apply list_lookup_singleton_Some in Hk as [Hk0 <-]. simpl. lia.
    + simpl. split; [reflexivity|]. intros k r Hk. rewrite lookup_nil in Hk. discriminate.
  - intros Hep Hl Ho. unfold Model.fit.
    rewrite assert_true by (rewrite !bool_decide_eq_true_2 by assumption; reflexivity).
    rewrite bind_Ok_l. apply for_int_empty. exact Hep.
Qed.

Lemma chain_ok_caches ls0 h h' ls d_in d_out :
  caches_only ls0 h h' → chain_ok h ls d_in d_out → chain_ok h' ls d_in d_out.
Proof.
  intros [Hk _]. revert d_in. induction ls as [|l ls IH]; intros d_in; simpl; [auto|].
  intros (L & HL & HW & Hr & Hb & Hsm & Hrest).
  specialize (Hk l). rewrite HL in Hk. inversion Hk as [L0 L' Hd E0 E'|]; subst.
  destruct Hd as (EW & Eb & _ & _ & _ & _ & Ety & _).
  exists L'. rewrite EW, Eb, Ety. split; [reflexivity|]. repeat split; try assumption.
  - destruct HW as (? & ? & ?). assumption.
  - destruct HW as (? & ? & ?). assumption.
  - destruct HW as (? & ? & ?). assumption.
  - apply IH. exact Hrest.
Qed.

Lemma DenseLayer_forward_total L X :
  wf X → wf (DenseLayer.W L) → cols X = rows (DenseLayer.W L) →
  Z.of_nat (length (DenseLayer.b L)) = cols (DenseLayer.W L) →
  (Activation.type (DenseLayer.activation L) = SOFTMAX → 0 < cols (DenseLayer.W L)) →
  ∃ L1 Y, DenseLayer.forward L X = Ok (L1, Y) ∧
          wf Y ∧ rows Y = rows X ∧ cols Y = cols (DenseLayer.W L).
Proof.
  intros HX HW Hdim Hb Hsm. unfold DenseLayer.forward.
  rewrite assert_true by (apply Z.eqb_eq; exact Hdim). rewrite bind_Ok_l.
  destruct (matmul_spec X (DenseLayer.W L) HX HW Hdim) as (C & -> & HwC & HrC & HcC & _).
  rewrite bind_Ok_l.
  destruct (add_bias_spec C (DenseLayer.b L) HwC) as (Z0 & -> & HwZ & HrZ & HcZ & _);
    [congruence|].
  rewrite bind_Ok_l.
  destruct (decide (Activation.type (DenseLayer.activation L) = SOFTMAX)) as [Hty|Hty].
  - destruct (Activation_forward_softmax (DenseLayer.activation L) Z0 Hty HwZ)
      as (a' & Y & -> & HwY & HrY & HcY & _); [specialize (Hsm Hty); lia|].
    rewrite bind_Ok_l. eexists _, Y. split; [reflexivity|].
    split; [exact HwY|]. split; congruence.
  - destruct (Activation_forward_cellwise (DenseLayer.activation L) Z0 Hty HwZ)
      as (Y & -> & HwY & HrY & HcY & _).
    rewrite bind_Ok_l. eexists _, Y. split; [reflexivity|].
    split; [exact HwY|]. split; congruence.
Qed.

Lemma for_each_layers_total (ls : list loc) h X d_out :
  wf X → chain_ok h ls (cols X) d_out →
  ∃ h' Y,
    for_each ls (λ l '(h, x),
      L ← Model.layer_at h l;
      '(L, x) ← DenseLayer.forward L x;
      Ok (<[l := L]> h, x)) (h, X) = Ok (h', Y) ∧
    wf Y ∧ rows Y = rows X ∧ cols Y = d_out.
Proof.
  revert h X. induction ls as [|l ls IH]; intros h X HX Hchain;
    cbn [for_each]; cbn [chain_ok] in Hchain.
  - subst d_out. exists h, X. auto.
  - destruct Hchain as (L & HL & HW & Hr & Hb & Hsm & Hrest).
    assert (Model.layer_at h l = Ok L) as -> by (unfold Model.layer_at; rewrite HL; reflexivity).
    rewrite bind_Ok_l.
    destruct (DenseLayer_forward_total L X HX HW) as (L1 & Y1 & Hfw & HwY & HrY & HcY);
      [congruence | exact Hb | exact Hsm |].
    rewrite Hfw, bind_Ok_l. cbv beta iota.
    destruct (IH (<[l := L1]> h) Y1 HwY) as (h' & Y & Hrun & HwY' & HrY' & HcY').
    + rewrite HcY.
      apply (chain_ok_caches [l] h); [|exact Hrest].
      apply (caches_only_insert [l] h l L L1); [left | exact HL |].
      eapply DenseLayer_forward_caches, Hfw.
    + exists h', Y. split; [exact Hrun|]. split; [exact HwY'|]. split; congruence.
Qed.

(** X29. [predict] on layers that fit one another: when each layer named
    by the model is well formed, takes the width the layer before it
    produces, and has a bias of the length of its output, [predict]
    returns, for every well-formed batch of the width of the first
    layer, one row per input row and one column per unit of the last
    layer. *)
Theorem predict_runs_the_chain m h X d_out :
  wf X → chain_ok h (Model.layers m) (cols X) d_out →
  ∃ h' Y, Model.predict m h X = Ok (h', Y) ∧
          wf Y ∧ rows Y = rows X ∧ cols Y = d_out.
Proof.
  intros HX Hchain. unfold Model.predict, Model.forward_internal.
  apply for_each_layers_total; assumption.
Qed.
End ModelExtras.
(** X28. On an empty data set [evaluate] reads no layer and divides zero
    by zero: a model with a loss returns the layers as they were, and a
    report whose mean loss is [0.0f / 0] and whose accuracy is [0 / 0];
    in binary32 both are NaN. *)
Theorem evaluate_empty_data_set :
  (∀ (F : Type) (AF : Arith F) (LF : Libm F) (m : Model.t F) (h : Model.heap F)
     (ys : list Z),
     is_Some (Model.loss_fn m) →
     Model.evaluate m h [] ys
     = Ok (h, Model.mkReport 0 (fdiv f0 (of_int 0)) (fdiv (of_int 0) (of_int 0)))) ∧
  fdiv (f0 : B32.t) (of_int 0) = S754_nan ∧
  fdiv (of_int 0 : B32.t) (of_int 0) = S754_nan.
Proof.
  split; [|split; vm_compute; reflexivity].
  intros F AF LF m h ys Hl. unfold Model.evaluate.
  rewrite assert_true by (apply bool_decide_eq_true_2; exact Hl).
  reflexivity.
Qed.

(** The example model on the example input *)
Lemma predict_and_evaluate_touch_caches_only_witness :
  ∃ h' Y,
    Model.predict (Examples.model SPARSE_CATEGORICAL_CROSS_ENTROPY) Examples.layers
      Examples.input = Ok (h', Y) ∧
    caches_only [1; 2]%positive Examples.layers h'.
Proof.
  assert (∃ r, Model.predict (Examples.model SPARSE_CATEGORICAL_CROSS_ENTROPY)
                 Examples.layers Examples.input = Ok r)
    as [[h' Y] Hrun] by (eexists; vm_compute; reflexivity).
  exists h', Y. split; [exact Hrun|].
  destruct (predict_and_evaluate_touch_caches_only
              (Examples.model SPARSE_CATEGORICAL_CROSS_ENTROPY) Examples.layers)
    as [Hpred _].
  apply (Hpred Examples.input h' Y Hrun).
Defined.

(** Two epochs over one sample *)
Lemma fit_reports_each_epoch_witness :
  ∃ h' out,
    Model.fit (Examples.model SPARSE_CATEGORICAL_CROSS_ENTROPY) Examples.layers
      [Examples.input] [1] 2 1 = Ok (h', out) ∧
    Z.of_nat (length out) = 2.
Proof.
  assert (∃ r, Model.fit (Examples.model SPARSE_CATEGORICAL_CROSS_ENTROPY)
                 Examples.layers [Examples.input] [1] 2 1 = Ok r)
    as [[h' out] Hfit] by (eexists; vm_compute; reflexivity).
  exists h', out. split; [exact Hfit|].
  destruct (fit_reports_each_epoch (Examples.model SPARSE_CATEGORICAL_CROSS_ENTROPY)
              Examples.layers [Examples.input] [1] 2 1) as [Hrep _].
  destruct (Hrep h' out) as [Hlen _]; [lia | exact Hfit | exact Hlen].
Defined.

Lemma evaluate_empty_data_set_witness :
  Model.evaluate (Examples.model SPARSE_CATEGORICAL_CROSS_ENTROPY) Examples.layers [] []
  = Ok (Examples.layers,
        Model.mkReport 0 (fdiv f0 (of_int 0)) (fdiv (of_int 0) (of_int 0))).
Proof.
  destruct evaluate_empty_data_set as [Hev _].
  apply (Hev R _ _ (Examples.model SPARSE_CATEGORICAL_CROSS_ENTROPY) Examples.layers []).
  eexists. reflexivity.
Defined.

(** The two example layers, each 2 by 2, on a batch of width 2 *)
Lemma predict_runs_the_chain_witness :
  ∃ h' Y,
    Model.predict (Examples.model SPARSE_CATEGORICAL_CROSS_ENTROPY) Examples.layers
      Examples.input = Ok (h', Y) ∧
    wf Y ∧ rows Y = 1 ∧ cols Y = 2.
Proof.
  apply (predict_runs_the_chain (Examples.model SPARSE_CATEGORICAL_CROSS_ENTROPY)
           Examples.layers Examples.input 2).
  - repeat split; simpl; lia.
  - exists (Examples.layer RELU). split; [reflexivity|].
    split; [repeat split; simpl; lia|]. split; [reflexivity|]. split; [reflexivity|].
    split; [discriminate|].
    exists (Examples.layer SOFTMAX). split; [reflexivity|].
    split; [repeat split; simpl; lia|]. split; [reflexivity|]. split; [reflexivity|].
    split; [intros _; simpl; lia|]. reflexivity.
Defined.
